(** * Monthly code churn: a shallow embedding of [pydriller/avg_churn.py]

    The script splits a fixed date window into intervals, hands contiguous
    chunks of them to worker processes (one private repository copy each),
    sums insertions and deletions per interval, and averages churn per
    calendar month over all repositories.

    Python values are modelled as follows.
    - [int] is [Z]; indices produced by [range(len(...))] and lengths are
      [nat]; the version counter of [get_new_temp_dir] is [N].
    - [str] is [string], holding the UTF-8 bytes of the text: the bytes of
      an ASCII character are the character, and the order of two texts by
      code points is the order of their bytes.
    - [createMonthList] is written for any dates that compare with [<] and
      any step that [+=] adds: it is embedded over the classes [Before] and
      [Advance] of such dates and steps.  The dates of the script are [datetime]s built from
      [dt(y, m, d)] and moved by [relativedelta(months=...)]: a record of
      year, month and day (the time of day stays midnight) and a record of
      the relative [years] and [months].
    - the file system is a finite map from the paths that exist to what is
      there, a directory or a regular file.  Paths are taken as they are
      spelled: symbolic links, [.] and [..] components, two spellings of one
      entry, permissions and other processes are outside the model.
    - a [dict] with string keys is a [gmap string _].
    - exceptions and non-termination are results: [Return], [Raise],
      [Timeout] (the fuel of a [while] loop ran out).
    - [np.mean] and float division are exact rationals ([Q]). *)

From Stdlib Require Import ZArith QArith Lia Ascii.
From stdpp Require Import gmap strings list sorting pretty.

Close Scope Q_scope.
Local Open Scope Z_scope.

(** ** Exceptions and results *)

(** [CopyError] stands for the way a copy into its own source ends:
    [shutil.Error] or [RecursionError]. *)
Inductive exn : Type :=
  | AssertionError
  | ValueError
  | FileExistsError
  | FileNotFoundError
  | NotADirectoryError
  | CopyError
  | GitError (detail : string).

Inductive outcome (A : Type) : Type :=
  | Return (a : A)
  | Raise (e : exn)
  | Timeout.
Arguments Return {A} a.
Arguments Raise {A} e.
Arguments Timeout {A}.

#[global] Instance outcome_ret : MRet outcome := λ A a, Return a.
#[global] Instance outcome_bind : MBind outcome := λ A B k m,
  match m with
  | Return a => k a
  | Raise e => Raise e
  | Timeout => Timeout
  end.

#[global] Instance outcome_fmap : FMap outcome := λ A B f m,
  match m with
  | Return a => Return (f a)
  | Raise e => Raise e
  | Timeout => Timeout
  end.

Definition assert (b : bool) : outcome unit :=
  if b then Return tt else Raise AssertionError.

(** ** [datetime] *)

Record datetime : Type := dt { year : Z; month : Z; day : Z }.

Definition MINYEAR : Z := 1.
Definition MAXYEAR : Z := 9999.

(** [calendar.isleap] *)
Definition isleap (y : Z) : bool :=
  (y mod 4 =? 0) && (negb (y mod 100 =? 0) || (y mod 400 =? 0)).

(** [calendar.monthrange(y, m)[1]]: the number of days of the month. *)
Definition monthrange (y m : Z) : Z :=
  if m =? 2 then (if isleap y then 29 else 28)
  else if (m =? 4) || (m =? 6) || (m =? 9) || (m =? 11) then 30
  else 31.

(** The checks of the [datetime] constructor. *)
Definition valid_datetime (d : datetime) : bool :=
  (MINYEAR <=? year d) && (year d <=? MAXYEAR) &&
  (1 <=? month d) && (month d <=? 12) &&
  (1 <=? day d) && (day d <=? monthrange (year d) (month d)).

(** [d1 < d2] on datetimes: lexicographic on year, month, day. *)
Definition dt_ltb (d1 d2 : datetime) : bool :=
  (year d1 <? year d2) ||
  ((year d1 =? year d2) &&
   ((month d1 <? month d2) ||
    ((month d1 =? month d2) && (day d1 <? day d2)))).

Definition dt_leb (d1 d2 : datetime) : bool := negb (dt_ltb d2 d1).

(** ** [relativedelta] *)

Record relativedelta : Type := mk_relativedelta { years : Z; months : Z }.

(** [relativedelta(years=y, months=m)]: the constructor normalises months
    beyond 11 into years, keeping the sign ([relativedelta._fix]). *)
Definition new_relativedelta (y m : Z) : relativedelta :=
  if 11 <? Z.abs m then
    let s := Z.sgn m in
    {| years := y + ((m * s) / 12) * s; months := ((m * s) mod 12) * s |}
  else {| years := y; months := m |}.

(** The number of months a delta moves a date by. *)
Definition total_months (r : relativedelta) : Z := 12 * years r + months r.

(** [datetime + relativedelta] ([relativedelta.__radd__]): move the year and
    the month, clip the day to the length of the target month, and build the
    new datetime, which raises [ValueError] outside [MINYEAR..MAXYEAR]. *)
Definition dt_add (d : datetime) (r : relativedelta) : outcome datetime :=
  let y := year d + years r in
  let m := month d in
  _ ← (if months r =? 0 then Return tt
       else assert ((1 <=? Z.abs (months r)) && (Z.abs (months r) <=? 12))) ;
  let '(y, m) :=
    if months r =? 0 then (y, m)
    else
      let m := m + months r in
      if 12 <? m then (y + 1, m - 12)
      else if m <? 1 then (y - 1, m + 12)
      else (y, m) in
  let d' := Z.min (monthrange y m) (day d) in
  if (MINYEAR <=? y) && (y <=? MAXYEAR) then Return (dt y m d')
  else Raise ValueError.

(** ** Constants for the date range *)

Definition GLOBAL_START_DATE : datetime := dt 2019 10 1.
Definition GLOBAL_END_DATE : datetime := dt 2025 2 1.

(** ** [createMonthList]

    What the function asks of its arguments: dates that compare with [<]
    ([before]) and a step that [+=] adds to a date ([advance]). *)
Class Before (T : Type) : Type := before : T → T → bool.
Class Advance (T D : Type) : Type := advance : T → D → outcome T.
#[global] Hint Mode Before ! : typeclass_instances.
#[global] Hint Mode Advance ! - : typeclass_instances.

(** The dates and steps of the script. *)
#[global] Instance datetime_before : Before datetime := dt_ltb.
#[global] Instance datetime_advance : Advance datetime relativedelta := dt_add.

(** [while startDate < endDate: monthList.append(startDate); startDate += stepSize]
    followed by [monthList.append(endDate)].  [fuel] bounds the number of
    iterations. *)
Fixpoint createMonthList_loop {T D} `{!Before T, !Advance T D} (fuel : nat)
    (monthList : list T) (startDate endDate : T) (stepSize : D)
    : outcome (list T) :=
  if before startDate endDate then
    match fuel with
    | O => Timeout
    | S fuel' =>
        startDate' ← advance startDate stepSize;
        createMonthList_loop fuel' (monthList ++ [startDate])
          startDate' endDate stepSize
    end
  else Return (monthList ++ [endDate]).

Definition createMonthList {T D} `{!Before T, !Advance T D} (fuel : nat)
    (startDate endDate : T) (stepSize : D) : outcome (list T) :=
  createMonthList_loop fuel [] startDate endDate stepSize.

#[global] Instance datetime_inhabited : Inhabited datetime := populate (dt 1 1 1).

(** [[(monthList[i], monthList[i + 1]) for i in range(len(monthList) - 1)]] *)
Definition monthPairs {T} `{!Inhabited T} (monthList : list T) : list (T * T) :=
  (λ i, (monthList !!! i, monthList !!! S i)) <$> seq 0 (length monthList - 1).

(** ** The file system *)

(** What there is at a path. *)
Inductive kind : Type := File | Dir.

#[global] Instance kind_eq_dec : EqDecision kind.
Proof. solve_decision. Defined.

Abbreviation filesystem := (gmap string kind).

(** A computation that reads and changes the file system; what it had
    changed is kept when an exception is raised. *)
Definition M (A : Type) : Type := filesystem → filesystem * outcome A.

#[global] Instance M_ret : MRet M := λ A a fs, (fs, Return a).
#[global] Instance M_bind : MBind M := λ A B k m fs,
  match m fs with
  | (fs', Return a) => k a fs'
  | (fs', Raise e) => (fs', Raise e)
  | (fs', Timeout) => (fs', Timeout)
  end.

(** A computation without file-system effect. *)
Definition lift {A} (o : outcome A) : M A := λ fs, (fs, o).

(** [os.path.exists] *)
Definition path_exists (p : string) (fs : filesystem) : bool :=
  bool_decide (is_Some (fs !! p)).

(** *** [posixpath] *)

Fixpoint endswith_sep (s : string) : bool :=
  match s with
  | EmptyString => false
  | String c EmptyString => Ascii.eqb c "/"%char
  | String _ s' => endswith_sep s'
  end.

(** [p.rstrip("/")] *)
Fixpoint rstrip_sep (p : string) : string :=
  match p with
  | EmptyString => EmptyString
  | String c p' =>
      match rstrip_sep p' with
      | EmptyString => if Ascii.eqb c "/"%char then EmptyString
                       else String c EmptyString
      | r => String c r
      end
  end.

(** [(p[:i], p[i:])] for [i = p.rfind("/") + 1]. *)
Fixpoint rsplit_sep (p : string) : string * string :=
  match p with
  | EmptyString => (EmptyString, EmptyString)
  | String c p' =>
      let '(head, tail) := rsplit_sep p' in
      if String.eqb head EmptyString then
        if Ascii.eqb c "/"%char then (String c EmptyString, tail)
        else (EmptyString, String c tail)
      else (String c head, tail)
  end.

(** [os.path.split(p)]: the head loses its trailing separators unless it
    consists of separators only. *)
Definition path_split (p : string) : string * string :=
  let '(head, tail) := rsplit_sep p in
  (if String.eqb (rstrip_sep head) EmptyString then head
   else rstrip_sep head, tail).

(** [os.path.join(path, name)] for a [name] that does not begin with a
    separator joins after [with_sep path]. *)
Definition with_sep (path : string) : string :=
  if String.eqb path EmptyString || endswith_sep path then path
  else path +:+ "/".

(** [os.path.dirname] *)
Definition dirname (p : string) : string := (path_split p).1.

(** *** [os.mkdir] and [os.makedirs] *)

(** The directory in which the entry [p] is made. *)
Definition parent_dir (p : string) : string := dirname (rstrip_sep p).

(** The look-up of that directory: the current directory (no directory
    part) and the root are there; any other has to be a directory of the
    file system. *)
Definition lookup_dir (d : string) (fs : filesystem) : outcome unit :=
  if String.eqb (rstrip_sep d) EmptyString then Return tt
  else match fs !! d with
       | Some Dir => Return tt
       | Some File => Raise NotADirectoryError
       | None => Raise FileNotFoundError
       end.

(** [os.mkdir(p)]: the empty path names nothing; the entry must be new (the
    root never is); its parent directory must be there. *)
Definition mkdir (p : string) : M unit := λ fs,
  if String.eqb p EmptyString then (fs, Raise FileNotFoundError)
  else if path_exists p fs || String.eqb (rstrip_sep p) EmptyString
  then (fs, Raise FileExistsError)
  else match lookup_dir (parent_dir p) fs with
       | Return _ => (<[p := Dir]> fs, Return tt)
       | Raise e => (fs, Raise e)
       | Timeout => (fs, Timeout)
       end.

(** The split [os.makedirs] begins with: [head, tail = path.split(name)],
    once more on the head when the tail is empty. *)
Definition makedirs_split (name : string) : string * string :=
  let '(head, tail) := path_split name in
  if String.eqb tail EmptyString then path_split head else (head, tail).

(** [os.makedirs(name)] with [exist_ok=False]: the missing directories above
    [name] are made first, the outermost first.  The recursion is on the
    head of the path, which is shorter than the path: the length of [name]
    is fuel enough. *)
Fixpoint makedirs_from (fuel : nat) (name : string) : M unit := λ fs,
  let '(head, tail) := makedirs_split name in
  if negb (String.eqb head EmptyString) && negb (String.eqb tail EmptyString)
     && negb (path_exists head fs)
  then
    match fuel with
    | O => (fs, Timeout)
    | S fuel' =>
        match makedirs_from fuel' head fs with
        | (fs', Return _) | (fs', Raise FileExistsError) =>
            if String.eqb tail "." then (fs', Return tt) else mkdir name fs'
        | (fs', Raise e) => (fs', Raise e)
        | (fs', Timeout) => (fs', Timeout)
        end
    end
  else mkdir name fs.

Definition makedirs (name : string) : M unit :=
  makedirs_from (String.length name) name.

(** *** [shutil.copytree] *)

Fixpoint strip_prefix (pre s : string) : option string :=
  match pre, s with
  | EmptyString, _ => Some s
  | String a pre', String b s' =>
      if Ascii.eqb a b then strip_prefix pre' s' else None
  | String _ _, EmptyString => None
  end.

(** The path of [p] relative to the directory [d], for a [p] below [d]. *)
Definition below (d p : string) : option string :=
  match strip_prefix (with_sep d) p with
  | Some rel => if String.eqb rel EmptyString then None else Some rel
  | None => None
  end.

(** The first component of a relative path. *)
Fixpoint first_component (rel : string) : string :=
  match rel with
  | EmptyString => EmptyString
  | String c rel' =>
      if Ascii.eqb c "/"%char then EmptyString
      else String c (first_component rel')
  end.

(** The tree below [src]: relative paths and what is there. *)
Definition tree (src : string) (fs : filesystem) : list (string * kind) :=
  omap (λ e, rel ← below src e.1; Some (rel, e.2)) (map_to_list fs).

(** A destination below a directory that the source already has: the copy
    of that directory holds the destination, and the recursion follows it
    down without end. *)
Definition copies_itself (src dst : string) (fs : filesystem) : bool :=
  match below src dst with
  | Some rel =>
      bool_decide (fs !! (with_sep src +:+ first_component rel) = Some Dir)
  | None => false
  end.

(** [shutil.copytree(src, dst)]: the entries of the source are listed, which
    fails unless it is a directory; [os.makedirs(dst)] makes the destination
    and the missing directories above it; then every entry of the tree
    below [src] is copied to the same place below [dst]. *)
Definition copytree (src dst : string) : M unit := λ fs,
  match fs !! src with
  | None => (fs, Raise FileNotFoundError)
  | Some File => (fs, Raise NotADirectoryError)
  | Some Dir =>
      match makedirs dst fs with
      | (fs', Return _) =>
          if copies_itself src dst fs then (fs', Raise CopyError)
          else (fs' ∪ list_to_map
                        ((λ e, (with_sep dst +:+ e.1, e.2)) <$> tree src fs),
                Return tt)
      | (fs', Raise e) => (fs', Raise e)
      | (fs', Timeout) => (fs', Timeout)
      end
  end.

(** [os.path.join(a, *p)] of [posixpath]. *)
Definition path_join (a : string) (p : list string) : string :=
  foldl (λ path b,
           if String.prefix "/" b then b
           else if String.eqb path EmptyString || endswith_sep path then path +:+ b
           else path +:+ "/" +:+ b) a p.

(** [f"{base_dir}_v{version}"] *)
Definition versioned (base_dir : string) (version : N) : string :=
  base_dir +:+ "_v" +:+ pretty version.

(** ** [get_new_temp_dir]

    The [while os.path.exists(new_temp_dir)] scan; it returns the version it
    stops at. *)
Fixpoint get_new_temp_dir_loop (fuel : nat) (fs : filesystem)
    (base_dir : string) (version : N) : outcome N :=
  if path_exists (versioned base_dir version) fs then
    match fuel with
    | O => Timeout
    | S fuel' => get_new_temp_dir_loop fuel' fs base_dir (version + 1)%N
    end
  else Return version.

Definition get_new_temp_dir (fuel : nat) (base_dir : string) : M string :=
  λ fs,
    (version ← lift (get_new_temp_dir_loop fuel fs base_dir 0%N);
     let new_temp_dir := versioned base_dir version in
     _ ← mkdir new_temp_dir;
     mret new_temp_dir) fs.

(** [range(n)] for an [int] [n]. *)
Definition range (n : Z) : list Z := seqZ 0 n.

(** ** [createMultipleRepos] *)
Fixpoint createMultipleRepos_loop (sourceDir tempDir : string)
    (indices : list Z) (directories : list string) : M (list string) :=
  match indices with
  | [] => mret directories
  | i :: indices' =>
      let tempDirName :=
        path_join tempDir ["tempDir_" +:+ pretty i; ".git"] in
      _ ← copytree sourceDir tempDirName;
      createMultipleRepos_loop sourceDir tempDir indices'
        (directories ++ [tempDirName])
  end.

Definition createMultipleRepos (sourceDir tempDir : string) (numCopies : Z)
    : M (list string) :=
  createMultipleRepos_loop sourceDir tempDir (range numCopies) [].

(** ** [np.array_split] with an integer number of sections *)

(** [numpy.cumsum] *)
Fixpoint cumsum_from (acc : nat) (l : list nat) : list nat :=
  match l with
  | [] => []
  | x :: l' => (acc + x)%nat :: cumsum_from (acc + x) l'
  end.
Definition cumsum (l : list nat) : list nat := cumsum_from 0 l.

(** [ary[st:end]] for [0 <= st], [0 <= end]. *)
Definition slice {A} (ary : list A) (st en : nat) : list A :=
  take (en - st) (drop st ary).

Definition array_split {A} (ary : list A) (Nsections : nat)
    : outcome (list (list A)) :=
  let Ntotal := length ary in
  if bool_decide (Nsections ≤ 0)%nat then Raise ValueError
  else
    let Neach_section := (Ntotal / Nsections)%nat in
    let extras := (Ntotal `mod` Nsections)%nat in
    let section_sizes :=
      [0%nat] ++ replicate extras (Neach_section + 1)%nat
             ++ replicate (Nsections - extras) Neach_section in
    let div_points := cumsum section_sizes in
    Return ((λ i, slice ary (div_points !!! i) (div_points !!! S i))
              <$> seq 0 Nsections).

(** ** Jobs *)

Module Job.
Record t : Type := mk {
  id : nat;
  dateRanges : list (datetime * datetime);
  directory : string
}.
End Job.

(** The loop of [createJobsByTimeDelta] over
    [zip(range(len(directories)), np.array_split(monthPairs, len(directories)))]. *)
Definition build_jobs (monthPairs : list (datetime * datetime))
    (directories : list string) : outcome (list Job.t) :=
  chunks ← array_split monthPairs (length directories);
  mret (zip_with
          (λ i dateRanges,
             {| Job.id := i;
                Job.dateRanges := dateRanges;
                Job.directory := directories !!! i |})
          (seq 0 (length directories)) chunks).

Definition createJobsByTimeDelta (fuel : nat) (repoPath : string)
    (timeDelta : relativedelta) (directories : list string)
    : M (list Job.t) :=
  λ fs,
    (_ ← lift (assert (path_exists repoPath fs));
     monthList ← lift (createMonthList fuel GLOBAL_START_DATE GLOBAL_END_DATE
                         timeDelta);
     lift (build_jobs (monthPairs monthList) directories)) fs.

(** ** The worker *)

Module Commit.
Record t : Type := mk { insertions : Z; deletions : Z }.
End Commit.

(** The dictionary [temp] a worker fills per interval. *)
Module Item.
Record t : Type := mk {
  id : nat;
  repoPath : string;
  startDate : datetime;
  endDate : datetime;
  insertions : Z;
  deletions : Z;
  churn : Z
}.
End Item.

(** What [codeChurnJob] returns: [(id, repoPath, finishedJobs)]. *)
Definition worker_result : Type := nat * string * list Item.t.

(** [pool.map(f, jobs)] of a pool of [processes] workers ([ctx.Pool] checks
    [processes >= 1]); there are as many jobs as workers, so every job is a
    task of its own.  The call answers once every task has finished, so a
    task that never finishes blocks it.  The results come back in job order;
    when tasks raise, the call raises the exception of one of them and
    returns no list.  Which one depends on timing (the pool keeps the first
    failure it receives); the model takes the first in job order, and no
    statement below depends on that choice. *)
Fixpoint map_results {A B} (f : A → outcome B) (jobs : list A)
    : outcome (list B) :=
  match jobs with
  | [] => Return []
  | job :: jobs' =>
      match f job, map_results f jobs' with
      | Timeout, _ | _, Timeout => Timeout
      | Raise e, _ => Raise e
      | Return _, Raise e => Raise e
      | Return r, Return rs => Return (r :: rs)
      end
  end.

Definition pool_map {A B} (processes : Z) (f : A → outcome B)
    (jobs : list A) : outcome (list B) :=
  if processes <? 1 then Raise ValueError else map_results f jobs.

Section worker.
(** [Repository(path_to_repo, since, to).traverse_commits()], the history
    reader: the commits of a repository copy inside a window, or the
    exception reading it raises. *)
Variable traverse_commits :
  string → datetime → datetime → outcome (list Commit.t).

(** One iteration of the loop over [dateRanges]. *)
Definition codeChurnInterval (id : nat) (repoPath : string)
    (dateRange : datetime * datetime) : outcome Item.t :=
  let '(startDate, endDate) := dateRange in
  let temp := Item.mk id repoPath startDate endDate 0 0 0 in
  commits ← traverse_commits repoPath startDate endDate;
  let temp :=
    foldl (λ temp commit,
             Item.mk (Item.id temp) (Item.repoPath temp)
               (Item.startDate temp) (Item.endDate temp)
               (Item.insertions temp + Commit.insertions commit)
               (Item.deletions temp + Commit.deletions commit)
               (Item.churn temp))
          temp commits in
  mret (Item.mk (Item.id temp) (Item.repoPath temp)
          (Item.startDate temp) (Item.endDate temp)
          (Item.insertions temp) (Item.deletions temp)
          (Item.insertions temp + Item.deletions temp)).

Fixpoint codeChurnJob_loop (id : nat) (repoPath : string)
    (dateRanges : list (datetime * datetime)) (finishedJobs : list Item.t)
    : outcome (list Item.t) :=
  match dateRanges with
  | [] => mret finishedJobs
  | dateRange :: dateRanges' =>
      temp ← codeChurnInterval id repoPath dateRange;
      codeChurnJob_loop id repoPath dateRanges' (finishedJobs ++ [temp])
  end.

Definition codeChurnJob (job : Job.t) : outcome worker_result :=
  let id := Job.id job in
  let repoPath := Job.directory job in
  let dateRanges := Job.dateRanges job in
  finishedJobs ← codeChurnJob_loop id repoPath dateRanges [];
  mret (id, repoPath, finishedJobs).

(** ** [codeChurnPerDelta]; [cpu_count] is [mp.cpu_count()]. *)
Definition codeChurnPerDelta (fuel : nat) (cpu_count : Z)
    (repoPath : string) (timeDelta : relativedelta) (tempDir : string)
    (numDirectories : Z) : M (list worker_result) :=
  _ ← lift (assert (numDirectories <=? cpu_count - 1));
  new_temp_dir ← get_new_temp_dir fuel tempDir;
  dirs ← createMultipleRepos repoPath new_temp_dir numDirectories;
  jobs ← createJobsByTimeDelta fuel repoPath timeDelta dirs;
  lift (pool_map numDirectories codeChurnJob jobs).
End worker.

(** ** Aggregation per month *)

(** The character of a decimal digit. *)
Definition digit (n : Z) : ascii := ascii_of_N (48 + Z.to_N (n mod 10)).

(** [d.strftime("%Y-%m")]: the year in decimal, as the C library writes
    [%Y], without padding (a year below 1000 has fewer than four digits),
    and two digits of month. *)
Definition strftime_Ym (d : datetime) : string :=
  pretty (year d) +:+
  String "-" (String (digit (month d / 10))
                (String (digit (month d)) EmptyString)).

(** The value of an ASCII digit. *)
Definition digit_val (c : ascii) : option Z :=
  let n := Z.of_N (N_of_ascii c) in
  if (48 <=? n) && (n <=? 57) then Some (n - 48) else None.

(** The first character of a text and the rest of it: the code point that
    the leading UTF-8 bytes encode. *)
Definition continuation (c : ascii) : option N :=
  let n := N_of_ascii c in
  if ((128 <=? n) && (n <=? 191))%N then Some (n - 128)%N else None.

Definition utf8_decode (s : string) : option (N * string) :=
  match s with
  | EmptyString => None
  | String c0 s1 =>
      let b0 := N_of_ascii c0 in
      if (b0 <? 128)%N then Some (b0, s1)
      else if ((194 <=? b0) && (b0 <=? 223))%N then
        match s1 with
        | String c1 s2 =>
            b1 ← continuation c1;
            Some (((b0 - 192) * 64 + b1)%N, s2)
        | _ => None
        end
      else if ((224 <=? b0) && (b0 <=? 239))%N then
        match s1 with
        | String c1 (String c2 s3) =>
            b1 ← continuation c1; b2 ← continuation c2;
            let cp := ((b0 - 224) * 4096 + b1 * 64 + b2)%N in
            if ((2048 <=? cp) && negb ((55296 <=? cp) && (cp <=? 57343)))%N
            then Some (cp, s3) else None
        | _ => None
        end
      else if ((240 <=? b0) && (b0 <=? 244))%N then
        match s1 with
        | String c1 (String c2 (String c3 s4)) =>
            b1 ← continuation c1; b2 ← continuation c2;
            b3 ← continuation c3;
            let cp := ((b0 - 240) * 262144 + b1 * 4096 + b2 * 64 + b3)%N in
            if ((65536 <=? cp) && (cp <=? 1114111))%N
            then Some (cp, s4) else None
        | _ => None
        end
      else None
  end.

(** The decimal digits of Unicode 14.0 (category [Nd], 660 characters) come
    in runs of ten, in the order of their values; these are the code points
    of the zeros. *)
Definition decimal_zeros : list N :=
  [48; 1632; 1776; 1984; 2406; 2534; 2662; 2790; 2918; 3046; 3174; 3302;
   3430; 3558; 3664; 3792; 3872; 4160; 4240; 6112; 6160; 6470; 6608; 6784;
   6800; 6992; 7088; 7232; 7248; 42528; 43216; 43264; 43472; 43504; 43600;
   44016; 65296; 66720; 68912; 69734; 69872; 69942; 70096; 70384; 70736;
   70864; 71248; 71360; 71472; 71904; 72016; 72784; 73040; 73120; 92768;
   92864; 93008; 120782; 120792; 120802; 120812; 120822; 123200; 123632;
   125264; 130032]%N.

(** The value of a decimal digit: what [\d] matches and [int] reads. *)
Definition decimal_value (cp : N) : option Z :=
  (λ zero, Z.of_N (cp - zero)) <$>
    find (λ zero, (zero <=? cp) && (cp <? zero + 10))%N decimal_zeros.

(** [\d] repeated [n] times, read as a number after [acc]. *)
Fixpoint decimal_digits (n : nat) (acc : Z) (s : string)
    : option (Z * string) :=
  match n with
  | O => Some (acc, s)
  | S n' =>
      '(cp, s') ← utf8_decode s;
      v ← decimal_value cp;
      decimal_digits n' (10 * acc + v) s'
  end.

(** The month part of the format: [1[0-2]|0[1-9]|[1-9]] up to the end. *)
Definition parse_month (s : string) : option Z :=
  match s with
  | String a EmptyString =>
      match digit_val a with
      | Some m => if 1 <=? m then Some m else None
      | None => None
      end
  | String a (String b EmptyString) =>
      match digit_val a, digit_val b with
      | Some 1, Some m => if m <=? 2 then Some (10 + m) else None
      | Some 0, Some m => if 1 <=? m then Some m else None
      | _, _ => None
      end
  | _ => None
  end.

(** [dt.strptime(s, "%Y-%m")]: the text has to match
    [(\d\d\d\d)-(1[0-2]|0[1-9]|[1-9])] to its end; the day is 1.  Anything
    else raises [ValueError], as does year 0. *)
Definition strptime_Ym (s : string) : outcome datetime :=
  match decimal_digits 4 0 s with
  | Some (y, String sep rest) =>
      match parse_month rest with
      | Some m =>
          if Ascii.eqb sep "-" && (MINYEAR <=? y) then Return (dt y m 1)
          else Raise ValueError
      | None => Raise ValueError
      end
  | _ => Raise ValueError
  end.

(** [sorted(l, key=...)]: a stable sort; [leb x y] compares the keys. *)
Fixpoint insert_sorted {A} (leb : A → A → bool) (x : A) (l : list A)
    : list A :=
  match l with
  | [] => [x]
  | y :: l' => if leb x y then x :: l else y :: insert_sorted leb x l'
  end.

Definition sorted {A} (leb : A → A → bool) (l : list A) : list A :=
  foldr (insert_sorted leb) [] l.

(** [ids, paths, data = zip] of the unpacked [result]: the assignment to
    three names fails on an empty list. *)
Definition unzip3 (result : list worker_result)
    : outcome (list nat * list string * list (list Item.t)) :=
  match result with
  | [] => Raise ValueError
  | _ => Return (fmap (λ r, r.1.1) result, fmap (λ r, r.1.2) result,
                 fmap (λ r, r.2) result)
  end.

(** [combined_data.setdefault(month, []).append(churn)] *)
Definition setdefault_append (combined_data : gmap string (list Z))
    (month : string) (churn : Z) : gmap string (list Z) :=
  <[month := default [] (combined_data !! month) ++ [churn]]> combined_data.

(** The body of the loop of [__main__] over the repositories, after the
    call of [codeChurnPerDelta]. *)
Definition collect (combined_data : gmap string (list Z))
    (result : list worker_result) : outcome (gmap string (list Z)) :=
  '(ids, paths, data) ← unzip3 result;
  let dataSorted :=
    sorted (λ x y, dt_leb (Item.startDate x) (Item.startDate y))
           (concat data) in
  mret (foldl (λ combined_data item,
                 let month := strftime_Ym (Item.startDate item) in
                 setdefault_append combined_data month (Item.churn item))
              combined_data dataSorted).

Fixpoint collect_all (combined_data : gmap string (list Z))
    (results : list (list worker_result)) : outcome (gmap string (list Z)) :=
  match results with
  | [] => mret combined_data
  | result :: results' =>
      combined_data' ← collect combined_data result;
      collect_all combined_data' results'
  end.

(** [np.mean] of a list of integers. *)
Definition np_mean (l : list Z) : Q :=
  Qdiv (inject_Z (foldr Z.add 0 l)) (inject_Z (Z.of_nat (length l))).

(** [months = sorted(combined_data.keys())] *)
Definition months_of (combined_data : gmap string (list Z)) : list string :=
  sorted String.leb (fst <$> map_to_list combined_data).

(** [avg_churn = [np.mean(combined_data[month]) for month in months]] *)
Definition avg_churn_of (combined_data : gmap string (list Z))
    (months : list string) : list Q :=
  (λ month, np_mean (combined_data !!! month)) <$> months.

(** The aggregation of the results of all repositories: the series of
    [(month, avg_churn)]. *)
Definition aggregate (results : list (list worker_result))
    : outcome (list (string * Q)) :=
  combined_data ← collect_all ∅ results;
  let months := months_of combined_data in
  mret (zip months (avg_churn_of combined_data months)).

(** ** Before and after the threshold *)

Definition threshold_date : datetime := dt 2022 11 1.

Fixpoint split_by_threshold (threshold : datetime)
    (series : list (string * Q)) (before after : list Q)
    : outcome (list Q * list Q) :=
  match series with
  | [] => mret (before, after)
  | (month, churn) :: series' =>
      month_dt ← strptime_Ym month;
      if dt_ltb month_dt threshold
      then split_by_threshold threshold series' (before ++ [churn]) after
      else split_by_threshold threshold series' before (after ++ [churn])
  end.

(** [sum(l) / len(l) if l else 0] *)
Definition average (l : list Q) : Q :=
  match l with
  | [] => 0%Q
  | _ => Qdiv (foldl Qplus 0%Q l) (inject_Z (Z.of_nat (length l)))
  end.

Definition summary (threshold : datetime) (series : list (string * Q))
    : outcome (Q * Q) :=
  '(before, after) ← split_by_threshold threshold series [] [];
  mret (average before, average after).

(** ** [__main__]

    [all_repos] is the list of repository directories found under
    [repos/all]; plotting is left out. *)
Section main.
Variable traverse_commits :
  string → datetime → datetime → outcome (list Commit.t).

Definition tempDir : string := "repos/temp/tempDir".

Fixpoint main_loop (fuel : nat) (cpu_count : Z) (all_repos : list string)
    (combined_data : gmap string (list Z)) : M (gmap string (list Z)) :=
  match all_repos with
  | [] => mret combined_data
  | repoPath :: all_repos' =>
      result ← codeChurnPerDelta traverse_commits fuel cpu_count repoPath
                 (new_relativedelta 0 1) tempDir 7;
      combined_data' ← lift (collect combined_data result);
      main_loop fuel cpu_count all_repos' combined_data'
  end.

Definition main (fuel : nat) (cpu_count : Z) (all_repos : list string)
    : M (list (string * Q) * (Q * Q)) :=
  combined_data ← main_loop fuel cpu_count all_repos ∅;
  let months := months_of combined_data in
  let avg_churn := avg_churn_of combined_data months in
  averages ← lift (summary threshold_date (zip months avg_churn));
  mret (zip months avg_churn, averages).
End main.

(** * Vocabulary of the statements *)

(** The month count of a date; [dt_add] moves it by [total_months]. *)
Definition month_index (d : datetime) : Z := 12 * year d + month d.

Definition valid_month (d : datetime) : Prop := 1 ≤ month d ≤ 12.

(** The deltas the constructor builds keep [months] within 11. *)
Definition normal (r : relativedelta) : Prop := Z.abs (months r) ≤ 11.

(** Consecutive elements increase. *)
Definition increasing {T} `{!Before T} (l : list T) : Prop :=
  ∀ i a b, l !! i = Some a → l !! S i = Some b → before a b = true.

(** The count of the days of a date from a day that does not matter, were
    all months 32 days long: a later date counts more. *)
Definition day_count (d : datetime) : Z := month_index d * 32 + day d.

(** Whether a computation returned a value. *)
Definition returns {A} (o : outcome A) : bool :=
  match o with Return _ => true | _ => false end.

(** Each interval starts where the one before it ends. *)
Definition contiguous {T} (intervals : list (T * T)) : Prop :=
  ∀ i p q, intervals !! i = Some p → intervals !! S i = Some q → p.2 = q.1.

(** The intervals begin at [startDate] and finish at [endDate]. *)
Definition covers {T} (startDate endDate : T) (intervals : list (T * T))
    : Prop :=
  fst <$> head intervals = Some startDate ∧
  snd <$> last intervals = Some endDate.

(** Every interval has its start before its end. *)
Definition proper {T} `{!Before T} (intervals : list (T * T)) : Prop :=
  Forall (λ p, before p.1 p.2 = true) intervals.

(** The cursors of the loop of [createMonthList]: the start, and every date
    that adding the step to a cursor yields. *)
Inductive cursor {T D} `{!Advance T D} (stepSize : D) (startDate : T)
    : T → Prop :=
  | cursor_start : cursor stepSize startDate startDate
  | cursor_next c c' :
      cursor stepSize startDate c →
      advance c stepSize = Return c' →
      cursor stepSize startDate c'.

(** Cutting a list into consecutive pieces of given sizes. *)
Fixpoint chop {A} (sizes : list nat) (ary : list A) : list (list A) :=
  match sizes with
  | [] => []
  | n :: sizes' => take n ary :: chop sizes' (drop n ary)
  end.

(** The sizes [np.array_split] gives to [Nsections] sections of [Ntotal]
    elements: the first [Ntotal mod Nsections] sections get one more. *)
Definition section_sizes (Ntotal Nsections : nat) : list nat :=
  replicate (Ntotal `mod` Nsections)%nat (Ntotal / Nsections + 1)%nat ++
  replicate (Nsections - Ntotal `mod` Nsections)%nat (Ntotal / Nsections)%nat.

(** The date ranges of the sections, computed from the global window, the
    step and the number of sections alone. *)
Definition global_date_ranges (fuel : nat) (timeDelta : relativedelta)
    (Nsections : nat) : outcome (list (list (datetime * datetime))) :=
  monthList ← createMonthList fuel GLOBAL_START_DATE GLOBAL_END_DATE timeDelta;
  array_split (monthPairs monthList) Nsections.

(** The date ranges a list of jobs assigns, job by job. *)
Definition date_assignment (jobs : outcome (list Job.t))
    : outcome (list (list (datetime * datetime))) :=
  (λ jobs : list Job.t, Job.dateRanges <$> jobs) <$> jobs.

(** The sum of a list of integers. *)
Definition sumZ (l : list Z) : Z := foldr Z.add 0 l.

(** [item] is the result of [dateRange] for worker [id] on [repoPath]: the
    window is the interval, the counts are the sums over the commits the
    history reader yields for that window alone, and churn is their sum. *)
Definition interval_result
    (traverse_commits : string → datetime → datetime → outcome (list Commit.t))
    (id : nat) (repoPath : string) (dateRange : datetime * datetime)
    (item : Item.t) : Prop :=
  ∃ commits,
    traverse_commits repoPath dateRange.1 dateRange.2 = Return commits ∧
    item = Item.mk id repoPath dateRange.1 dateRange.2
             (sumZ (Commit.insertions <$> commits))
             (sumZ (Commit.deletions <$> commits))
             (sumZ (Commit.insertions <$> commits) +
              sumZ (Commit.deletions <$> commits)).

(** A history reader that fails on the repository copies listed in [bad]
    and finds one commit in every window elsewhere. *)
Definition failing_reader (bad : list string)
    : string → datetime → datetime → outcome (list Commit.t) :=
  λ repoPath _ _,
    if bool_decide (repoPath ∈ bad) then Raise (GitError repoPath)
    else Return [Commit.mk 1 1].

(** The results a call hands to its caller. *)
Definition delivered {A} (o : outcome (list A)) : list A :=
  match o with Return rs => rs | _ => [] end.

(** The strict order of Python on strings. *)
Definition str_lt (s1 s2 : string) : Prop := String.ltb s1 s2 = true.

(** The first day of the month of a date. *)
Definition first_of_month (d : datetime) : datetime :=
  dt (year d) (month d) 1.

(** The month key of a result: the calendar month of its start date. *)
Definition month_key (item : Item.t) : string :=
  strftime_Ym (Item.startDate item).

(** All the interval results of a run: those of every worker of every
    repository. *)
Definition all_items (results : list (list worker_result)) : list Item.t :=
  concat ((λ result : list worker_result, concat (result.*2)) <$> results).

(** The churn values of the results whose start date lies in month [m]. *)
Definition samples (results : list (list worker_result)) (m : string)
    : list Z :=
  Item.churn <$> filter (λ item, month_key item = m) (all_items results).

(** No month of the dictionary has an empty list. *)
Definition no_empty_month (combined_data : gmap string (list Z)) : Prop :=
  ∀ m l, combined_data !! m = Some l → l ≠ [].

(** The key [YYYY-MM] of the month of a date: four digits of year, a dash,
    two digits of month.  [strftime_Ym] writes it for the years from 1000
    on. *)
Definition yyyy_mm (d : datetime) : string :=
  String (digit (year d / 1000)) (String (digit (year d / 100))
    (String (digit (year d / 10)) (String (digit (year d))
      (String "-" (String (digit (month d / 10))
        (String (digit (month d)) EmptyString)))))).

(** The series of month keys [YYYY-MM] and values of a list of dated
    values. *)
Definition keyed (dated : list (datetime * Q)) : list (string * Q) :=
  (λ p, (yyyy_mm p.1, p.2)) <$> dated.

(** The values of the months that begin before the threshold, and those of
    the other months. *)
Definition values_before (threshold : datetime) (dated : list (datetime * Q))
    : list Q :=
  (filter (λ p, dt_ltb (first_of_month p.1) threshold = true) dated).*2.

Definition values_from (threshold : datetime) (dated : list (datetime * Q))
    : list Q :=
  (filter (λ p, dt_ltb (first_of_month p.1) threshold = false) dated).*2.

(** The cursors of [createMonthList] from [startDate]: each is before
    [endDate] and the next is the sum of it and the step; the sum of the
    last one and the step is not before [endDate]. *)
Fixpoint cursors (endDate : datetime) (stepSize : relativedelta)
    (startDate : datetime) (l : list datetime) : Prop :=
  match l with
  | [] => dt_ltb startDate endDate = false
  | a :: l' =>
      a = startDate ∧ dt_ltb startDate endDate = true ∧
      ∃ c, dt_add startDate stepSize = Return c ∧
           cursors endDate stepSize c l'
  end.

(** Whether a separator occurs in a text. *)
Fixpoint has_sep (s : string) : bool :=
  match s with
  | EmptyString => false
  | String c s' => Ascii.eqb c "/"%char || has_sep s'
  end.

(** The directory of copy [i]:
    [os.path.join(tempDir, f"tempDir_{i}", ".git")]. *)
Definition copy_path (tempDir : string) (i : Z) : string :=
  path_join tempDir ["tempDir_" +:+ pretty i; ".git"].

(** The directory in which copy [i] is made: [tempDir/tempDir_i]. *)
Definition copy_dir (tempDir : string) (i : Z) : string :=
  tempDir +:+
  (if String.eqb tempDir EmptyString || endswith_sep tempDir
   then EmptyString else "/") +:+
  "tempDir_" +:+ pretty i.

(** The interval and the counts of a result agree with the history of the
    copy the result names. *)
Definition result_of
    (traverse_commits : string → datetime → datetime → outcome (list Commit.t))
    (dateRange : datetime * datetime) (item : Item.t) : Prop :=
  interval_result traverse_commits (Item.id item) (Item.repoPath item)
    dateRange item.

(** The date a month key stands for; keys that do not parse stand for
    no date, and are given the first date there is. *)
Definition key_date (key : string) : datetime :=
  match strptime_Ym key with
  | Return d => d
  | _ => dt 1 1 1
  end.

(** A text of ASCII characters only. *)
Fixpoint is_ascii (s : string) : bool :=
  match s with
  | EmptyString => true
  | String c s' => (N_of_ascii c <? 128)%N && is_ascii s'
  end.

(** One of the characters [0] to [9]. *)
Definition is_ascii_digit (c : ascii) : bool :=
  bool_decide (c ∈ ["0"; "1"; "2"; "3"; "4"; "5"; "6"; "7"; "8"; "9"]%char).

(** The texts of a month. *)
Definition month_texts : list string :=
  ["1"; "2"; "3"; "4"; "5"; "6"; "7"; "8"; "9";
   "01"; "02"; "03"; "04"; "05"; "06"; "07"; "08"; "09"; "10"; "11"; "12"].

(** The month keys in the format of the summary, among the ASCII texts: the
    four digits of a year other than [0000], a dash and the text of a
    month. *)
Definition month_key_format (s : string) : bool :=
  match s with
  | String a (String b (String c (String d (String sep m)))) =>
      forallb is_ascii_digit [a; b; c; d]
      && negb (String.eqb
                 (String a (String b (String c (String d EmptyString))))
                 "0000")
      && Ascii.eqb sep "-"
      && bool_decide (m ∈ month_texts)
  | _ => false
  end.

(** The boundaries and the month keys of the global window cut by the step
    of [__main__], one month. *)
Definition window_boundaries : list datetime :=
  delivered (createMonthList 64 GLOBAL_START_DATE GLOBAL_END_DATE
               (new_relativedelta 0 1)).

Definition window_months : list string :=
  (λ p, strftime_Ym p.1) <$> monthPairs window_boundaries.

(** * Properties *)

(** ** Dates *)

Lemma valid_datetime_month d : valid_datetime d = true → valid_month d.
Proof. unfold valid_datetime, valid_month. intros H. repeat (apply andb_prop in H as [H ?]). lia. Qed.

Lemma valid_datetime_year d :
  valid_datetime d = true → MINYEAR ≤ year d ≤ MAXYEAR.
Proof. unfold valid_datetime. intros H. repeat (apply andb_prop in H as [H ?]). lia. Qed.

Lemma dt_ltb_spec d1 d2 :
  dt_ltb d1 d2 = true ↔
  year d1 < year d2 ∨
  (year d1 = year d2 ∧
   (month d1 < month d2 ∨ (month d1 = month d2 ∧ day d1 < day d2))).
Proof.
  unfold dt_ltb.
  rewrite !orb_true_iff, !andb_true_iff, !orb_true_iff, !andb_true_iff,
    !Z.ltb_lt, !Z.eqb_eq.
  tauto.
Qed.

Lemma dt_ltb_irrefl d : dt_ltb d d = false.
Proof. apply not_true_is_false. rewrite dt_ltb_spec. lia. Qed.

Lemma dt_ltb_month_index d1 d2 :
  valid_month d1 → valid_month d2 →
  dt_ltb d1 d2 = true → month_index d1 ≤ month_index d2.
Proof. unfold valid_month, month_index. rewrite dt_ltb_spec. lia. Qed.

Lemma month_index_lt_dt_ltb d1 d2 :
  valid_month d1 → valid_month d2 →
  month_index d1 < month_index d2 → dt_ltb d1 d2 = true.
Proof. unfold valid_month, month_index. rewrite dt_ltb_spec. lia. Qed.

Ltac div_lia := Z.to_euclidean_division_equations; lia.
Lemma new_relativedelta_normal y m : normal (new_relativedelta y m).
Proof.
  unfold normal, new_relativedelta.
  destruct (Z.ltb_spec 11 (Z.abs m)); cbn [years months]; [|lia].
  destruct (Z.sgn_spec m) as [[? ->]|[[? ->]|[? ->]]]; div_lia.
Qed.

Lemma new_relativedelta_total y m :
  total_months (new_relativedelta y m) = 12 * y + m.
Proof.
  unfold total_months, new_relativedelta.
  destruct (Z.ltb_spec 11 (Z.abs m)); cbn [years months]; [|lia].
  destruct (Z.sgn_spec m) as [[? ->]|[[? ->]|[? ->]]]; div_lia.
Qed.

(** [dt_add] on a date with a valid month and a normal delta: the month
    count moves by [total_months], and the result is the date of that month
    count unless its year leaves the range. *)
Lemma dt_add_Return d r d' :
  valid_month d → normal r →
  dt_add d r = Return d' →
  valid_month d' ∧ month_index d' = month_index d + total_months r ∧
  MINYEAR ≤ year d' ≤ MAXYEAR.
Proof.
  unfold valid_month, normal, month_index, total_months, dt_add, assert,
    MINYEAR, MAXYEAR.
  intros Hm Hr Hadd.
  repeat (case_match; simplify_eq/=); lia.
Qed.

Lemma dt_add_is_Return d r :
  valid_month d → normal r →
  MINYEAR * 12 + 1 ≤ month_index d + total_months r ≤ MAXYEAR * 12 + 12 →
  ∃ d', dt_add d r = Return d'.
Proof.
  unfold valid_month, normal, month_index, total_months, dt_add, assert,
    MINYEAR, MAXYEAR.
  intros Hm Hr Hb.
  repeat (case_match; simplify_eq/=); eauto; lia.
Qed.

Lemma dt_add_increases d r d' :
  valid_month d → normal r → 0 < total_months r →
  dt_add d r = Return d' → dt_ltb d d' = true.
Proof.
  intros Hm Hr Hp Hadd.
  destruct (dt_add_Return d r d' Hm Hr Hadd) as (Hm' & Hi & _).
  apply month_index_lt_dt_ltb; [done..|lia].
Qed.

(** ** [monthPairs] *)

Section monthPairs.
Context {T : Type} `{!Inhabited T}.
Implicit Types monthList : list T.

Lemma monthPairs_lookup monthList (i : nat) p :
  monthPairs monthList !! i = Some p ↔
  (S i < length monthList)%nat ∧ p = (monthList !!! i, monthList !!! S i).
Proof.
  unfold monthPairs. rewrite list_lookup_fmap.
  destruct (decide (i < length monthList - 1)%nat) as [Hi|Hi].
  - rewrite lookup_seq_lt by done. simpl. split.
    + intros [= <-]. split; [lia|done].
    + by intros [_ ->].
  - rewrite lookup_seq_ge by lia. simpl. split; [done|lia].
Qed.

Lemma monthPairs_length monthList :
  length (monthPairs monthList) = (length monthList - 1)%nat.
Proof. unfold monthPairs. by rewrite length_fmap, length_seq. Qed.

Lemma monthPairs_contiguous monthList : contiguous (monthPairs monthList).
Proof.
  intros i p q [_ ->]%monthPairs_lookup [_ ->]%monthPairs_lookup. done.
Qed.

Lemma monthPairs_proper `{!Before T} monthList :
  increasing monthList → proper (monthPairs monthList).
Proof.
  intros Hinc. apply Forall_lookup. intros i p [Hi ->]%monthPairs_lookup.
  simpl. apply (Hinc i).
  - apply list_lookup_lookup_total_lt. lia.
  - apply list_lookup_lookup_total_lt. lia.
Qed.

Lemma monthPairs_covers monthList startDate endDate :
  (2 ≤ length monthList)%nat →
  head monthList = Some startDate → last monthList = Some endDate →
  covers startDate endDate (monthPairs monthList).
Proof.
  intros Hlen Hhd Hlast. split.
  - rewrite head_lookup.
    destruct (monthPairs monthList !! 0%nat) as [p|] eqn:Hp.
    + apply monthPairs_lookup in Hp as [_ ->]. simpl. f_equal.
      rewrite head_lookup in Hhd. by apply list_lookup_total_correct.
    + apply lookup_ge_None in Hp. rewrite monthPairs_length in Hp. lia.
  - rewrite last_lookup, monthPairs_length.
    destruct (monthPairs monthList !! pred (length monthList - 1))
      as [p|] eqn:Hp.
    + apply monthPairs_lookup in Hp as [_ ->]. simpl. f_equal.
      rewrite last_lookup in Hlast.
      replace (S (pred (length monthList - 1))) with (pred (length monthList))
        by lia.
      by apply list_lookup_total_correct.
    + apply lookup_ge_None in Hp. rewrite monthPairs_length in Hp. lia.
Qed.
End monthPairs.

(** ** [createMonthList] *)

(** The loop at the dates of the script. *)
Lemma createMonthList_loop_dt fuel monthList (startDate endDate : datetime)
    (stepSize : relativedelta) :
  createMonthList_loop fuel monthList startDate endDate stepSize
  = if dt_ltb startDate endDate then
      match fuel with
      | O => Timeout
      | S fuel' =>
          startDate' ← dt_add startDate stepSize;
          createMonthList_loop fuel' (monthList ++ [startDate])
            startDate' endDate stepSize
      end
    else Return (monthList ++ [endDate]).
Proof. by destruct fuel. Qed.

Section createMonthList.
Context {T D : Type} `{!Before T, !Advance T D}.
Implicit Types (startDate endDate : T) (stepSize : D) (monthList : list T).

Lemma increasing_cons a (l : list T) :
  (∀ b, head l = Some b → before a b = true) →
  increasing l → increasing (a :: l).
Proof.
  intros Hh Hl [|i] x y; simpl.
  - intros [= <-] Hy. apply Hh. by destruct l.
  - apply Hl.
Qed.

(** More fuel does not change an outcome that needed no more. *)
Lemma createMonthList_loop_more_fuel endDate stepSize fuel :
  ∀ fuel' monthList startDate o,
    createMonthList_loop fuel monthList startDate endDate stepSize = o →
    o ≠ Timeout → (fuel ≤ fuel')%nat →
    createMonthList_loop fuel' monthList startDate endDate stepSize = o.
Proof.
  induction fuel as [|fuel IH]; intros fuel' monthList startDate o;
    simpl; destruct (before startDate endDate) eqn:Hlt.
  - by intros <-.
  - intros <- _ _. destruct fuel'; simpl; by rewrite Hlt.
  - intros Ho Hne Hfuel. destruct fuel' as [|fuel']; [lia|]. simpl.
    rewrite Hlt.
    destruct (advance startDate stepSize) as [d'| |]; [|done..]. simpl in *.
    apply IH; [done|done|lia].
  - intros <- _ _. destruct fuel'; simpl; by rewrite Hlt.
Qed.

Lemma createMonthList_loop_fuel endDate stepSize fuel :
  ∀ fuel' monthList startDate l,
    createMonthList_loop fuel monthList startDate endDate stepSize = Return l →
    (fuel ≤ fuel')%nat →
    createMonthList_loop fuel' monthList startDate endDate stepSize = Return l.
Proof.
  intros fuel' monthList startDate l Hl Hfuel.
  by apply (createMonthList_loop_more_fuel _ _ fuel).
Qed.

(** The loop from a cursor, with fuel for the dates that are left: it ends
    with the boundaries from the cursor on, or with the exception that the
    addition raises at a cursor before [endDate]. *)
Lemma createMonthList_loop_outcome (rank : T → Z) startDate0 endDate stepSize :
  (∀ c b, cursor stepSize startDate0 c →
          b = endDate ∨ cursor stepSize startDate0 b →
          before c b = true → rank c < rank b) →
  (∀ c c', cursor stepSize startDate0 c →
           advance c stepSize = Return c' → before c c' = true) →
  (∀ c, cursor stepSize startDate0 c → advance c stepSize ≠ Timeout) →
  ∀ fuel monthList startDate,
    cursor stepSize startDate0 startDate →
    rank endDate - rank startDate < Z.of_nat fuel →
    (∃ l,
       createMonthList_loop fuel monthList startDate endDate stepSize
       = Return (monthList ++ l) ∧
       head l = Some (if before startDate endDate then startDate
                      else endDate) ∧
       last l = Some endDate ∧
       increasing l) ∨
    (∃ c e,
       cursor stepSize startDate0 c ∧ before c endDate = true ∧
       advance c stepSize = Raise e ∧
       createMonthList_loop fuel monthList startDate endDate stepSize
       = Raise e).
Proof.
  intros Hrank Hpos Hfin.
  induction fuel as [|fuel IH]; intros monthList startDate Hc Hfuel;
    simpl; destruct (before startDate endDate) eqn:Hlt.
  - pose proof (Hrank startDate endDate Hc (or_introl eq_refl) Hlt). lia.
  - left. exists [endDate]. split_and!; [done..|]. by intros [|?] ??.
  - pose proof (Hrank startDate endDate Hc (or_introl eq_refl) Hlt) as Hle.
    destruct (advance startDate stepSize) as [d'|e|] eqn:Hd'.
    + pose proof (cursor_next _ _ _ _ Hc Hd') as Hc'.
      pose proof (Hrank startDate d' Hc (or_intror Hc')
                    (Hpos _ _ Hc Hd')) as Hup.
      simpl.
      destruct (IH (monthList ++ [startDate]) d' Hc')
        as [(l & -> & Hhd & Hlast & Hinc)|(c & e & Hcc & Hce & He & ->)];
        [lia| |].
      * left. exists (startDate :: l). rewrite <- app_assoc.
        split_and!; [done|done| |].
        -- destruct l; [done|]. by rewrite last_cons, Hlast.
        -- apply increasing_cons; [|done].
           intros b Hb. rewrite Hhd in Hb. injection Hb as <-.
           destruct (before d' endDate); [|done]. by apply Hpos.
      * right. by exists c, e.
    + right. by exists startDate, e.
    + by destruct (Hfin startDate Hc).
  - left. exists [endDate]. split_and!; [done..|]. by intros [|?] ??.
Qed.
End createMonthList.

(** The dates that [dt_add] yields are dates. *)
Lemma dt_add_valid d r d' :
  valid_datetime d = true → normal r → dt_add d r = Return d' →
  valid_datetime d' = true.
Proof.
  unfold valid_datetime, normal, dt_add, assert, MINYEAR, MAXYEAR.
  intros Hd Hr Hadd.
  repeat (case_match; simplify_eq/=);
    repeat match goal with
           | H : _ && _ = true |- _ => apply andb_prop in H as [? ?]
           end;
    repeat (apply andb_true_intro; split);
    unfold monthrange in *; repeat case_match; lia.
Qed.

Lemma dt_add_finishes d r : dt_add d r ≠ Timeout.
Proof.
  unfold dt_add, assert. repeat (case_match; simplify_eq/=); done.
Qed.

Lemma cursor_valid (stepSize : relativedelta) (startDate c : datetime) :
  valid_datetime startDate = true → normal stepSize →
  cursor stepSize startDate c → valid_datetime c = true.
Proof.
  intros Hs Hn. induction 1 as [|c c' _ IH Hadd]; [done|].
  by apply (dt_add_valid c stepSize).
Qed.

Lemma dt_ltb_day_count d1 d2 :
  valid_datetime d1 = true → valid_datetime d2 = true →
  dt_ltb d1 d2 = true → day_count d1 < day_count d2.
Proof.
  unfold valid_datetime, dt_ltb, day_count, month_index, monthrange.
  intros H1 H2 Hlt.
  repeat match goal with
         | H : _ && _ = true |- _ => apply andb_prop in H as [? ?]
         | H : _ || _ = true |- _ => apply orb_prop in H as [?|?]
         end;
    repeat case_match; lia.
Qed.

(** C2, as amended: for every start, end and step with [start < end] and a
    positive step (adding it to a cursor of the loop gives a later date),
    over dates of which there are finitely many between a cursor and the
    end ([rank] counts them), [createMonthList] does one of two things,
    given enough fuel.  Either it returns a list of boundaries whose
    consecutive pairs are contiguous, begin at [startDate], finish at
    [endDate] whether or not it is a multiple of the step away, and each
    have their start before their end.  Or the addition of the step raises
    an exception at a cursor that is still before [endDate] (the sum leaves
    the range of dates), and the call raises that exception instead of
    returning a list. *)
Theorem createMonthList_intervals
    {T D : Type} `{!Before T, !Advance T D, !Inhabited T}
    (rank : T → Z) (startDate endDate : T) (stepSize : D) :
  (∀ c b, cursor stepSize startDate c →
          b = endDate ∨ cursor stepSize startDate b →
          before c b = true → rank c < rank b) →
  (∀ c c', cursor stepSize startDate c →
           advance c stepSize = Return c' → before c c' = true) →
  (∀ c, cursor stepSize startDate c → advance c stepSize ≠ Timeout) →
  before startDate endDate = true →
  ∃ fuel0,
    (∃ monthList,
       (∀ fuel, (fuel0 ≤ fuel)%nat →
          createMonthList fuel startDate endDate stepSize
          = Return monthList) ∧
       contiguous (monthPairs monthList) ∧
       covers startDate endDate (monthPairs monthList) ∧
       proper (monthPairs monthList)) ∨
    (∃ c e,
       cursor stepSize startDate c ∧ before c endDate = true ∧
       advance c stepSize = Raise e ∧
       ∀ fuel, (fuel0 ≤ fuel)%nat →
         createMonthList fuel startDate endDate stepSize = Raise e).
Proof.
  intros Hrank Hpos Hfin Hlt.
  set (fuel0 := Z.to_nat (rank endDate - rank startDate + 1)).
  exists fuel0.
  destruct (createMonthList_loop_outcome rank startDate endDate stepSize
              Hrank Hpos Hfin fuel0 [] startDate (cursor_start _ _)
              ltac:(lia))
    as [(l & Hl & Hhd & Hlast & Hinc)|(c & e & Hc & Hce & He & Hl)].
  - left. rewrite Hlt in Hhd. simpl in Hl. exists l. split_and!.
    + intros fuel Hfuel. by apply (createMonthList_loop_fuel _ _ fuel0).
    + apply monthPairs_contiguous.
    + apply monthPairs_covers; [|done..].
      pose proof (Hrank startDate endDate (cursor_start _ _)
                    (or_introl eq_refl) Hlt) as Hup.
      destruct l as [|a [|b l]]; simpl in *; [done| |lia].
      simplify_eq. lia.
    + by apply monthPairs_proper.
  - right. exists c, e. split_and!; [done..|].
    intros fuel Hfuel.
    by apply (createMonthList_loop_more_fuel _ _ fuel0).
Qed.

Lemma createMonthList_intervals_witness :
  let startDate := dt 2020 1 1 in
  let endDate := dt 2020 3 15 in
  let stepSize := new_relativedelta 0 1 in
  ∃ fuel0,
    (∃ monthList,
       (∀ fuel, (fuel0 ≤ fuel)%nat →
          createMonthList fuel startDate endDate stepSize
          = Return monthList) ∧
       contiguous (monthPairs monthList) ∧
       covers startDate endDate (monthPairs monthList) ∧
       proper (monthPairs monthList)) ∨
    (∃ c e,
       cursor stepSize startDate c ∧ before c endDate = true ∧
       advance c stepSize = Raise e ∧
       ∀ fuel, (fuel0 ≤ fuel)%nat →
         createMonthList fuel startDate endDate stepSize = Raise e).
Proof.
  intros startDate endDate stepSize.
  apply (createMonthList_intervals day_count startDate endDate stepSize).
  - intros c b Hc Hb Hlt. apply dt_ltb_day_count; [| |done].
    + by apply (cursor_valid stepSize startDate).
    + destruct Hb as [->|Hb]; [done|].
      by apply (cursor_valid stepSize startDate).
  - intros c c' Hc Hadd.
    apply (dt_add_increases c stepSize); [| |done|done].
    + by apply valid_datetime_month, (cursor_valid stepSize startDate).
    + apply new_relativedelta_normal.
  - intros c _. apply dt_add_finishes.
  - reflexivity.
Defined.

(** The example of the specification: a window that is not a whole number
    of months ends in a shorter interval. *)
Example createMonthList_example :
  monthPairs <$> createMonthList 3 (dt 2020 1 1) (dt 2020 3 15)
                   (new_relativedelta 0 1)
  = Return [(dt 2020 1 1, dt 2020 2 1); (dt 2020 2 1, dt 2020 3 1);
            (dt 2020 3 1, dt 2020 3 15)].
Proof. reflexivity. Qed.

(** C2 as stated fails where the cursor leaves the range of [datetime]:
    from 9999-12-15 to 9999-12-31 by one month, the dates are valid and
    ordered and the step is positive, yet adding the step raises
    [ValueError] and no list of intervals is produced, whatever the fuel. *)
Lemma createMonthList_overflow :
  let startDate := dt 9999 12 15 in
  let endDate := dt 9999 12 31 in
  let stepSize := new_relativedelta 0 1 in
  valid_datetime startDate = true ∧ valid_datetime endDate = true ∧
  dt_ltb startDate endDate = true ∧ 0 < total_months stepSize ∧
  (∀ fuel, createMonthList (S fuel) startDate endDate stepSize
           = Raise ValueError) ∧
  (∀ fuel monthList,
     createMonthList fuel startDate endDate stepSize ≠ Return monthList).
Proof.
  split_and!; try reflexivity.
  intros [|fuel] monthList; discriminate.
Qed.

(** C6, as amended: when [startDate >= endDate], [createMonthList] does not
    fail; it returns the single boundary [endDate], whatever the fuel and
    the step, and the list of intervals built from it is empty. *)
Theorem createMonthList_empty_range fuel startDate endDate stepSize :
  dt_ltb startDate endDate = false →
  createMonthList fuel startDate endDate stepSize = Return [endDate] ∧
  monthPairs [endDate] = [].
Proof.
  intros Hge. split; [|done].
  unfold createMonthList. rewrite createMonthList_loop_dt. by rewrite Hge.
Qed.

Lemma createMonthList_empty_range_witness :
  createMonthList 0 (dt 2021 6 1) (dt 2021 6 1) (new_relativedelta 0 1)
  = Return [dt 2021 6 1] ∧
  monthPairs [dt 2021 6 1] = [].
Proof.
  apply (createMonthList_empty_range 0 (dt 2021 6 1) (dt 2021 6 1)).
  reflexivity.
Defined.

(** C6 as stated fails: with the global window reversed, so that the start
    lies after the end, no exception is raised and the (empty) sequence of
    intervals is returned. *)
Lemma createMonthList_reversed_window :
  dt_ltb GLOBAL_END_DATE GLOBAL_START_DATE = false ∧
  ∀ fuel,
    createMonthList fuel GLOBAL_END_DATE GLOBAL_START_DATE
      (new_relativedelta 0 1) = Return [GLOBAL_START_DATE] ∧
    (monthPairs <$> createMonthList fuel GLOBAL_END_DATE GLOBAL_START_DATE
                      (new_relativedelta 0 1)) = Return [] ∧
    ∀ e, createMonthList fuel GLOBAL_END_DATE GLOBAL_START_DATE
           (new_relativedelta 0 1) ≠ Raise e.
Proof.
  split; [reflexivity|]. intros [|fuel]; split_and!; try reflexivity; discriminate.
Qed.

(** ** [np.array_split] *)

Lemma section_sizes_length Ntotal Nsections :
  (0 < Nsections)%nat → length (section_sizes Ntotal Nsections) = Nsections.
Proof.
  intros Hpos. unfold section_sizes.
  pose proof (Nat.mod_upper_bound Ntotal Nsections ltac:(lia)).
  rewrite length_app, !length_replicate. lia.
Qed.

Section chop.
Context {A : Type}.
Implicit Types (ary : list A) (sizes : list nat).

Lemma chop_length sizes ary : length (chop sizes ary) = length sizes.
Proof. revert ary. induction sizes; intros; simpl; auto. Qed.

Lemma chop_concat sizes ary :
  concat (chop sizes ary) = take (sum_list sizes) ary.
Proof.
  revert ary. induction sizes as [|n sizes IH]; intros ary; simpl.
  - by rewrite take_0.
  - by rewrite IH, take_take_drop.
Qed.

Lemma chop_lengths sizes ary :
  (sum_list sizes ≤ length ary)%nat → length <$> chop sizes ary = sizes.
Proof.
  revert ary. induction sizes as [|n sizes IH]; intros ary Hsum; simpl in *.
  - done.
  - rewrite length_take_le by lia. f_equal. apply IH.
    rewrite length_drop. lia.
Qed.

(** The slices between consecutive division points are the pieces. *)
Lemma slices_chop ary sizes (a : nat) :
  (λ i, slice ary ((a :: cumsum_from a sizes) !!! i)
                  ((a :: cumsum_from a sizes) !!! S i))
    <$> seq 0 (length sizes)
  = chop sizes (drop a ary).
Proof.
  revert a. induction sizes as [|n sizes IH]; intros a; [done|].
  cbn [length seq fmap list_fmap chop]. f_equal.
  - unfold slice. simpl. f_equal. lia.
  - rewrite <- fmap_S_seq, <- list_fmap_compose, drop_drop.
    rewrite <- IH. apply list_fmap_ext. intros i x _. done.
Qed.

Lemma array_split_chop ary (Nsections : nat) :
  (0 < Nsections)%nat →
  array_split ary Nsections
  = Return (chop (section_sizes (length ary) Nsections) ary).
Proof.
  intros Hpos. unfold array_split.
  rewrite bool_decide_eq_false_2 by lia. f_equal.
  rewrite <- (slices_chop ary (section_sizes _ _) 0 : _ = chop _ ary).
  rewrite section_sizes_length by done. done.
Qed.
End chop.

Lemma section_sizes_sum Ntotal Nsections :
  (0 < Nsections)%nat → sum_list (section_sizes Ntotal Nsections) = Ntotal.
Proof.
  intros Hpos. unfold section_sizes.
  pose proof (Nat.mod_upper_bound Ntotal Nsections ltac:(lia)).
  pose proof (Nat.div_mod_eq Ntotal Nsections).
  rewrite sum_list_with_app, !sum_list_replicate. nia.
Qed.

Lemma section_sizes_lookup Ntotal Nsections i n :
  section_sizes Ntotal Nsections !! i = Some n →
  n = (Ntotal / Nsections +
       (if bool_decide (i < Ntotal `mod` Nsections)%nat then 1 else 0))%nat.
Proof.
  unfold section_sizes. intros Hi.
  apply lookup_app_Some in Hi as [Hi|[Hge Hi]];
    apply lookup_replicate in Hi as [-> Hlt].
  - rewrite bool_decide_eq_true_2 by done. done.
  - rewrite length_replicate in Hge.
    rewrite bool_decide_eq_false_2 by lia. lia.
Qed.

(** ** The partition of the intervals into jobs *)

Lemma build_jobs_Return intervals directories :
  directories ≠ [] →
  build_jobs intervals directories
  = Return (zip_with
              (λ i dateRanges,
                 {| Job.id := i; Job.dateRanges := dateRanges;
                    Job.directory := directories !!! i |})
              (seq 0 (length directories))
              (chop (section_sizes (length intervals) (length directories))
                    intervals)).
Proof.
  intros Hne. unfold build_jobs.
  rewrite array_split_chop; [done|]. destruct directories; simpl; [done|lia].
Qed.

(** C4: for every interval sequence and non-empty list of directories, the
    partitioner returns one job per directory, in order, numbered from 0;
    the jobs' interval lists, joined in job order, are exactly the input
    sequence, so that every interval is in exactly one job and the order is
    kept; the sizes add up to the input length; job [i] receives
    [len / n] intervals, and one more when [i < len mod n]; and with fewer
    intervals than directories some job receives none. *)
Theorem build_jobs_partition (intervals : list (datetime * datetime))
    (directories : list string) :
  directories ≠ [] →
  ∃ jobs,
    build_jobs intervals directories = Return jobs ∧
    length jobs = length directories ∧
    (∀ i job, jobs !! i = Some job →
       Job.id job = i ∧ directories !! i = Some (Job.directory job)) ∧
    concat (Job.dateRanges <$> jobs) = intervals ∧
    sum_list (length <$> (Job.dateRanges <$> jobs)) = length intervals ∧
    (∀ i job, jobs !! i = Some job →
       length (Job.dateRanges job)
       = (length intervals / length directories +
          (if bool_decide
                (i < length intervals `mod` length directories)%nat
           then 1 else 0))%nat) ∧
    ((length intervals < length directories)%nat →
       ∃ job, job ∈ jobs ∧ Job.dateRanges job = []).
Proof.
  intros Hne.
  assert (0 < length directories)%nat as Hpos
    by (destruct directories; simpl; [done|lia]).
  set (n := length directories) in *.
  set (sizes := section_sizes (length intervals) n).
  set (chunks := chop sizes intervals).
  pose proof (section_sizes_length (length intervals) n Hpos) as Hsl.
  pose proof (section_sizes_sum (length intervals) n Hpos) as Hss.
  assert (length chunks = n) as Hcl
    by (unfold chunks; by rewrite chop_length).
  assert (length <$> chunks = sizes) as Hlens
    by (apply chop_lengths; unfold sizes; lia).
  eexists. split; [by apply build_jobs_Return|].
  fold n sizes chunks.
  set (jobs := zip_with _ _ _).
  assert (Job.dateRanges <$> jobs = chunks) as Hdr.
  { apply fmap_zip_with_r; [done|]. rewrite length_seq. lia. }
  assert (length jobs = n) as Hjl.
  { unfold jobs. rewrite length_zip_with_l_eq; rewrite length_seq; done. }
  assert (∀ i job, jobs !! i = Some job →
            length (Job.dateRanges job)
            = (length intervals / n +
               (if bool_decide (i < length intervals `mod` n)%nat
                then 1 else 0))%nat) as Hsizes.
  { intros i job Hjob.
    apply (section_sizes_lookup (length intervals) n i). fold sizes.
    rewrite <- Hlens, <- Hdr, !list_lookup_fmap, Hjob. done. }
  split_and!.
  - done.
  - intros i job (j & c & -> & [-> Hi]%lookup_seq & Hc)%lookup_zip_with_Some.
    simpl. split; [done|]. by apply list_lookup_lookup_total_lt.
  - rewrite Hdr. unfold chunks. rewrite chop_concat.
    apply take_ge. unfold sizes. lia.
  - rewrite Hdr, Hlens. done.
  - done.
  - intros Hfew.
    destruct (lookup_lt_is_Some_2 jobs (n - 1)) as [job Hjob]; [lia|].
    exists job. split; [by eapply list_elem_of_lookup_2|].
    apply length_zero_iff_nil. rewrite (Hsizes _ _ Hjob).
    rewrite Nat.div_small, Nat.mod_small by done.
    rewrite bool_decide_eq_false_2 by lia. done.
Qed.

Lemma build_jobs_partition_witness :
  ∃ jobs,
    build_jobs [(dt 2020 1 1, dt 2020 2 1); (dt 2020 2 1, dt 2020 3 1)]
               ["a"; "b"; "c"] = Return jobs ∧
    length jobs = 3%nat ∧
    (∀ i job, jobs !! i = Some job →
       Job.id job = i ∧ ["a"; "b"; "c"] !! i = Some (Job.directory job)) ∧
    concat (Job.dateRanges <$> jobs)
      = [(dt 2020 1 1, dt 2020 2 1); (dt 2020 2 1, dt 2020 3 1)] ∧
    sum_list (length <$> (Job.dateRanges <$> jobs)) = 2%nat ∧
    (∀ i job, jobs !! i = Some job →
       length (Job.dateRanges job)
       = (2 / 3 + (if bool_decide (i < 2 `mod` 3)%nat then 1 else 0))%nat) ∧
    ((2 < 3)%nat → ∃ job, job ∈ jobs ∧ Job.dateRanges job = []).
Proof.
  apply (build_jobs_partition
           [(dt 2020 1 1, dt 2020 2 1); (dt 2020 2 1, dt 2020 3 1)]
           ["a"; "b"; "c"]).
  discriminate.
Defined.

(** ** [createJobsByTimeDelta] *)

Lemma array_split_length {A} (ary : list A) Nsections chunks :
  array_split ary Nsections = Return chunks → length chunks = Nsections.
Proof.
  unfold array_split. case_bool_decide; [done|].
  intros [= <-]. by rewrite length_fmap, length_seq.
Qed.

Lemma build_jobs_date_assignment intervals directories :
  date_assignment (build_jobs intervals directories)
  = array_split intervals (length directories).
Proof.
  unfold date_assignment, build_jobs.
  destruct (array_split intervals (length directories)) as [chunks| |] eqn:Hsplit;
    simpl; [|done..].
  f_equal. apply fmap_zip_with_r; [done|].
  rewrite length_seq. by rewrite (array_split_length _ _ _ Hsplit).
Qed.

Lemma createJobsByTimeDelta_exists fuel repoPath timeDelta directories fs :
  path_exists repoPath fs = true →
  createJobsByTimeDelta fuel repoPath timeDelta directories fs
  = (fs, monthList ← createMonthList fuel GLOBAL_START_DATE GLOBAL_END_DATE
                        timeDelta;
         build_jobs (monthPairs monthList) directories).
Proof.
  intros Hex. unfold createJobsByTimeDelta, lift, assert, mbind, M_bind.
  rewrite Hex.
  by destruct (createMonthList _ _ _ _) as [monthList| |].
Qed.

(** C10: the date ranges [createJobsByTimeDelta] assigns are those computed
    from [GLOBAL_START_DATE], [GLOBAL_END_DATE], the step and the number of
    directories; two calls on existing repository paths with the same step
    and as many directories assign the same date ranges, and none of them
    changes the file system. *)
Theorem createJobsByTimeDelta_global_window fuel timeDelta
    repoPath1 repoPath2 directories1 directories2 fs1 fs2 :
  path_exists repoPath1 fs1 = true → path_exists repoPath2 fs2 = true →
  length directories1 = length directories2 →
  let run1 := createJobsByTimeDelta fuel repoPath1 timeDelta directories1 fs1 in
  let run2 := createJobsByTimeDelta fuel repoPath2 timeDelta directories2 fs2 in
  date_assignment run1.2
    = global_date_ranges fuel timeDelta (length directories1) ∧
  date_assignment run2.2 = date_assignment run1.2 ∧
  run1.1 = fs1 ∧ run2.1 = fs2.
Proof.
  intros Hex1 Hex2 Hlen. simpl.
  rewrite !createJobsByTimeDelta_exists by done. simpl.
  assert (∀ directories,
            date_assignment
              (monthList ← createMonthList fuel GLOBAL_START_DATE
                             GLOBAL_END_DATE timeDelta;
               build_jobs (monthPairs monthList) directories)
            = global_date_ranges fuel timeDelta (length directories)) as Hda.
  { intros directories. unfold global_date_ranges.
    destruct (createMonthList _ _ _ _) as [monthList| |]; simpl; [|done..].
    apply build_jobs_date_assignment. }
  split_and!; [apply Hda | by rewrite !Hda, Hlen | done | done].
Qed.

Lemma createJobsByTimeDelta_global_window_witness :
  let fs : filesystem := {["repos/all/a" := Dir; "repos/all/b" := Dir]} in
  let timeDelta := new_relativedelta 0 1 in
  let run1 := createJobsByTimeDelta 70 "repos/all/a" timeDelta
                ["a0"; "a1"; "a2"] fs in
  let run2 := createJobsByTimeDelta 70 "repos/all/b" timeDelta
                ["b0"; "b1"; "b2"] fs in
  date_assignment run1.2 = global_date_ranges 70 timeDelta 3 ∧
  date_assignment run2.2 = date_assignment run1.2 ∧
  run1.1 = fs ∧ run2.1 = fs.
Proof.
  apply (createJobsByTimeDelta_global_window 70 (new_relativedelta 0 1)
           "repos/all/a" "repos/all/b" ["a0"; "a1"; "a2"] ["b0"; "b1"; "b2"]
           {["repos/all/a" := Dir; "repos/all/b" := Dir]}
           {["repos/all/a" := Dir; "repos/all/b" := Dir]});
    vm_compute; reflexivity.
Defined.

(** With the step of the script, one month, the window has 64 intervals. *)
Example global_date_ranges_months :
  (λ chunks : list (list (datetime * datetime)), length <$> chunks) <$>
    global_date_ranges 64 (new_relativedelta 0 1) 7
  = Return [10; 9; 9; 9; 9; 9; 9]%nat.
Proof. vm_compute. reflexivity. Qed.

(** ** Paths *)

Lemma append_cons c s t : String c s +:+ t = String c (s +:+ t).
Proof. done. Qed.

Lemma append_nonempty x s : s ≠ EmptyString → x +:+ s ≠ EmptyString.
Proof. intros Hs. by destruct x. Qed.

Lemma length_append s t :
  String.length (s +:+ t) = (String.length s + String.length t)%nat.
Proof.
  induction s as [|c s IH]; [done|]. rewrite append_cons. simpl.
  by rewrite IH.
Qed.

Lemma append_assoc s t u : (s +:+ t) +:+ u = s +:+ t +:+ u.
Proof.
  induction s as [|c s IH]; [done|]. by rewrite !append_cons, IH.
Qed.

Lemma append_inj_r s1 s2 t : s1 +:+ t = s2 +:+ t → s1 = s2.
Proof.
  intros Heq.
  assert (String.length s1 = String.length s2) as Hlen.
  { apply (f_equal String.length) in Heq.
    rewrite !length_append in Heq. lia. }
  revert s2 Heq Hlen.
  induction s1 as [|c s1 IH]; intros [|c2 s2] Heq Hlen; simpl in *;
    try done.
  rewrite !append_cons in Heq.
  injection Heq as -> Heq. f_equal. apply IH; [done|lia].
Qed.

Lemma endswith_sep_app x s :
  s ≠ EmptyString → endswith_sep (x +:+ s) = endswith_sep s.
Proof.
  intros Hs. induction x as [|c x IH]; [done|].
  simpl. rewrite IH. destruct (x +:+ s) eqn:Hx; [|done].
  destruct x; simpl in Hx; [done|discriminate].
Qed.

Lemma has_sep_app x s : has_sep (x +:+ s) = has_sep x || has_sep s.
Proof.
  induction x as [|c x IH]; [done|].
  rewrite append_cons. simpl. rewrite IH. by rewrite orb_assoc.
Qed.

Lemma endswith_sep_has_sep s : has_sep s = false → endswith_sep s = false.
Proof.
  induction s as [|c s IH]; [done|]. simpl.
  intros [Hc Hs]%orb_false_elim. destruct s; [done|]. by apply IH.
Qed.

Lemma rstrip_sep_id s : endswith_sep s = false → rstrip_sep s = s.
Proof.
  induction s as [|c s IH]; [done|]. simpl.
  destruct s as [|c' s].
  - simpl. by intros ->.
  - intros Hs. rewrite IH by done. done.
Qed.

Lemma rsplit_sep_no_sep s : has_sep s = false → rsplit_sep s = (EmptyString, s).
Proof.
  induction s as [|c s IH]; [done|]. simpl.
  intros [Hc Hs]%orb_false_elim. rewrite IH by done. simpl. by rewrite Hc.
Qed.

Lemma rsplit_sep_app x s :
  has_sep s = false →
  rsplit_sep (x +:+ s) = ((rsplit_sep x).1, (rsplit_sep x).2 +:+ s).
Proof.
  intros Hs. induction x as [|c x IH].
  - by rewrite rsplit_sep_no_sep.
  - rewrite append_cons. simpl. rewrite IH.
    destruct (rsplit_sep x) as [head tail]. simpl.
    by repeat case_match.
Qed.

Lemma dirname_app x s : has_sep s = false → dirname (x +:+ s) = dirname x.
Proof.
  intros Hs. unfold dirname, path_split. rewrite rsplit_sep_app by done.
  by destruct (rsplit_sep x).
Qed.

Lemma pretty_N_go_has_sep x :
  ∀ s, has_sep s = false → has_sep (pretty_N_go x s) = false.
Proof.
  induction (N.lt_wf_0 x) as [x _ IH]; intros s Hs.
  assert (x = 0 ∨ 0 < x)%N as [->|Hx] by lia.
  - by rewrite pretty_N_go_0.
  - rewrite pretty_N_go_step by done. apply IH.
    + by apply N.div_lt.
    + simpl. rewrite Hs. unfold pretty_N_char. by repeat case_match.
Qed.

Lemma pretty_N_has_sep (x : N) : has_sep (pretty x) = false.
Proof.
  unfold pretty, pretty_N. case_decide; [done|].
  by apply pretty_N_go_has_sep.
Qed.

Lemma pretty_Z_has_sep (i : Z) : has_sep (pretty i) = false.
Proof.
  destruct i as [|p|p]; [done| |].
  - apply (pretty_N_has_sep (N.pos p)).
  - unfold pretty, pretty_Z. rewrite append_cons. simpl.
    apply (pretty_N_has_sep (N.pos p)).
Qed.

Lemma pretty_N_nonempty (x : N) : pretty x ≠ EmptyString.
Proof.
  unfold pretty, pretty_N. case_decide; [done|].
  rewrite pretty_N_go_step by lia.
  generalize (x `div` 10)%N. intros y.
  assert (∀ s, s ≠ EmptyString → pretty_N_go y s ≠ EmptyString) as Hgo;
    [|by apply Hgo].
  induction (N.lt_wf_0 y) as [y _ IH]; intros s Hs.
  assert (y = 0 ∨ 0 < y)%N as [->|Hy] by lia.
  - by rewrite pretty_N_go_0.
  - rewrite pretty_N_go_step by done. apply IH; [by apply N.div_lt|done].
Qed.

(** The versioned paths of a base: what [os.mkdir] looks at. *)
Lemma versioned_has_suffix base_dir N :
  ∃ suffix, versioned base_dir N = base_dir +:+ suffix ∧
            suffix ≠ EmptyString ∧ has_sep suffix = false.
Proof.
  exists ("_v" +:+ pretty N). split_and!; [done|done|].
  rewrite has_sep_app, pretty_N_has_sep. done.
Qed.

Lemma mkdir_versioned base_dir N fs :
  versioned base_dir N ∉ dom fs →
  mkdir (versioned base_dir N) fs
  = match lookup_dir (dirname base_dir) fs with
    | Return _ => (<[versioned base_dir N := Dir]> fs, Return tt)
    | Raise e => (fs, Raise e)
    | Timeout => (fs, Timeout)
    end.
Proof.
  intros Hnew.
  destruct (versioned_has_suffix base_dir N) as (suffix & Heq & Hne & Hsep).
  rewrite Heq in *. clear Heq.
  assert (base_dir +:+ suffix ≠ EmptyString) as Hp
    by (by apply append_nonempty).
  assert (endswith_sep (base_dir +:+ suffix) = false) as Hend.
  { rewrite endswith_sep_app by done. by apply endswith_sep_has_sep. }
  unfold mkdir, path_exists, parent_dir.
  rewrite (proj2 (String.eqb_neq _ _) Hp).
  rewrite bool_decide_eq_false_2
    by (intros Hin; by apply Hnew, elem_of_dom).
  rewrite rstrip_sep_id by done.
  rewrite (proj2 (String.eqb_neq _ _) Hp). simpl.
  by rewrite dirname_app.
Qed.

(** ** [get_new_temp_dir] *)

#[global] Instance versioned_inj base_dir : Inj (=) (=) (versioned base_dir).
Proof.
  intros v1 v2 Heq. unfold versioned in Heq.
  apply (inj (String.app base_dir)) in Heq.
  apply (inj (String.app "_v")) in Heq.
  by apply (inj pretty) in Heq.
Qed.

Lemma path_exists_dom p (fs : filesystem) :
  path_exists p fs = true ↔ p ∈ dom fs.
Proof.
  unfold path_exists. rewrite bool_decide_eq_true. symmetry.
  apply elem_of_dom.
Qed.

(** What the scan returns or, when the fuel runs out, what it has seen. *)
Lemma get_new_temp_dir_loop_spec fs base_dir fuel :
  ∀ version,
    match get_new_temp_dir_loop fuel fs base_dir version with
    | Return n =>
        (version ≤ n)%N ∧ (versioned base_dir n ∉ dom fs) ∧
        ∀ k, (version ≤ k < n)%N → versioned base_dir k ∈ dom fs
    | Raise _ => False
    | Timeout =>
        ∀ k, (version ≤ k ≤ version + N.of_nat fuel)%N →
             versioned base_dir k ∈ dom fs
    end.
Proof.
  induction fuel as [|fuel IH]; intros version; simpl;
    destruct (path_exists (versioned base_dir version) fs) eqn:Hex.
  - apply path_exists_dom in Hex.
    intros k Hk. by replace k with version by lia.
  - split_and!; [lia| |lia]. intros Hin%path_exists_dom. congruence.
  - apply path_exists_dom in Hex. specialize (IH (version + 1)%N).
    destruct (get_new_temp_dir_loop fuel fs base_dir (version + 1)) as [n| |].
    + destruct IH as (Hle & Hn & Hbelow). split_and!; [lia|done|].
      intros k Hk. destruct (decide (k = version)) as [->|]; [done|].
      apply Hbelow. lia.
    + done.
    + intros k Hk. destruct (decide (k = version)) as [->|]; [done|].
      apply IH. lia.
  - split_and!; [lia| |lia]. intros Hin%path_exists_dom. congruence.
Qed.

(** The scan cannot run out of fuel once the fuel reaches the number of
    existing paths: it would have seen more distinct paths than there are. *)
Lemma get_new_temp_dir_loop_fuel (fs : filesystem) base_dir fuel version :
  (size fs ≤ fuel)%nat →
  get_new_temp_dir_loop fuel fs base_dir version ≠ Timeout.
Proof.
  intros Hfuel Hout.
  pose proof (get_new_temp_dir_loop_spec fs base_dir fuel version) as Hspec.
  rewrite Hout in Hspec.
  set (seen := (λ i, versioned base_dir (version + N.of_nat i)%N)
                 <$> seq 0 (S fuel)).
  assert (NoDup seen) as Hnd.
  { apply NoDup_fmap_2_strong; [|apply NoDup_seq].
    intros i j _ _ Hij. apply (inj (versioned base_dir)) in Hij. lia. }
  assert (list_to_set seen ⊆ dom fs) as Hsub.
  { intros p [i [-> [_ Hi]%elem_of_seq]]%elem_of_list_to_set%list_elem_of_fmap.
    apply Hspec. lia. }
  apply subseteq_size in Hsub.
  rewrite size_list_to_set, size_dom in Hsub by done.
  unfold seen in Hsub. rewrite length_fmap, length_seq in Hsub. lia.
Qed.

(** The scan stops at the first free version, and [os.mkdir] makes the
    directory there if the directory part of the base is there. *)
Lemma get_new_temp_dir_spec (fs : filesystem) (base_dir : string)
    (fuel : nat) :
  (size fs ≤ fuel)%nat →
  ∃ N,
    (versioned base_dir N ∉ dom fs) ∧
    (∀ k, (k < N)%N → versioned base_dir k ∈ dom fs) ∧
    get_new_temp_dir fuel base_dir fs
    = match lookup_dir (dirname base_dir) fs with
      | Return _ => (<[versioned base_dir N := Dir]> fs,
                     Return (versioned base_dir N))
      | Raise e => (fs, Raise e)
      | Timeout => (fs, Timeout)
      end.
Proof.
  intros Hfuel.
  pose proof (get_new_temp_dir_loop_spec fs base_dir fuel 0) as Hspec.
  pose proof (get_new_temp_dir_loop_fuel fs base_dir fuel 0 Hfuel) as Hout.
  unfold get_new_temp_dir, lift. unfold mbind at 1, M_bind at 1.
  destruct (get_new_temp_dir_loop _ fs base_dir 0) as [N| |]; [|done..].
  destruct Hspec as (_ & Hfree & Hbelow).
  exists N. split_and!; [done| |].
  - intros k Hk. apply Hbelow. lia.
  - unfold mbind, M_bind. rewrite mkdir_versioned by done.
    by destruct (lookup_dir (dirname base_dir) fs).
Qed.

Lemma lookup_dir_outcome d fs :
  lookup_dir d fs = Return tt ∨
  lookup_dir d fs = Raise FileNotFoundError ∨
  lookup_dir d fs = Raise NotADirectoryError.
Proof.
  unfold lookup_dir. repeat case_match; auto.
Qed.

(** C8, as amended: for every base path whose directory part is there (the
    base has none, or it is an existing directory) and every file system,
    with fuel for as many steps as there are paths, [get_new_temp_dir]
    returns [base_dir_vN] for the smallest [N >= 0] whose path does not
    exist, and creates that path as a directory; the path returned did not
    exist before, and every entry that existed is still there, unchanged.
    When the directory part of the base is not there, the scan stops at the
    same [N], but then [os.mkdir] raises [FileNotFoundError] (or
    [NotADirectoryError], when a regular file is in its place): nothing is
    returned and nothing is created. *)
Theorem get_new_temp_dir_first_free (fs : filesystem) (base_dir : string)
    (extra : nat) :
  ∃ N,
    (versioned base_dir N ∉ dom fs) ∧
    (∀ k, (k < N)%N → versioned base_dir k ∈ dom fs) ∧
    (lookup_dir (dirname base_dir) fs = Return tt →
     get_new_temp_dir (size fs + extra) base_dir fs
     = (<[versioned base_dir N := Dir]> fs, Return (versioned base_dir N)) ∧
     fs ⊆ <[versioned base_dir N := Dir]> fs) ∧
    (lookup_dir (dirname base_dir) fs ≠ Return tt →
     ∃ e, (e = FileNotFoundError ∨ e = NotADirectoryError) ∧
          get_new_temp_dir (size fs + extra) base_dir fs = (fs, Raise e)).
Proof.
  destruct (get_new_temp_dir_spec fs base_dir (size fs + extra))
    as (N & Hfree & Hbelow & Hrun); [lia|].
  exists N. split_and!; [done..| |].
  - intros Hdir. rewrite Hrun, Hdir. split; [done|].
    apply insert_subseteq. by apply not_elem_of_dom.
  - intros Hdir. rewrite Hrun.
    destruct (lookup_dir_outcome (dirname base_dir) fs) as [H|[->| ->]];
      [done|by exists FileNotFoundError; auto
           |by exists NotADirectoryError; auto].
Qed.

Lemma get_new_temp_dir_first_free_witness :
  let fs : filesystem :=
    {["tmp" := Dir; "tmp/run_v0" := Dir; "tmp/run_v1" := Dir;
      "tmp/run_v3" := Dir]} in
  ∃ N,
    (versioned "tmp/run" N ∉ dom fs) ∧
    (∀ k, (k < N)%N → versioned "tmp/run" k ∈ dom fs) ∧
    (lookup_dir (dirname "tmp/run") fs = Return tt →
     get_new_temp_dir (size fs + 0) "tmp/run" fs
     = (<[versioned "tmp/run" N := Dir]> fs, Return (versioned "tmp/run" N)) ∧
     fs ⊆ <[versioned "tmp/run" N := Dir]> fs) ∧
    (lookup_dir (dirname "tmp/run") fs ≠ Return tt →
     ∃ e, (e = FileNotFoundError ∨ e = NotADirectoryError) ∧
          get_new_temp_dir (size fs + 0) "tmp/run" fs = (fs, Raise e)).
Proof.
  intros fs. apply (get_new_temp_dir_first_free fs "tmp/run" 0).
Defined.

Example get_new_temp_dir_example :
  get_new_temp_dir 2 "tmp/run"
    {["tmp" := Dir; "tmp/run_v0" := Dir; "tmp/run_v1" := Dir;
      "tmp/run_v3" := Dir]}
  = (<["tmp/run_v2" := Dir]>
       {["tmp" := Dir; "tmp/run_v0" := Dir; "tmp/run_v1" := Dir;
         "tmp/run_v3" := Dir]},
     Return "tmp/run_v2").
Proof. vm_compute. reflexivity. Qed.

(** C8 as stated fails for a base whose directory is not there: with
    nothing under [missing_parent], the scan settles on version 0, and
    [os.mkdir] raises [FileNotFoundError]; no path is returned and the file
    system is as it was.  With a regular file in the place of the directory
    the exception is [NotADirectoryError]. *)
Lemma get_new_temp_dir_missing_parent :
  let run fs := get_new_temp_dir (size fs) "missing_parent/base" fs in
  run ∅ = (∅, Raise FileNotFoundError) ∧
  run {["tmp" := Dir]} = ({["tmp" := Dir]}, Raise FileNotFoundError) ∧
  run {["missing_parent" := File]}
    = ({["missing_parent" := File]}, Raise NotADirectoryError) ∧
  ∀ p, run ∅ ≠ (<[p := Dir]> ∅, Return p).
Proof. vm_compute. split_and!; done. Qed.

(** ** The worker *)

Section worker_properties.
Variable traverse_commits :
  string → datetime → datetime → outcome (list Commit.t).

Lemma accumulate_commits id repoPath startDate endDate commits :
  ∀ ins dels ch,
    foldl (λ temp commit,
             Item.mk (Item.id temp) (Item.repoPath temp)
               (Item.startDate temp) (Item.endDate temp)
               (Item.insertions temp + Commit.insertions commit)
               (Item.deletions temp + Commit.deletions commit)
               (Item.churn temp))
          (Item.mk id repoPath startDate endDate ins dels ch) commits
    = Item.mk id repoPath startDate endDate
        (ins + sumZ (Commit.insertions <$> commits))
        (dels + sumZ (Commit.deletions <$> commits)) ch.
Proof.
  unfold sumZ.
  induction commits as [|c commits IH]; intros ins dels ch; csimpl.
  - f_equal; lia.
  - rewrite IH. f_equal; lia.
Qed.

Lemma codeChurnInterval_Return id repoPath dateRange commits :
  traverse_commits repoPath dateRange.1 dateRange.2 = Return commits →
  ∃ item,
    codeChurnInterval traverse_commits id repoPath dateRange = Return item ∧
    interval_result traverse_commits id repoPath dateRange item.
Proof.
  destruct dateRange as [startDate endDate]. simpl. intros Hread.
  eexists. split.
  - unfold codeChurnInterval. rewrite Hread. simpl.
    rewrite accumulate_commits. simpl. done.
  - exists commits. done.
Qed.

Lemma codeChurnInterval_Raise id repoPath dateRange e :
  traverse_commits repoPath dateRange.1 dateRange.2 = Raise e →
  codeChurnInterval traverse_commits id repoPath dateRange = Raise e.
Proof.
  destruct dateRange as [startDate endDate]. simpl. intros Hread.
  unfold codeChurnInterval. by rewrite Hread.
Qed.

Lemma codeChurnJob_loop_Return id repoPath dateRanges :
  Forall (λ r, returns (traverse_commits repoPath r.1 r.2) = true)
         dateRanges →
  ∀ finishedJobs,
    ∃ items,
      codeChurnJob_loop traverse_commits id repoPath dateRanges finishedJobs
      = Return (finishedJobs ++ items) ∧
      Forall2 (interval_result traverse_commits id repoPath)
              dateRanges items.
Proof.
  induction 1 as [|dateRange dateRanges Hread _ IH]; intros finishedJobs.
  - exists []. simpl. by rewrite app_nil_r.
  - destruct (traverse_commits repoPath dateRange.1 dateRange.2)
      as [commits| |] eqn:Hcommits; [|done..].
    destruct (codeChurnInterval_Return id repoPath dateRange commits Hcommits)
      as (item & Hitem & Hres).
    destruct (IH (finishedJobs ++ [item])) as (items & Hitems & Hall).
    exists (item :: items). simpl. rewrite Hitem. simpl.
    rewrite Hitems, <- app_assoc. split; [done|]. by constructor.
Qed.
End worker_properties.

(** C5: for every job whose windows the history reader can read, the worker
    returns its id, its directory and one result per interval, in the order
    of the job's intervals; each result carries its interval and the sums of
    insertions and deletions over the commits of that interval alone; churn
    is insertions plus deletions in every result; and an interval without
    commits gives the result with all three counts 0. *)
Theorem codeChurnJob_results
    (traverse_commits : string → datetime → datetime → outcome (list Commit.t))
    (job : Job.t) :
  Forall (λ r, returns (traverse_commits (Job.directory job) r.1 r.2) = true)
         (Job.dateRanges job) →
  ∃ finishedJobs,
    codeChurnJob traverse_commits job
    = Return (Job.id job, Job.directory job, finishedJobs) ∧
    Forall2 (interval_result traverse_commits (Job.id job) (Job.directory job))
            (Job.dateRanges job) finishedJobs ∧
    Forall (λ item,
              Item.churn item = Item.insertions item + Item.deletions item)
           finishedJobs ∧
    (∀ i dateRange item,
       Job.dateRanges job !! i = Some dateRange →
       finishedJobs !! i = Some item →
       traverse_commits (Job.directory job) dateRange.1 dateRange.2
       = Return [] →
       item = Item.mk (Job.id job) (Job.directory job)
                dateRange.1 dateRange.2 0 0 0).
Proof.
  intros Hreads.
  destruct (codeChurnJob_loop_Return traverse_commits (Job.id job)
              (Job.directory job) (Job.dateRanges job) Hreads [])
    as (items & Hitems & Hall).
  exists items. split_and!.
  - unfold codeChurnJob. by rewrite Hitems.
  - done.
  - eapply Forall2_Forall_r; [exact Hall|].
    apply Forall_forall. intros dateRange _ item (commits & _ & ->). done.
  - intros i dateRange item Hrange Hitem Hnone.
    destruct (Forall2_lookup_lr _ _ _ _ _ _ Hall Hrange Hitem)
      as (commits & Hcommits & ->).
    rewrite Hnone in Hcommits. by injection Hcommits as <-.
Qed.

Lemma codeChurnJob_results_witness :
  let traverse_commits (repoPath : string) (since to : datetime) :=
    if month since =? 1
    then Return [Commit.mk 10 2; Commit.mk 5 1; Commit.mk 0 0]
    else Return [] in
  let job := Job.mk 0 [(dt 2020 1 1, dt 2020 2 1); (dt 2020 2 1, dt 2020 3 1)]
               "copy/.git" in
  ∃ finishedJobs,
    codeChurnJob traverse_commits job
    = Return (Job.id job, Job.directory job, finishedJobs) ∧
    Forall2 (interval_result traverse_commits (Job.id job) (Job.directory job))
            (Job.dateRanges job) finishedJobs ∧
    Forall (λ item,
              Item.churn item = Item.insertions item + Item.deletions item)
           finishedJobs ∧
    (∀ i dateRange item,
       Job.dateRanges job !! i = Some dateRange →
       finishedJobs !! i = Some item →
       traverse_commits (Job.directory job) dateRange.1 dateRange.2
       = Return [] →
       item = Item.mk (Job.id job) (Job.directory job)
                dateRange.1 dateRange.2 0 0 0).
Proof.
  intros traverse_commits job.
  apply (codeChurnJob_results traverse_commits job).
  repeat constructor.
Defined.

(** The end-to-end example of the specification: three commits in January
    2020 and none in February. *)
Example codeChurnJob_example :
  codeChurnJob
    (λ _ since _,
       if month since =? 1
       then Return [Commit.mk 10 2; Commit.mk 5 1; Commit.mk 0 0]
       else Return [])
    (Job.mk 0 [(dt 2020 1 1, dt 2020 2 1); (dt 2020 2 1, dt 2020 3 1)]
       "copy/.git")
  = Return (0%nat, "copy/.git",
            [Item.mk 0 "copy/.git" (dt 2020 1 1) (dt 2020 2 1) 15 3 18;
             Item.mk 0 "copy/.git" (dt 2020 2 1) (dt 2020 3 1) 0 0 0]).
Proof. reflexivity. Qed.

(** ** The pool *)

Section map_results.
Context {A B : Type} (f : A → outcome B).

Lemma map_results_Return jobs :
  Forall (λ job, returns (f job) = true) jobs →
  ∃ rs, map_results f jobs = Return rs ∧
        Forall2 (λ job r, f job = Return r) jobs rs.
Proof.
  induction 1 as [|job jobs Hjob _ (rs & Hrs & Hall)]; simpl.
  - by exists [].
  - destruct (f job) as [r| |] eqn:Hr; [|done..].
    exists (r :: rs). rewrite Hrs. split; [done|]. by constructor.
Qed.

Lemma map_results_Raise jobs :
  Forall (λ job, f job ≠ Timeout) jobs →
  Exists (λ job, ∃ e, f job = Raise e) jobs →
  ∃ job e, job ∈ jobs ∧ f job = Raise e ∧ map_results f jobs = Raise e.
Proof.
  induction 1 as [|job jobs Hjob Hjobs IH]; intros Hex; simpl.
  - by apply Exists_nil in Hex.
  - assert (map_results f jobs ≠ Timeout) as Hrest.
    { clear IH Hex. induction Hjobs as [|j js Hj _ IHjs]; simpl; [done|].
      destruct (f j), (map_results f js); done. }
    destruct (f job) as [r|e|] eqn:Hr; [| |done].
    + apply Exists_cons in Hex as [[e He]|Hex]; [congruence|].
      destruct (IH Hex) as (job' & e & Hin & He & Hraise).
      exists job', e. rewrite Hraise. split_and!; [by right|done..].
    + exists job, e. split_and!; [by left|done|].
      by destruct (map_results f jobs).
Qed.

Lemma map_results_Timeout jobs :
  Exists (λ job, f job = Timeout) jobs → map_results f jobs = Timeout.
Proof.
  induction 1 as [job jobs Hjob|job jobs _ IH]; simpl.
  - by rewrite Hjob.
  - rewrite IH. by destruct (f job).
Qed.
End map_results.

Lemma map_results_inv {A B} (f : A → outcome B) jobs :
  ∀ rs, map_results f jobs = Return rs →
        Forall2 (λ job r, f job = Return r) jobs rs.
Proof.
  induction jobs as [|job jobs IH]; intros rs; simpl.
  - intros [= <-]. constructor.
  - destruct (f job) as [r|e|] eqn:Hr,
      (map_results f jobs) as [rs'|e'|]; try done.
    intros [= <-]. constructor; [done|]. by apply IH.
Qed.

Lemma map_results_waits {A B} (f : A → outcome B) jobs :
  map_results f jobs ≠ Timeout ↔ Forall (λ job, f job ≠ Timeout) jobs.
Proof.
  induction jobs as [|job jobs IH]; simpl.
  - split; [constructor|done].
  - rewrite Forall_cons, <- IH.
    destruct (f job), (map_results f jobs); naive_solver.
Qed.

(** C3, as amended: when some worker raises, the [pool.map] call of
    [codeChurnPerDelta] still waits for every worker: it answers if and only
    if all of them have finished, so that a worker that never finishes
    keeps the call from answering, whoever has failed by then.  When it
    answers, it raises the exception of one failed worker; this is all the
    caller receives: no list of all failures and none of the results of the
    workers that succeeded. *)
Theorem pool_map_worker_failure
    (traverse_commits : string → datetime → datetime → outcome (list Commit.t))
    (processes : Z) (jobs : list Job.t) :
  1 ≤ processes →
  Exists (λ job, ∃ e, codeChurnJob traverse_commits job = Raise e) jobs →
  let call := pool_map processes (codeChurnJob traverse_commits) jobs in
  (call ≠ Timeout ↔
   Forall (λ job, codeChurnJob traverse_commits job ≠ Timeout) jobs) ∧
  (call ≠ Timeout →
   ∃ job e,
     job ∈ jobs ∧ codeChurnJob traverse_commits job = Raise e ∧
     call = Raise e) ∧
  delivered call = [].
Proof.
  intros Hproc Hfail. simpl. unfold pool_map.
  destruct (Z.ltb_spec processes 1); [lia|].
  split_and!.
  - apply map_results_waits.
  - intros Hfinish%map_results_waits. by apply map_results_Raise.
  - destruct (map_results _ jobs) as [rs| |] eqn:Hrs; [|done..].
    apply map_results_inv in Hrs.
    apply Exists_exists in Hfail as (job & Hin & e & He).
    apply list_elem_of_lookup in Hin as [i Hi].
    destruct (Forall2_lookup_l _ _ _ _ _ Hrs Hi) as (r & _ & Hr).
    congruence.
Qed.

Lemma pool_map_worker_failure_witness :
  let traverse_commits := failing_reader ["w1"] in
  let jobs := [Job.mk 0 [(dt 2020 1 1, dt 2020 2 1)] "w0";
               Job.mk 1 [(dt 2020 2 1, dt 2020 3 1)] "w1";
               Job.mk 2 [(dt 2020 3 1, dt 2020 4 1)] "w2"] in
  let call := pool_map 3 (codeChurnJob traverse_commits) jobs in
  (call ≠ Timeout ↔
   Forall (λ job, codeChurnJob traverse_commits job ≠ Timeout) jobs) ∧
  (call ≠ Timeout →
   ∃ job e,
     job ∈ jobs ∧ codeChurnJob traverse_commits job = Raise e ∧
     call = Raise e) ∧
  delivered call = [].
Proof.
  intros traverse_commits jobs.
  apply (pool_map_worker_failure traverse_commits 3 jobs).
  - lia.
  - apply Exists_cons_tl, Exists_cons_hd. eexists. reflexivity.
Defined.

(** C3 as stated fails: with three workers of which the second cannot read
    its copy, workers 0 and 2 compute their results, yet the call raises
    the exception of worker 1 and hands no result to the caller; and when
    workers 1 and 2 both fail, the failure of only one of them is reported.
    The same holds for the run of [codeChurnPerDelta] with three copies. *)
Lemma pool_map_discards_siblings :
  let jobs := [Job.mk 0 [(dt 2020 1 1, dt 2020 2 1)] "w0";
               Job.mk 1 [(dt 2020 2 1, dt 2020 3 1)] "w1";
               Job.mk 2 [(dt 2020 3 1, dt 2020 4 1)] "w2"] in
  let item0 := Item.mk 0 "w0" (dt 2020 1 1) (dt 2020 2 1) 1 1 2 in
  let item2 := Item.mk 2 "w2" (dt 2020 3 1) (dt 2020 4 1) 1 1 2 in
  let call bad := pool_map 3 (codeChurnJob (failing_reader bad)) jobs in
  codeChurnJob (failing_reader ["w1"]) (Job.mk 0 [(dt 2020 1 1, dt 2020 2 1)] "w0")
    = Return (0%nat, "w0", [item0]) ∧
  codeChurnJob (failing_reader ["w1"]) (Job.mk 2 [(dt 2020 3 1, dt 2020 4 1)] "w2")
    = Return (2%nat, "w2", [item2]) ∧
  call ["w1"] = Raise (GitError "w1") ∧
  delivered (call ["w1"]) = [] ∧
  (call ["w1"; "w2"] = Raise (GitError "w1") ∨
   call ["w1"; "w2"] = Raise (GitError "w2")) ∧
  (let run :=
     codeChurnPerDelta
       (failing_reader ["repos/temp/tempDir_v0/tempDir_1/.git"]) 64 4
       "repos/all/a" (new_relativedelta 0 1) "repos/temp/tempDir" 3
       {["repos/all/a" := Dir; "repos/temp" := Dir]} in
   run.2 = Raise (GitError "repos/temp/tempDir_v0/tempDir_1/.git") ∧
   delivered run.2 = []).
Proof. vm_compute. split_and!; try done. by left. Qed.

(** ** The file system only grows *)

Lemma mkdir_cases p (fs : filesystem) :
  (mkdir p fs = (<[p := Dir]> fs, Return tt) ∧ p ∉ dom fs) ∨
  (∃ e, mkdir p fs = (fs, Raise e)).
Proof.
  unfold mkdir. destruct (String.eqb p EmptyString); [right; eauto|].
  destruct (path_exists p fs) eqn:Hex; simpl; [right; eauto|].
  destruct (String.eqb (rstrip_sep p) EmptyString); [right; eauto|].
  destruct (lookup_dir_outcome (parent_dir p) fs) as [->|[->| ->]];
    [left|right; eauto..].
  split; [done|]. intros Hin%path_exists_dom. congruence.
Qed.

Lemma mkdir_grows p (fs : filesystem) : fs ⊆ (mkdir p fs).1.
Proof.
  destruct (mkdir_cases p fs) as [[-> Hnew]|[e ->]]; simpl; [|done].
  apply insert_subseteq. by apply not_elem_of_dom.
Qed.

Lemma subseteq_dom_not_elem_of (fs fs' : filesystem) p :
  fs ⊆ fs' → p ∉ dom fs' → p ∉ dom fs.
Proof. intros Hsub Hp Hin. by apply Hp, (subseteq_dom _ _ Hsub). Qed.

(** Whatever [os.makedirs] does, nothing is lost; when it returns, the
    directory it was asked for is new and is there afterwards (a name that
    ends in a [.] component is another spelling of its head). *)
Lemma makedirs_from_cases fuel :
  ∀ name (fs fs' : filesystem) o,
    makedirs_from fuel name fs = (fs', o) →
    fs ⊆ fs' ∧
    (o = Return tt → (makedirs_split name).2 ≠ "." →
     (name ∉ dom fs) ∧ fs' !! name = Some Dir).
Proof.
  induction fuel as [|fuel IH]; intros name fs fs' o; simpl;
    destruct (makedirs_split name) as [head tail] eqn:Hsplit; simpl.
  - destruct (_ && _).
    + intros [= <- <-]. done.
    + destruct (mkdir_cases name fs) as [[-> Hnew]|[e ->]]; intros [= <- <-].
      * split; [apply insert_subseteq; by apply not_elem_of_dom|].
        intros _ _. split; [done|]. apply lookup_insert_eq.
      * done.
  - destruct (_ && _).
    + destruct (makedirs_from fuel head fs) as [fs1 o1] eqn:Hhead.
      apply IH in Hhead as [Hsub _].
      assert (∀ fs2 o2,
                (if String.eqb tail "." then (fs1, Return tt)
                 else mkdir name fs1) = (fs2, o2) →
                fs ⊆ fs2 ∧
                (o2 = Return tt → tail ≠ "." →
                 (name ∉ dom fs) ∧ fs2 !! name = Some Dir)) as Hlast.
      { intros fs2 o2. destruct (String.eqb_spec tail ".") as [->|Hdot].
        - intros [= <- <-]. done.
        - destruct (mkdir_cases name fs1) as [[-> Hnew]|[e ->]];
            intros [= <- <-].
          + split.
            * etrans; [exact Hsub|].
              apply insert_subseteq. by apply not_elem_of_dom.
            * intros _ _. split; [|apply lookup_insert_eq].
              by apply (subseteq_dom_not_elem_of fs fs1).
          + done. }
      destruct o1 as [[]|e|]; [by apply Hlast| |by intros [= <- <-]].
      destruct e; try (by intros [= <- <-]). by apply Hlast.
    + destruct (mkdir_cases name fs) as [[-> Hnew]|[e ->]]; intros [= <- <-].
      * split; [apply insert_subseteq; by apply not_elem_of_dom|].
        intros _ _. split; [done|]. apply lookup_insert_eq.
      * done.
Qed.

Lemma copytree_cases src dst (fs fs' : filesystem) o :
  copytree src dst fs = (fs', o) →
  fs ⊆ fs' ∧
  (o = Return tt → (makedirs_split dst).2 ≠ "." →
   fs !! src = Some Dir ∧ (dst ∉ dom fs) ∧ fs' !! dst = Some Dir).
Proof.
  unfold copytree.
  destruct (fs !! src) as [[]|] eqn:Hsrc; [by intros [= <- <-]| |by intros [= <- <-]].
  unfold makedirs.
  destruct (makedirs_from _ dst fs) as [fs1 o1] eqn:Hdst.
  apply makedirs_from_cases in Hdst as [Hsub Hret].
  destruct o1 as [[]|e|]; [|by intros [= <- <-]..].
  destruct (copies_itself src dst fs); [by intros [= <- <-]|].
  intros [= <- <-]. split.
  - etrans; [exact Hsub|]. apply map_union_subseteq_l.
  - intros _ Htail. destruct (Hret eq_refl Htail) as [Hnew Hdir].
    split_and!; [done..|].
    by apply lookup_union_Some_l.
Qed.

Lemma copytree_grows src dst (fs : filesystem) : fs ⊆ (copytree src dst fs).1.
Proof.
  destruct (copytree src dst fs) as [fs' o] eqn:Hrun.
  by apply copytree_cases in Hrun as [? _].
Qed.

(** ** The names of the copies *)

Lemma rsplit_sep_endswith s :
  endswith_sep s = true → rsplit_sep s = (s, EmptyString).
Proof.
  induction s as [|c s IH]; [done|]. simpl.
  destruct s as [|c' s].
  - simpl. intros ->. done.
  - intros Hs. rewrite IH by done. done.
Qed.

Lemma rstrip_sep_app_sep s :
  endswith_sep s = false → s ≠ EmptyString → rstrip_sep (s +:+ "/") = s.
Proof.
  induction s as [|c s IH]; [done|]. intros Hend _.
  rewrite append_cons. simpl.
  destruct s as [|c' s].
  - simpl in *. by rewrite Hend.
  - rewrite IH by done. done.
Qed.

(** The path of a copy, spelled out. *)
Lemma copy_path_spelled tempDir i :
  copy_path tempDir i
  = (tempDir +:+
     (if String.eqb tempDir EmptyString || endswith_sep tempDir
      then EmptyString else "/") +:+
     "tempDir_" +:+ pretty i) +:+ "/.git".
Proof.
  pose proof (pretty_Z_has_sep i) as Hsep.
  unfold copy_path, path_join. cbn [foldl].
  assert (String.prefix "/" ("tempDir_" +:+ pretty i) = false) as -> by done.
  assert (String.prefix "/" ".git" = false) as -> by done.
  set (sep := if String.eqb tempDir EmptyString || endswith_sep tempDir
              then EmptyString else "/").
  set (p := if String.eqb tempDir EmptyString || endswith_sep tempDir
            then tempDir +:+ "tempDir_" +:+ pretty i
            else tempDir +:+ "/" +:+ "tempDir_" +:+ pretty i).
  assert (p = tempDir +:+ sep +:+ "tempDir_" +:+ pretty i)
    as Hp by (unfold p, sep; by destruct (_ || _)).
  assert ("tempDir_" +:+ pretty i ≠ EmptyString) as Hname
    by (by rewrite append_cons).
  assert (String.eqb p EmptyString = false) as ->.
  { apply String.eqb_neq. rewrite Hp.
    by apply (append_nonempty tempDir), (append_nonempty sep). }
  assert (endswith_sep p = false) as ->.
  { rewrite Hp.
    rewrite (endswith_sep_app tempDir) by (by apply (append_nonempty sep)).
    rewrite (endswith_sep_app sep) by done.
    apply endswith_sep_has_sep. by rewrite has_sep_app. }
  simpl. rewrite Hp. by rewrite !append_assoc.
Qed.

Lemma copy_path_split tempDir i :
  makedirs_split (copy_path tempDir i) = (copy_dir tempDir i, ".git").
Proof.
  rewrite copy_path_spelled. fold (copy_dir tempDir i).
  assert (copy_dir tempDir i ≠ EmptyString ∧
          endswith_sep (copy_dir tempDir i) = false) as [Hne Hend].
  { unfold copy_dir. split.
    - by apply append_nonempty, append_nonempty.
    - rewrite endswith_sep_app by (by apply append_nonempty).
      rewrite endswith_sep_app by done.
      apply endswith_sep_has_sep. rewrite has_sep_app.
      by rewrite pretty_Z_has_sep. }
  unfold makedirs_split, path_split.
  change "/.git" with ("/" +:+ ".git"). rewrite <- append_assoc.
  rewrite rsplit_sep_app by done.
  rewrite rsplit_sep_endswith by (by rewrite endswith_sep_app).
  simpl. rewrite rstrip_sep_app_sep by done.
  by rewrite (proj2 (String.eqb_neq _ _) Hne).
Qed.

Lemma copy_path_inj tempDir i j :
  copy_path tempDir i = copy_path tempDir j → i = j.
Proof.
  rewrite !copy_path_spelled.
  intros Heq%append_inj_r.
  apply (inj (String.append tempDir)) in Heq.
  apply (inj (String.append _)) in Heq.
  apply (inj (String.append "tempDir_")) in Heq.
  by apply (inj pretty) in Heq.
Qed.

Lemma copy_paths_NoDup tempDir numCopies :
  NoDup (copy_path tempDir <$> range numCopies).
Proof.
  apply NoDup_fmap_2_strong; [|apply NoDup_seqZ].
  intros i j _ _. apply copy_path_inj.
Qed.
(** ** [codeChurnPerDelta] and the worker count *)

Lemma createMultipleRepos_loop_grows sourceDir tempDir indices :
  ∀ directories (fs : filesystem),
    fs ⊆ (createMultipleRepos_loop sourceDir tempDir indices directories fs).1.
Proof.
  induction indices as [|i indices IH]; intros directories fs; simpl; [done|].
  unfold mbind, M_bind.
  pose proof (copytree_grows sourceDir
                (path_join tempDir ["tempDir_" +:+ pretty i; ".git"]) fs)
    as Hcopy.
  destruct (copytree _ _ fs) as [fs1 [[]|e|]]; simpl in *; [|done..].
  etrans; [exact Hcopy|]. apply IH.
Qed.

Lemma createJobsByTimeDelta_fs fuel repoPath timeDelta directories fs :
  (createJobsByTimeDelta fuel repoPath timeDelta directories fs).1 = fs.
Proof.
  unfold createJobsByTimeDelta, lift, mbind, M_bind, assert.
  destruct (path_exists repoPath fs); [|done].
  destruct (createMonthList _ _ _ _); done.
Qed.

(** C7, as amended: the run checks the upper bound only.  A worker count
    above [cpu_count - 1] fails with the assertion error before anything is
    provisioned: the file system is left as it was.  Every other count,
    positive or not, passes the check, and provisioning begins with the
    versioned directory: it is created if the directory part of the base
    path is there; if it is not, the run stops at that point with the
    [FileNotFoundError] (or [NotADirectoryError]) of [os.mkdir], nothing
    having been created. *)
Theorem codeChurnPerDelta_capacity
    (traverse_commits : string → datetime → datetime → outcome (list Commit.t))
    (extra : nat) (cpu_count : Z) (repoPath : string)
    (timeDelta : relativedelta) (tempDir : string) (numDirectories : Z)
    (fs : filesystem) :
  let run :=
    codeChurnPerDelta traverse_commits (size fs + extra) cpu_count repoPath
      timeDelta tempDir numDirectories fs in
  (cpu_count - 1 < numDirectories → run = (fs, Raise AssertionError)) ∧
  (numDirectories ≤ cpu_count - 1 →
   lookup_dir (dirname tempDir) fs = Return tt →
   ∃ N, (versioned tempDir N ∉ dom fs) ∧
        run.1 !! versioned tempDir N = Some Dir) ∧
  (numDirectories ≤ cpu_count - 1 →
   lookup_dir (dirname tempDir) fs ≠ Return tt →
   ∃ e, (e = FileNotFoundError ∨ e = NotADirectoryError) ∧
        run = (fs, Raise e)).
Proof.
  simpl. unfold codeChurnPerDelta, lift, assert. split_and!.
  - intros Hover. unfold mbind at 1, M_bind at 1.
    destruct (Z.leb_spec numDirectories (cpu_count - 1)); [lia|done].
  - intros Hwithin Hdir. unfold mbind at 1, M_bind at 1.
    destruct (Z.leb_spec numDirectories (cpu_count - 1)); [|lia].
    destruct (get_new_temp_dir_spec fs tempDir (size fs + extra))
      as (N & Hfree & _ & Hnew); [lia|].
    rewrite Hdir in Hnew.
    exists N. split; [done|].
    unfold mbind at 1, M_bind at 1. rewrite Hnew.
    unfold mbind at 1, M_bind at 1.
    pose proof (createMultipleRepos_loop_grows repoPath
                  (versioned tempDir N) (range numDirectories) []
                  (<[versioned tempDir N := Dir]> fs)) as Hgrow.
    assert (∀ fs' : filesystem,
              <[versioned tempDir N := Dir]> fs ⊆ fs' →
              fs' !! versioned tempDir N = Some Dir) as Hkeep.
    { intros fs' Hsub.
      apply (lookup_weaken _ _ _ _ (lookup_insert_eq _ _ _) Hsub). }
    unfold createMultipleRepos.
    destruct (createMultipleRepos_loop _ _ _ _ _) as [fs' [dirs|e|]];
      simpl in *; [|by apply Hkeep..].
    unfold mbind, M_bind.
    pose proof (createJobsByTimeDelta_fs (size fs + extra) repoPath timeDelta
                  dirs fs') as Hfs.
    destruct (createJobsByTimeDelta _ _ _ _ _) as [fs'' [jobs|e|]];
      simpl in *; subst fs''; by apply Hkeep.
  - intros Hwithin Hdir. unfold mbind at 1, M_bind at 1.
    destruct (Z.leb_spec numDirectories (cpu_count - 1)); [|lia].
    destruct (get_new_temp_dir_spec fs tempDir (size fs + extra))
      as (N & _ & _ & Hnew); [lia|].
    unfold mbind at 1, M_bind at 1. rewrite Hnew.
    destruct (lookup_dir_outcome (dirname tempDir) fs) as [Hd|[-> | ->]];
      [done|by exists FileNotFoundError; auto
           |by exists NotADirectoryError; auto].
Qed.

Lemma codeChurnPerDelta_capacity_witness :
  let fs : filesystem := {["repos/all/a" := Dir; "repos/temp" := Dir]} in
  let run numDirectories :=
    codeChurnPerDelta (failing_reader []) (size fs + 63) 8 "repos/all/a"
      (new_relativedelta 0 1) "repos/temp/tempDir" numDirectories fs in
  run 8 = (fs, Raise AssertionError) ∧
  ∃ N, (versioned "repos/temp/tempDir" N ∉ dom fs) ∧
       (run 7).1 !! versioned "repos/temp/tempDir" N = Some Dir.
Proof.
  intros fs run. split.
  - apply (proj1 (codeChurnPerDelta_capacity (failing_reader []) 63 8
                    "repos/all/a" (new_relativedelta 0 1)
                    "repos/temp/tempDir" 8 fs)).
    lia.
  - apply (proj1 (proj2 (codeChurnPerDelta_capacity (failing_reader []) 63 8
                           "repos/all/a" (new_relativedelta 0 1)
                           "repos/temp/tempDir" 7 fs))).
    + lia.
    + reflexivity.
Defined.

(** C7 as stated fails for the lower bound: with 8 processors, a worker
    count of 0 or of -2 is not rejected by the check.  The versioned
    directory is created first, and the run then stops with the
    [ValueError] of [np.array_split] on zero sections. *)
Lemma codeChurnPerDelta_no_workers :
  let fs : filesystem := {["repos/all/a" := Dir; "repos/temp" := Dir]} in
  let run numDirectories :=
    codeChurnPerDelta (failing_reader []) 64 8 "repos/all/a"
      (new_relativedelta 0 1) "repos/temp/tempDir" numDirectories fs in
  run 0 = (<["repos/temp/tempDir_v0" := Dir]> fs, Raise ValueError) ∧
  run (-2) = (<["repos/temp/tempDir_v0" := Dir]> fs, Raise ValueError) ∧
  (run 0).2 ≠ Raise AssertionError ∧
  fs !! "repos/temp/tempDir_v0" = None ∧
  (run 0).1 !! "repos/temp/tempDir_v0" = Some Dir.
Proof.
  intros fs run.
  assert (run 0 = (<["repos/temp/tempDir_v0" := Dir]> fs, Raise ValueError))
    as H0 by (vm_compute; reflexivity).
  split_and!; [done|by vm_compute|by rewrite H0|done|].
  rewrite H0. simpl. apply lookup_insert_eq.
Qed.
(** ** [sorted] *)

Section sorted.
Context {A : Type} (leb : A → A → bool).

Lemma insert_sorted_Permutation x l : insert_sorted leb x l ≡ₚ x :: l.
Proof.
  induction l as [|y l IH]; simpl; [done|].
  destruct (leb x y); [done|]. by rewrite IH, Permutation_swap.
Qed.

Lemma sorted_Permutation l : sorted leb l ≡ₚ l.
Proof.
  induction l as [|x l IH]; simpl; [done|].
  by rewrite insert_sorted_Permutation, IH.
Qed.

Hypothesis leb_total : ∀ x y, leb x y = true ∨ leb y x = true.

Lemma insert_sorted_Sorted x l :
  Sorted (λ a b, Is_true (leb a b)) l →
  Sorted (λ a b, Is_true (leb a b)) (insert_sorted leb x l).
Proof.
  induction 1 as [|y l Hl IH Hhd]; simpl; [by repeat constructor|].
  destruct (leb x y) eqn:Hxy.
  - repeat constructor; [done..|]. by rewrite Hxy.
  - constructor; [done|].
    destruct (leb_total x y) as [?|Hyx]; [congruence|].
    destruct Hhd as [|z l Hyz]; simpl.
    + constructor. by rewrite Hyx.
    + destruct (leb x z); constructor; [by rewrite Hyx|done].
Qed.

Lemma sorted_Sorted l : Sorted (λ a b, Is_true (leb a b)) (sorted leb l).
Proof.
  induction l as [|x l IH]; simpl; [constructor|].
  by apply insert_sorted_Sorted.
Qed.
End sorted.

Lemma str_lt_le_ne s1 s2 : String.leb s1 s2 = true → s1 ≠ s2 → str_lt s1 s2.
Proof.
  unfold str_lt, String.leb, String.ltb. intros Hle Hne.
  destruct (String.compare s1 s2) eqn:Hc; [|done..].
  by apply String.compare_eq_iff in Hc.
Qed.

Lemma sorted_strings_strict (l : list string) :
  NoDup l → StronglySorted str_lt (sorted String.leb l).
Proof.
  intros Hnd.
  assert (StronglySorted String.le (sorted String.leb l)) as Hs.
  { apply Sorted_StronglySorted; [apply _|].
    apply (sorted_Sorted String.leb), String.leb_total. }
  assert (NoDup (sorted String.leb l)) as Hnd'
    by (by rewrite sorted_Permutation).
  induction Hs as [|x k Hk IH Hall]; [constructor|].
  apply NoDup_cons in Hnd' as [Hx Hnd']. constructor; [by apply IH|].
  apply Forall_forall. intros y Hy.
  apply str_lt_le_ne.
  - rewrite Forall_forall in Hall. apply Is_true_true, Hall, Hy.
  - intros ->. done.
Qed.

(** ** Month keys *)

Lemma digit_val_digit n : digit_val (digit n) = Some (n mod 10).
Proof.
  unfold digit_val, digit.
  rewrite N_ascii_embedding by (assert (0 ≤ n mod 10 < 10) by div_lia; lia).
  assert (0 ≤ n mod 10 < 10) by div_lia.
  rewrite N2Z.inj_add, Z2N.id by lia. simpl Z.of_N.
  destruct (_ && _) eqn:Hb; [f_equal; lia|lia].
Qed.

Lemma parse_month_digits m :
  1 ≤ m ≤ 12 →
  parse_month (String (digit (m / 10)) (String (digit m) EmptyString))
  = Some m.
Proof.
  intros Hm.
  assert (m = 1 ∨ m = 2 ∨ m = 3 ∨ m = 4 ∨ m = 5 ∨ m = 6 ∨ m = 7 ∨ m = 8 ∨
          m = 9 ∨ m = 10 ∨ m = 11 ∨ m = 12) as Hcases by lia.
  repeat (destruct Hcases as [->|Hcases]; [reflexivity|]).
  by subst.
Qed.

(** An ASCII digit is a character of its own, and a decimal digit. *)
Lemma decimal_digit_step n acc s k :
  decimal_digits (S k) acc (String (digit n) s)
  = decimal_digits k (10 * acc + n mod 10) s.
Proof.
  assert (0 ≤ n mod 10 < 10) as Hn by div_lia.
  assert (digit n = ascii_of_N (48 + Z.to_N (n mod 10))) as Hd by done.
  assert (n mod 10 = 0 ∨ n mod 10 = 1 ∨ n mod 10 = 2 ∨ n mod 10 = 3 ∨
          n mod 10 = 4 ∨ n mod 10 = 5 ∨ n mod 10 = 6 ∨ n mod 10 = 7 ∨
          n mod 10 = 8 ∨ n mod 10 = 9) as Hcases by lia.
  repeat (destruct Hcases as [Hc|Hcases];
          [rewrite Hd, Hc; reflexivity|]).
  rewrite Hd, Hcases. reflexivity.
Qed.

(** Parsing a key [YYYY-MM] gives back the first day of the month. *)
Lemma strptime_yyyy_mm d :
  valid_datetime d = true →
  strptime_Ym (yyyy_mm d) = Return (first_of_month d).
Proof.
  intros Hd.
  pose proof (valid_datetime_month _ Hd) as Hm.
  pose proof (valid_datetime_year _ Hd) as Hy.
  unfold valid_month, MINYEAR, MAXYEAR in *.
  unfold strptime_Ym, yyyy_mm.
  rewrite !decimal_digit_step. cbn [decimal_digits].
  rewrite parse_month_digits by done.
  replace (10 * (10 * (10 * (10 * 0 + (year d / 1000) mod 10) +
                       (year d / 100) mod 10) + (year d / 10) mod 10) +
           year d mod 10) with (year d) by div_lia.
  unfold MINYEAR. destruct (Z.leb_spec 1 (year d)); [done|lia].
Qed.

(** The decimal writing of a number of four digits. *)
Lemma pretty_N_char_digit (x : N) :
  pretty_N_char (x `mod` 10) = digit (Z.of_N x).
Proof.
  unfold digit.
  replace (Z.of_N x mod 10) with (Z.of_N (x `mod` 10))
    by (by rewrite N2Z.inj_mod).
  rewrite N2Z.id.
  assert (x `mod` 10 < 10)%N as Hlt by (by apply N.mod_lt).
  set (r := (x `mod` 10)%N) in *.
  assert (r = 0 ∨ r = 1 ∨ r = 2 ∨ r = 3 ∨ r = 4 ∨ r = 5 ∨ r = 6 ∨ r = 7 ∨
          r = 8 ∨ r = 9)%N as Hcases by lia.
  repeat (destruct Hcases as [->|Hcases]; [reflexivity|]).
  by rewrite Hcases.
Qed.

Lemma pretty_four_digits (y : Z) :
  1000 ≤ y ≤ 9999 →
  pretty y
  = String (digit (y / 1000)) (String (digit (y / 100))
      (String (digit (y / 10)) (String (digit y) EmptyString))).
Proof.
  intros Hy. destruct y as [|p|p]; [lia| |lia].
  unfold pretty, pretty_Z, pretty, pretty_positive, pretty, pretty_N.
  rewrite decide_False by done.
  assert (0 < N.pos p `div` 1000)%N as H3.
  { apply N.div_str_pos. lia. }
  assert (0 < N.pos p `div` 100)%N as H2.
  { apply N.div_str_pos. lia. }
  assert (0 < N.pos p `div` 10)%N as H1.
  { apply N.div_str_pos. lia. }
  rewrite pretty_N_go_step by done.
  rewrite pretty_N_go_step by done.
  rewrite !N.Div0.div_div.
  rewrite pretty_N_go_step by done.
  rewrite !N.Div0.div_div.
  rewrite pretty_N_go_step by done.
  rewrite !N.Div0.div_div.
  replace (N.pos p `div` (10 * 10 * 10 * 10))%N with 0%N
    by (symmetry; apply N.div_small; lia).
  rewrite pretty_N_go_0.
  rewrite !pretty_N_char_digit.
  rewrite !N2Z.inj_div. done.
Qed.

(** From the year 1000 on, [strftime] writes the key [YYYY-MM]. *)
Lemma strftime_Ym_yyyy_mm d :
  1000 ≤ year d ≤ 9999 → strftime_Ym d = yyyy_mm d.
Proof.
  intros Hy. unfold strftime_Ym, yyyy_mm.
  by rewrite pretty_four_digits.
Qed.

Lemma append_inj_length s1 s2 t1 t2 :
  String.length t1 = String.length t2 →
  s1 +:+ t1 = s2 +:+ t2 → s1 = s2 ∧ t1 = t2.
Proof.
  intros Hlen. revert s2.
  induction s1 as [|c s1 IH]; intros [|c2 s2] Heq.
  - done.
  - change (t1 = String c2 (s2 +:+ t2)) in Heq. subst t1.
    simpl in Hlen. rewrite length_append in Hlen. lia.
  - change (String c (s1 +:+ t1) = t2) in Heq. subst t2.
    simpl in Hlen. rewrite length_append in Hlen. lia.
  - rewrite !append_cons in Heq. injection Heq as -> Heq.
    destruct (IH _ Heq) as [-> ->]. done.
Qed.

Lemma digit_inj n1 n2 : digit n1 = digit n2 → n1 mod 10 = n2 mod 10.
Proof.
  intros Heq. pose proof (digit_val_digit n1) as H1.
  rewrite Heq, digit_val_digit in H1. by injection H1.
Qed.

(** The keys of two dates agree exactly when their months do. *)
Lemma strftime_Ym_inj d1 d2 :
  valid_datetime d1 = true → valid_datetime d2 = true →
  strftime_Ym d1 = strftime_Ym d2 ↔
  year d1 = year d2 ∧ month d1 = month d2.
Proof.
  intros H1 H2. split.
  - intros Heq.
    pose proof (valid_datetime_month _ H1) as Hm1.
    pose proof (valid_datetime_month _ H2) as Hm2.
    unfold valid_month in *. unfold strftime_Ym in Heq.
    apply append_inj_length in Heq as [Hy Hm]; [|done].
    apply (inj pretty) in Hy. split; [done|].
    injection Hm as Ha%digit_inj Hb%digit_inj. div_lia.
  - intros [Hy Hm]. unfold strftime_Ym. by rewrite Hy, Hm.
Qed.

(** ** Aggregation *)

Lemma np_mean_Permutation l1 l2 : l1 ≡ₚ l2 → np_mean l1 = np_mean l2.
Proof.
  intros Hp. unfold np_mean.
  assert (foldr Z.add 0 l1 = foldr Z.add 0 l2) as ->.
  { induction Hp; simpl; lia. }
  by rewrite (Permutation_length Hp).
Qed.

(** The loop [for item in dataSorted] appends, under every month, the churn
    values of the items of that month, in order. *)
Lemma collect_loop_lookup items :
  ∀ (combined_data : gmap string (list Z)) m,
    default [] (foldl (λ combined_data item,
                         setdefault_append combined_data
                           (strftime_Ym (Item.startDate item))
                           (Item.churn item))
                      combined_data items !! m)
    = default [] (combined_data !! m) ++
      (Item.churn <$> filter (λ item, month_key item = m) items).
Proof.
  induction items as [|item items IH]; intros combined_data m; simpl.
  - by rewrite app_nil_r.
  - rewrite IH. unfold setdefault_append. fold (month_key item).
    destruct (decide (month_key item = m)) as [<-|Hne].
    + rewrite lookup_insert_eq, filter_cons_True by done. simpl.
      by rewrite <- app_assoc.
    + rewrite lookup_insert_ne, filter_cons_False by done. done.
Qed.

Lemma collect_loop_no_empty items :
  ∀ combined_data,
    no_empty_month combined_data →
    no_empty_month
      (foldl (λ combined_data item,
                setdefault_append combined_data
                  (strftime_Ym (Item.startDate item)) (Item.churn item))
             combined_data items).
Proof.
  induction items as [|item items IH]; intros combined_data Hne; simpl.
  - done.
  - apply IH. intros m l. unfold setdefault_append.
    destruct (decide (strftime_Ym (Item.startDate item) = m)) as [<-|Hm].
    + rewrite lookup_insert_eq. intros [= <-]. by destruct (default _ _).
    + rewrite lookup_insert_ne by done. apply Hne.
Qed.

Lemma collect_Return combined_data result :
  result ≠ [] →
  collect combined_data result
  = Return (foldl (λ combined_data item,
                     setdefault_append combined_data
                       (strftime_Ym (Item.startDate item)) (Item.churn item))
                  combined_data
                  (sorted (λ x y, dt_leb (Item.startDate x) (Item.startDate y))
                          (concat (result.*2)))).
Proof. by destruct result. Qed.

Lemma collect_all_lookup results :
  Forall (λ result, result ≠ []) results →
  ∀ combined_data,
    no_empty_month combined_data →
    ∃ combined_data',
      collect_all combined_data results = Return combined_data' ∧
      no_empty_month combined_data' ∧
      ∀ m, default [] (combined_data' !! m)
           ≡ₚ default [] (combined_data !! m) ++ samples results m.
Proof.
  induction 1 as [|result results Hresult _ IH]; intros combined_data Hne.
  - exists combined_data. split_and!; [done..|].
    intros m. unfold samples, all_items. simpl. by rewrite app_nil_r.
  - cbn [collect_all]. rewrite collect_Return by done.
    set (dataSorted := sorted _ (concat (result.*2))).
    set (combined_data1 := foldl _ combined_data dataSorted).
    destruct (IH combined_data1) as (combined_data' & Hall & Hne' & Hlookup).
    { by apply collect_loop_no_empty. }
    exists combined_data'. split_and!; [done..|].
    intros m. rewrite Hlookup. unfold combined_data1.
    rewrite collect_loop_lookup, <- app_assoc. f_equiv.
    unfold samples, all_items. rewrite fmap_cons. cbn [concat].
    rewrite filter_app, fmap_app. f_equiv.
    unfold dataSorted. by rewrite sorted_Permutation.
Qed.

Lemma elem_of_zip_fmap {A B} (f : A → B) (l : list A) x y :
  (x, y) ∈ zip l (f <$> l) → x ∈ l ∧ y = f x.
Proof.
  induction l as [|a l IH]; simpl; [by intros ?%elem_of_nil|].
  intros [[= -> ->]|Hin]%elem_of_cons.
  - split; [by left|done].
  - destruct (IH Hin). split; [by right|done].
Qed.

Lemma months_of_elem_of (combined_data : gmap string (list Z)) m :
  m ∈ months_of combined_data ↔ is_Some (combined_data !! m).
Proof.
  unfold months_of. rewrite sorted_Permutation.
  rewrite list_elem_of_fmap. split.
  - intros ([k l] & -> & Hin%elem_of_map_to_list). by exists l.
  - intros [l Hl]. exists (m, l). split; [done|].
    by apply elem_of_map_to_list.
Qed.

(** C1: for every collection of results (one non-empty list of worker
    results per repository), the aggregation returns a series whose month
    keys are strictly ascending; a month is in the series exactly when some
    result of some worker of some repository starts in it, so a month
    without samples is absent; the value of a month is the arithmetic mean
    of the churn of all the results starting in that month, over all
    repositories and workers together; and two results with valid start
    dates share a key exactly when they share year and month. *)
Theorem aggregate_monthly_means (results : list (list worker_result)) :
  Forall (λ result, result ≠ []) results →
  ∃ series,
    aggregate results = Return series ∧
    StronglySorted str_lt (series.*1) ∧
    (∀ m, m ∈ series.*1 ↔ samples results m ≠ []) ∧
    (∀ m v, (m, v) ∈ series →
       v = Qdiv (inject_Z (sumZ (samples results m)))
                (inject_Z (Z.of_nat (length (samples results m))))) ∧
    (∀ item1 item2,
       valid_datetime (Item.startDate item1) = true →
       valid_datetime (Item.startDate item2) = true →
       month_key item1 = month_key item2 ↔
       year (Item.startDate item1) = year (Item.startDate item2) ∧
       month (Item.startDate item1) = month (Item.startDate item2)).
Proof.
  intros Hresults.
  destruct (collect_all_lookup results Hresults ∅)
    as (combined_data & Hall & Hne & Hlookup); [done|].
  assert (∀ m, default [] (combined_data !! m) ≡ₚ samples results m) as Hperm.
  { intros m. rewrite Hlookup. by rewrite lookup_empty. }
  assert (∀ m, is_Some (combined_data !! m) ↔ samples results m ≠ [])
    as Hkeys.
  { intros m. specialize (Hperm m). split.
    - intros [l Hl]. rewrite Hl in Hperm. simpl in Hperm.
      intros Hnil. rewrite Hnil in Hperm.
      apply Permutation_nil_r in Hperm. by apply (Hne m l).
    - intros Hsamples. destruct (combined_data !! m) as [l|]; [done|].
      simpl in Hperm. symmetry in Hperm.
      by apply Permutation_nil_r in Hperm. }
  set (months := months_of combined_data).
  exists (zip months (avg_churn_of combined_data months)).
  assert ((zip months (avg_churn_of combined_data months)).*1 = months)
    as Hfst.
  { apply fst_zip. unfold avg_churn_of. by rewrite length_fmap. }
  rewrite Hfst. split_and!.
  - unfold aggregate. by rewrite Hall.
  - unfold months, months_of. apply sorted_strings_strict.
    apply NoDup_fst_map_to_list.
  - intros m. unfold months. by rewrite months_of_elem_of.
  - intros m v [_ ->]%elem_of_zip_fmap.
    rewrite lookup_total_alt. apply np_mean_Permutation, Hperm.
  - intros item1 item2. apply strftime_Ym_inj.
Qed.

Lemma aggregate_monthly_means_witness :
  let results : list (list worker_result) :=
    [[(0%nat, "a/.git",
       [Item.mk 0 "a/.git" (dt 2020 1 1) (dt 2020 2 1) 15 3 18;
        Item.mk 0 "a/.git" (dt 2020 2 1) (dt 2020 3 1) 0 0 0])];
     [(0%nat, "b/.git", [Item.mk 0 "b/.git" (dt 2020 1 1) (dt 2020 2 1) 1 1 2]);
      (1%nat, "b/.git", [])]] in
  ∃ series,
    aggregate results = Return series ∧
    StronglySorted str_lt (series.*1) ∧
    (∀ m, m ∈ series.*1 ↔ samples results m ≠ []) ∧
    (∀ m v, (m, v) ∈ series →
       v = Qdiv (inject_Z (sumZ (samples results m)))
                (inject_Z (Z.of_nat (length (samples results m))))) ∧
    (∀ item1 item2,
       valid_datetime (Item.startDate item1) = true →
       valid_datetime (Item.startDate item2) = true →
       month_key item1 = month_key item2 ↔
       year (Item.startDate item1) = year (Item.startDate item2) ∧
       month (Item.startDate item1) = month (Item.startDate item2)).
Proof.
  intros results. apply (aggregate_monthly_means results).
  apply Forall_cons_2; [discriminate|].
  apply Forall_cons_2; [discriminate|].
  apply Forall_nil_2.
Defined.

(** One sample per repository and interval: a month whose interval has no
    commits has the sample 0 and is in the series. *)
Example aggregate_example :
  aggregate
    [[(0%nat, "a/.git",
       [Item.mk 0 "a/.git" (dt 2020 1 1) (dt 2020 2 1) 15 3 18;
        Item.mk 0 "a/.git" (dt 2020 2 1) (dt 2020 3 1) 0 0 0])];
     [(0%nat, "b/.git", [Item.mk 0 "b/.git" (dt 2020 1 1) (dt 2020 2 1) 1 1 2]);
      (1%nat, "b/.git", [])]]
  = Return [("2020-01", Qdiv (inject_Z 20) (inject_Z 2));
            ("2020-02", Qdiv (inject_Z 0) (inject_Z 1))].
Proof. vm_compute. reflexivity. Qed.

(** ** Before and after the threshold *)

Lemma split_by_threshold_spec threshold dated :
  Forall (λ p, valid_datetime p.1 = true) dated →
  ∀ before after,
    split_by_threshold threshold (keyed dated) before after
    = Return (before ++ values_before threshold dated,
              after ++ values_from threshold dated).
Proof.
  unfold values_before, values_from.
  induction 1 as [|[d v] dated Hd _ IH]; intros before after.
  - simpl. by rewrite !app_nil_r.
  - cbn [keyed fmap list_fmap split_by_threshold fst snd].
    rewrite strptime_yyyy_mm by done. cbn [mbind outcome_bind].
    fold (keyed dated).
    destruct (dt_ltb (first_of_month d) threshold) eqn:Hlt.
    + rewrite IH. rewrite filter_cons_True by done.
      rewrite filter_cons_False by (simpl; congruence).
      by rewrite fmap_cons, <- app_assoc.
    + rewrite IH. rewrite filter_cons_False by (simpl; congruence).
      rewrite filter_cons_True by done.
      by rewrite fmap_cons, <- app_assoc.
Qed.

(** C9: for a threshold date and a series of values under month keys, the
    summary takes the values of the months beginning before the threshold
    and those of the other months, each in series order (together they are
    all the values), and returns the mean of each part: the sum divided by
    the count, and 0 for an empty part. *)
Theorem summary_before_after (threshold : datetime)
    (dated : list (datetime * Q)) :
  Forall (λ p, valid_datetime p.1 = true) dated →
  summary threshold (keyed dated)
  = Return (average (values_before threshold dated),
            average (values_from threshold dated)) ∧
  values_before threshold dated ++ values_from threshold dated ≡ₚ dated.*2 ∧
  average [] = 0%Q ∧
  (∀ l, l ≠ [] →
     average l = Qdiv (foldl Qplus 0%Q l) (inject_Z (Z.of_nat (length l)))).
Proof.
  intros Hvalid. split_and!.
  - unfold summary. by rewrite split_by_threshold_spec.
  - unfold values_before, values_from. rewrite <- fmap_app. f_equiv.
    clear Hvalid. induction dated as [|p dated IH]; [done|].
    destruct (dt_ltb (first_of_month p.1) threshold) eqn:Hlt.
    + rewrite filter_cons_True by done.
      rewrite (filter_cons_False (λ p, _ = false)) by congruence.
      simpl. by rewrite IH.
    + rewrite filter_cons_False by congruence.
      rewrite (filter_cons_True (λ p, _ = false)) by done.
      by rewrite <- Permutation_middle, IH.
  - done.
  - by intros [|x l].
Qed.

Lemma summary_before_after_witness :
  let dated := [(dt 2022 9 1, 4 # 1); (dt 2022 10 1, 2 # 1);
                (dt 2022 11 1, 6 # 1)]%Q in
  summary threshold_date (keyed dated)
  = Return (average (values_before threshold_date dated),
            average (values_from threshold_date dated)) ∧
  values_before threshold_date dated ++ values_from threshold_date dated
    ≡ₚ dated.*2 ∧
  average [] = 0%Q ∧
  (∀ l, l ≠ [] →
     average l = Qdiv (foldl Qplus 0%Q l) (inject_Z (Z.of_nat (length l)))).
Proof.
  intros dated. apply (summary_before_after threshold_date dated).
  repeat (apply Forall_cons_2; [reflexivity|]). apply Forall_nil_2.
Defined.

(** The threshold month itself counts as after. *)
Example summary_example :
  summary threshold_date
    [("2022-09", 4 # 1); ("2022-10", 2 # 1); ("2022-11", 6 # 1)]%Q
  = Return (Qdiv (0 + (4 # 1) + (2 # 1)) (inject_Z 2),
            Qdiv (0 + (6 # 1)) (inject_Z 1))%Q.
Proof. reflexivity. Qed.

Example summary_empty_side :
  summary threshold_date [("2023-01", 5 # 1)]%Q
  = Return (0, Qdiv (0 + (5 # 1)) (inject_Z 1))%Q.
Proof. reflexivity. Qed.

(** ** The whole run *)

(** The loop of [__main__] is the aggregation of the results of the runs,
    one per repository. *)
Lemma main_loop_collect_all traverse_commits fuel cpu_count all_repos :
  ∀ combined_data fs fs' combined_data',
    main_loop traverse_commits fuel cpu_count all_repos combined_data fs
    = (fs', Return combined_data') →
    ∃ results,
      length results = length all_repos ∧
      collect_all combined_data results = Return combined_data'.
Proof.
  induction all_repos as [|repoPath all_repos IH];
    intros combined_data fs fs' combined_data'; simpl.
  - intros [= <- <-]. by exists [].
  - unfold mbind at 1, M_bind at 1.
    destruct (codeChurnPerDelta _ _ _ _ _ _ _ _) as [fs1 [result|e|]];
      [|done..].
    unfold mbind at 1, M_bind at 1, lift.
    destruct (collect combined_data result) as [combined_data1| |] eqn:Hc;
      [|done..].
    intros (results & Hlen & Hall)%IH.
    exists (result :: results). simpl. rewrite Hc. split; [by f_equal|done].
Qed.

(** One repository whose history has three commits in every January: 64
    months in the series, 37 of them before November 2022. *)
Example main_example :
  let traverse_commits (repoPath : string) (since to : datetime) :=
    if month since =? 1
    then Return [Commit.mk 10 2; Commit.mk 5 1; Commit.mk 0 0]
    else Return [] in
  (λ r : list (string * Q) * (Q * Q), (length r.1, r.1 !! 3%nat, r.2)) <$>
    (main traverse_commits 64 8 ["repos/all/a"]
       {["repos/all/a" := Dir; "repos/temp" := Dir]}).2
  = Return (64%nat, Some ("2020-01", 18 # 1), (54 # 37, 54 # 27))%Q.
Proof. vm_compute. reflexivity. Qed.

(** * Further properties *)

(** ** The steps of [createMonthList] *)

Lemma createMonthList_loop_cursors endDate stepSize fuel :
  ∀ monthList startDate l',
    createMonthList_loop fuel monthList startDate endDate stepSize
    = Return l' →
    ∃ l, l' = monthList ++ l ++ [endDate] ∧
         cursors endDate stepSize startDate l.
Proof.
  induction fuel as [|fuel IH]; intros monthList startDate l';
    rewrite createMonthList_loop_dt;
    destruct (dt_ltb startDate endDate) eqn:Hlt; try done.
  - intros [= <-]. by exists [].
  - destruct (dt_add startDate stepSize) as [c| |] eqn:Hadd; [|done..].
    simpl. intros (l & -> & Hl)%IH.
    exists (startDate :: l). rewrite <- app_assoc. split; [done|].
    simpl. split_and!; [done..|]. by exists c.
  - intros [= <-]. by exists [].
Qed.

Lemma cursors_pairs endDate stepSize l :
  ∀ startDate i a b,
    cursors endDate stepSize startDate l →
    monthPairs (l ++ [endDate]) !! i = Some (a, b) →
    dt_ltb a endDate = true ∧
    ∃ c, dt_add a stepSize = Return c ∧
         ((b = c ∧ dt_ltb c endDate = true) ∨
          (b = endDate ∧ dt_ltb c endDate = false)).
Proof.
  induction l as [|x l IH]; intros startDate i a b Hc Hp.
  - apply monthPairs_lookup in Hp as [Hi _]. simpl in Hi. lia.
  - destruct Hc as (-> & Hlt & c & Hadd & Hc).
    apply monthPairs_lookup in Hp as [Hi Hab].
    destruct i as [|i].
    + simpl in Hab. injection Hab as -> ->.
      split; [done|]. exists c. split; [done|].
      destruct l as [|y l]; simpl in *.
      * by right.
      * destruct Hc as (-> & Hlt' & _). by left.
    + apply (IH c i a b Hc). apply monthPairs_lookup.
      split; [simpl in *; lia|done].
Qed.

(** X1: in the intervals [createMonthList] returns, every interval begins
    before [endDate]; it either ends exactly one step after its start, at a
    date still before [endDate], or it is the last one, ends at [endDate],
    and one step from its start would reach or pass [endDate]. *)
Theorem createMonthList_step_sized fuel startDate endDate stepSize
    monthList i a b :
  createMonthList fuel startDate endDate stepSize = Return monthList →
  monthPairs monthList !! i = Some (a, b) →
  dt_ltb a endDate = true ∧
  ∃ c, dt_add a stepSize = Return c ∧
       ((b = c ∧ dt_ltb c endDate = true) ∨
        (b = endDate ∧ dt_ltb c endDate = false)).
Proof.
  intros (l & -> & Hc)%createMonthList_loop_cursors Hp.
  by apply (cursors_pairs endDate stepSize l startDate i a b).
Qed.

Lemma createMonthList_step_sized_witness :
  dt_ltb (dt 2020 3 1) (dt 2020 3 15) = true ∧
  ∃ c, dt_add (dt 2020 3 1) (new_relativedelta 0 1) = Return c ∧
       ((dt 2020 3 15 = c ∧ dt_ltb c (dt 2020 3 15) = true) ∨
        (dt 2020 3 15 = dt 2020 3 15 ∧ dt_ltb c (dt 2020 3 15) = false)).
Proof.
  apply (createMonthList_step_sized 3 (dt 2020 1 1) (dt 2020 3 15)
           (new_relativedelta 0 1)
           [dt 2020 1 1; dt 2020 2 1; dt 2020 3 1; dt 2020 3 15] 2
           (dt 2020 3 1) (dt 2020 3 15)); reflexivity.
Defined.

(** ** Steps that do not advance *)

Lemma dt_add_not_later d r d' :
  valid_month d → normal r → total_months r ≤ 0 →
  dt_add d r = Return d' →
  valid_month d' ∧ ∀ e, dt_ltb d e = true → valid_month e →
                        dt_ltb d' e = true.
Proof.
  intros Hm Hn Hk Hadd.
  destruct (dt_add_Return d r d' Hm Hn Hadd) as (Hm' & Hi & _).
  split; [done|]. intros e Hlt He.
  destruct (decide (total_months r = 0)) as [Hz|Hnz].
  - assert (year d' = year d ∧ month d' = month d ∧ day d' ≤ day d)
      as (Hy' & Hmo' & Hd').
    { unfold valid_month, normal, month_index, total_months, dt_add, assert,
        MINYEAR, MAXYEAR in *.
      repeat (case_match; simplify_eq/=); lia. }
    apply dt_ltb_spec in Hlt. apply dt_ltb_spec. lia.
  - apply month_index_lt_dt_ltb; [done..|].
    pose proof (dt_ltb_month_index d e Hm He Hlt). lia.
Qed.

Lemma createMonthList_loop_never_returns endDate stepSize fuel :
  valid_month endDate → normal stepSize → total_months stepSize ≤ 0 →
  ∀ monthList startDate l,
    valid_month startDate → dt_ltb startDate endDate = true →
    createMonthList_loop fuel monthList startDate endDate stepSize
    ≠ Return l.
Proof.
  intros He Hn Hk.
  induction fuel as [|fuel IH]; intros monthList startDate l Hs Hlt;
    rewrite createMonthList_loop_dt, Hlt; [done|].
  destruct (dt_add startDate stepSize) as [c| |] eqn:Hadd; [|done..].
  simpl. destruct (dt_add_not_later _ _ _ Hs Hn Hk Hadd) as [Hc Hlater].
  apply IH; [done|]. by apply Hlater.
Qed.

(** X2: with a step that does not advance (zero or a negative number of
    months) and valid dates [startDate < endDate], [createMonthList] never
    returns a list, whatever the fuel: the cursor stays before [endDate]
    until the loop is cut off or the date arithmetic raises. *)
Theorem createMonthList_nonpositive_step fuel startDate endDate y m
    monthList :
  valid_datetime startDate = true → valid_datetime endDate = true →
  dt_ltb startDate endDate = true →
  12 * y + m ≤ 0 →
  createMonthList fuel startDate endDate (new_relativedelta y m)
  ≠ Return monthList.
Proof.
  intros Hs He Hlt Hk.
  apply createMonthList_loop_never_returns;
    auto using valid_datetime_month, new_relativedelta_normal.
  by rewrite new_relativedelta_total.
Qed.

Lemma createMonthList_nonpositive_step_witness :
  createMonthList 5 (dt 2020 1 1) (dt 2020 3 15) (new_relativedelta 0 (-1))
  ≠ Return [dt 2020 1 1; dt 2020 3 15].
Proof.
  apply (createMonthList_nonpositive_step 5 (dt 2020 1 1) (dt 2020 3 15)
           0 (-1)); [reflexivity..|lia].
Defined.

Lemma dt_add_zero d y m :
  valid_datetime d = true → 12 * y + m = 0 →
  dt_add d (new_relativedelta y m) = Return d.
Proof.
  intros Hd Hz.
  assert (new_relativedelta y m = mk_relativedelta 0 0) as ->.
  { pose proof (new_relativedelta_normal y m) as Hn.
    pose proof (new_relativedelta_total y m) as Ht.
    destruct (new_relativedelta y m) as [ys ms].
    unfold normal, total_months in *. simpl in *. f_equal; lia. }
  unfold valid_datetime in Hd. destruct d as [yr mo da]. unfold dt_add.
  simpl in *. rewrite !Z.add_0_r.
  repeat (apply andb_prop in Hd as [Hd ?]).
  rewrite Hd. simpl. replace (yr <=? MAXYEAR) with true by done.
  do 2 f_equal. lia.
Qed.

(** X3: with a step of zero months in all and valid dates
    [startDate < endDate], the loop of [createMonthList] does not end: it is
    cut off for every amount of fuel. *)
Theorem createMonthList_zero_step fuel startDate endDate y m :
  valid_datetime startDate = true →
  dt_ltb startDate endDate = true →
  12 * y + m = 0 →
  createMonthList fuel startDate endDate (new_relativedelta y m) = Timeout.
Proof.
  intros Hs Hlt Hz. unfold createMonthList. generalize (@nil datetime).
  induction fuel as [|fuel IH]; intros monthList;
    rewrite createMonthList_loop_dt, Hlt; [done|].
  rewrite dt_add_zero by done. simpl. apply IH.
Qed.

Lemma createMonthList_zero_step_witness :
  createMonthList 100 (dt 2020 1 31) (dt 2020 3 15) (new_relativedelta 1 (-12))
  = Timeout.
Proof.
  apply (createMonthList_zero_step 100 (dt 2020 1 31) (dt 2020 3 15) 1 (-12));
    [reflexivity|reflexivity|lia].
Defined.

(** ** [createMultipleRepos] *)

Arguments path_join : simpl never.
Arguments copy_path : simpl never.

Lemma createMultipleRepos_loop_inv sourceDir tempDir indices :
  ∀ directories (fs fs' : filesystem) dirs,
    createMultipleRepos_loop sourceDir tempDir indices directories fs
    = (fs', Return dirs) →
    dirs = directories ++ (copy_path tempDir <$> indices) ∧
    fs ⊆ fs' ∧
    (indices ≠ [] → fs !! sourceDir = Some Dir) ∧
    Forall (λ d, (d ∉ dom fs) ∧ fs' !! d = Some Dir)
           (copy_path tempDir <$> indices) ∧
    NoDup (copy_path tempDir <$> indices).
Proof.
  induction indices as [|i indices IH]; intros directories fs fs' dirs; simpl.
  - intros [= <- <-]. rewrite app_nil_r.
    split_and!; [done|done|done|constructor|constructor].
  - fold (copy_path tempDir i). unfold mbind, M_bind.
    destruct (copytree sourceDir (copy_path tempDir i) fs)
      as [fs1 [[]|e|]] eqn:Hcopy; [|done..].
    apply copytree_cases in Hcopy as [Hsub Hret].
    destruct Hret as (Hsrc & Hnew & Hdir);
      [done|by rewrite copy_path_split|].
    intros (-> & Hsub' & _ & Hfresh & Hnd)%IH.
    rewrite <- app_assoc. simpl.
    split_and!; [done|by etrans|done| |].
    + constructor.
      * split; [done|]. by apply (lookup_weaken fs1).
      * eapply Forall_impl; [exact Hfresh|].
        intros d [Hd Hd']. split; [|done].
        by apply (subseteq_dom_not_elem_of fs fs1).
    + constructor; [|done].
      intros Hin. rewrite Forall_forall in Hfresh.
      destruct (Hfresh _ Hin) as [Hno _]. apply Hno.
      apply elem_of_dom. by exists Dir.
Qed.

(** X4: when [createMultipleRepos] returns, the directories are the copy
    paths of [0 .. numCopies - 1] in order; they are pairwise distinct, none
    of them existed before and each is a directory afterwards; every entry
    that was there before is still there, unchanged; and if at least one
    copy was asked for, the source was an existing directory. *)
Theorem createMultipleRepos_returns sourceDir tempDir numCopies
    (fs fs' : filesystem) dirs :
  createMultipleRepos sourceDir tempDir numCopies fs = (fs', Return dirs) →
  dirs = copy_path tempDir <$> range numCopies ∧
  length dirs = Z.to_nat numCopies ∧
  NoDup dirs ∧
  Forall (λ d, (d ∉ dom fs) ∧ fs' !! d = Some Dir) dirs ∧
  fs ⊆ fs' ∧
  (0 < numCopies → fs !! sourceDir = Some Dir).
Proof.
  unfold createMultipleRepos.
  intros (-> & Hsub & Hsrc & Hfresh & Hnd)%createMultipleRepos_loop_inv.
  simpl. split_and!; [done| |done..|].
  - unfold range. by rewrite length_fmap, length_seqZ.
  - intros Hpos. apply Hsrc. unfold range.
    intros Hnil%(f_equal length). rewrite length_seqZ in Hnil. simpl in Hnil.
    lia.
Qed.

Lemma createMultipleRepos_returns_witness :
  let fs : filesystem := {["repo" := Dir; "repo/HEAD" := File]} in
  let run := createMultipleRepos "repo" "tmp" 2 fs in
  let dirs := ["tmp/tempDir_0/.git"; "tmp/tempDir_1/.git"] in
  dirs = copy_path "tmp" <$> range 2 ∧
  length dirs = Z.to_nat 2 ∧
  NoDup dirs ∧
  Forall (λ d, (d ∉ dom fs) ∧ run.1 !! d = Some Dir) dirs ∧
  fs ⊆ run.1 ∧
  (0 < 2 → fs !! "repo" = Some Dir).
Proof.
  intros fs run dirs.
  apply (createMultipleRepos_returns "repo" "tmp" 2 fs run.1 dirs).
  vm_compute. reflexivity.
Defined.

(** X5: a missing source stops [createMultipleRepos] at the first copy with
    [FileNotFoundError], nothing having been created; when no copy is asked
    for ([numCopies <= 0]) the source is not looked at and the empty list is
    returned. *)
Theorem createMultipleRepos_missing_source sourceDir tempDir numCopies
    (fs : filesystem) :
  sourceDir ∉ dom fs →
  createMultipleRepos sourceDir tempDir numCopies fs
  = (fs, if 0 <? numCopies then Raise FileNotFoundError else Return []).
Proof.
  intros Hsrc%not_elem_of_dom. unfold createMultipleRepos, range.
  destruct (Z.ltb_spec 0 numCopies) as [Hpos|Hnone].
  - replace numCopies with (Z.succ (numCopies - 1)) by lia.
    rewrite seqZ_cons by lia. simpl.
    unfold mbind, M_bind, copytree. by rewrite Hsrc.
  - unfold seqZ. by replace (Z.to_nat numCopies) with 0%nat by lia.
Qed.

Lemma createMultipleRepos_missing_source_witness :
  createMultipleRepos "gone" "tmp" 3 {["repo" := Dir]}
  = ({["repo" := Dir]},
     if 0 <? 3 then Raise FileNotFoundError else Return []).
Proof.
  apply (createMultipleRepos_missing_source "gone" "tmp" 3 {["repo" := Dir]}).
  rewrite dom_singleton. by intros [=]%elem_of_singleton.
Defined.

(** ** Copies that succeed *)

Lemma append_empty_r s : s +:+ EmptyString = s.
Proof. induction s as [|c s IH]; [done|]. by rewrite append_cons, IH. Qed.

Lemma rsplit_sep_eq p : p = (rsplit_sep p).1 +:+ (rsplit_sep p).2.
Proof.
  induction p as [|c p IH]; [done|]. simpl.
  destruct (rsplit_sep p) as [head tail]. simpl in *.
  destruct (String.eqb_spec head EmptyString) as [->|Hne].
  - destruct (Ascii.eqb c "/"); simpl; by rewrite IH.
  - simpl. rewrite append_cons. by rewrite <- IH.
Qed.

Lemma rstrip_sep_prefix s : ∃ suffix, s = rstrip_sep s +:+ suffix.
Proof.
  induction s as [|c s [suffix IH]]; [by exists EmptyString|]. simpl.
  destruct (rstrip_sep s) as [|c' r].
  - destruct (Ascii.eqb c "/").
    + by exists (String c s).
    + exists s. done.
  - exists suffix. rewrite append_cons. by rewrite <- IH.
Qed.

Lemma path_split_prefix p : ∃ suffix, p = (path_split p).1 +:+ suffix.
Proof.
  unfold path_split. pose proof (rsplit_sep_eq p) as Hp.
  destruct (rsplit_sep p) as [head tail]. simpl in *.
  destruct (String.eqb (rstrip_sep head) EmptyString); simpl.
  - by exists tail.
  - destruct (rstrip_sep_prefix head) as [suffix Hs].
    exists (suffix +:+ tail). rewrite <- append_assoc. by rewrite <- Hs.
Qed.

Lemma makedirs_split_prefix name :
  ∃ suffix, name = (makedirs_split name).1 +:+ suffix.
Proof.
  unfold makedirs_split.
  destruct (path_split_prefix name) as [suffix Hs].
  destruct (path_split name) as [head tail]. simpl in *.
  destruct (String.eqb tail EmptyString); [|by exists suffix].
  destruct (path_split_prefix head) as [suffix' Hs'].
  exists (suffix' +:+ suffix). rewrite <- append_assoc. by rewrite <- Hs'.
Qed.

(** What [os.makedirs] adds is a directory at a path that [name] begins
    with. *)
Lemma mkdir_lookup p (fs fs' : filesystem) o q k :
  mkdir p fs = (fs', o) → fs' !! q = Some k →
  fs !! q = Some k ∨ (k = Dir ∧ q = p).
Proof.
  destruct (mkdir_cases p fs) as [[-> Hnew]|[e ->]]; intros [= <- <-];
    [|by left].
  destruct (decide (q = p)) as [->|Hne].
  - rewrite lookup_insert_eq. intros [= <-]. by right.
  - rewrite lookup_insert_ne by done. by left.
Qed.

Lemma makedirs_from_lookup fuel :
  ∀ name (fs fs' : filesystem) o q k,
    makedirs_from fuel name fs = (fs', o) → fs' !! q = Some k →
    fs !! q = Some k ∨ (k = Dir ∧ ∃ suffix, name = q +:+ suffix).
Proof.
  induction fuel as [|fuel IH]; intros name fs fs' o q k; simpl;
    pose proof (makedirs_split_prefix name) as [suffix Hprefix];
    destruct (makedirs_split name) as [head tail] eqn:Hsplit; simpl in *.
  - destruct (_ && _).
    + intros [= <- <-]. by left.
    + intros Hrun Hq.
      destruct (mkdir_lookup _ _ _ _ _ _ Hrun Hq) as [?|[-> ->]];
        [by left|right]. split; [done|]. exists EmptyString. by rewrite append_empty_r.
  - destruct (_ && _).
    + destruct (makedirs_from fuel head fs) as [fs1 o1] eqn:Hhead.
      assert (∀ q k, fs1 !! q = Some k →
                fs !! q = Some k ∨ (k = Dir ∧ ∃ suffix, name = q +:+ suffix))
        as Hfs1.
      { intros q' k' Hq'.
        destruct (IH _ _ _ _ _ _ Hhead Hq') as [?|[-> [suffix' ->]]];
          [by left|right]. split; [done|].
        exists (suffix' +:+ suffix). by rewrite <- append_assoc. }
      assert (∀ fs2 o2,
                (if String.eqb tail "." then (fs1, Return tt)
                 else mkdir name fs1) = (fs2, o2) →
                fs2 !! q = Some k →
                fs !! q = Some k ∨
                (k = Dir ∧ ∃ suffix, name = q +:+ suffix)) as Hlast.
      { intros fs2 o2. destruct (String.eqb tail ".").
        - intros [= <- <-]. apply Hfs1.
        - intros Hrun Hq.
          destruct (mkdir_lookup _ _ _ _ _ _ Hrun Hq) as [?|[-> ->]];
            [by apply Hfs1|right]. split; [done|]. exists EmptyString. by rewrite append_empty_r. }
      destruct o1 as [[]|e|]; [by apply Hlast| |intros [= <- <-]; apply Hfs1].
      destruct e; try (intros [= <- <-]; apply Hfs1). by apply Hlast.
    + intros Hrun Hq.
      destruct (mkdir_lookup _ _ _ _ _ _ Hrun Hq) as [?|[-> ->]];
        [by left|right]. split; [done|]. exists EmptyString. by rewrite append_empty_r.
Qed.

(** What [shutil.copytree] adds lies at the destination, above it or
    below it. *)
Lemma copytree_lookup src dst (fs fs' : filesystem) o q k :
  copytree src dst fs = (fs', o) → fs' !! q = Some k →
  fs !! q = Some k ∨
  (k = Dir ∧ ∃ suffix, dst = q +:+ suffix) ∨
  (∃ rel, q = with_sep dst +:+ rel).
Proof.
  unfold copytree.
  destruct (fs !! src) as [[]|] eqn:Hsrc;
    [intros [= <- <-]; by left| |intros [= <- <-]; by left].
  unfold makedirs.
  destruct (makedirs_from _ dst fs) as [fs1 o1] eqn:Hdst.
  pose proof (λ q k, makedirs_from_lookup _ _ _ _ _ q k Hdst) as Hfs1.
  assert (fs1 !! q = Some k →
          fs !! q = Some k ∨ (k = Dir ∧ ∃ suffix, dst = q +:+ suffix) ∨
          (∃ rel, q = with_sep dst +:+ rel)) as Hkeep.
  { intros Hq. destruct (Hfs1 _ _ Hq) as [?|?]; auto. }
  destruct o1 as [[]|e|]; [|by intros [= <- <-]..].
  destruct (copies_itself src dst fs); [by intros [= <- <-]|].
  intros [= <- <-] [Hq|[_ Hq]]%lookup_union_Some_raw; [by apply Hkeep|].
  apply elem_of_list_to_map_2, list_elem_of_fmap in Hq as [[rel k'] [[= -> ->] _]].
  right. right. by exists rel.
Qed.

Lemma first_sep_split a b x y :
  has_sep a = false → has_sep b = false →
  a +:+ String "/" x = b +:+ String "/" y → a = b ∧ x = y.
Proof.
  revert b. induction a as [|c a IH]; intros [|c' b] Ha Hb Heq.
  - by injection Heq.
  - rewrite append_cons in Heq. injection Heq as <- _. done.
  - rewrite append_cons in Heq. injection Heq as -> _. done.
  - rewrite !append_cons in Heq. injection Heq as -> Heq.
    simpl in Ha, Hb.
    apply orb_false_elim in Ha as [_ Ha]. apply orb_false_elim in Hb as [_ Hb].
    destruct (IH b Ha Hb Heq) as [-> ->]. done.
Qed.

Lemma copy_dir_sep_inj tempDir i j x y :
  copy_dir tempDir i +:+ String "/" x = copy_dir tempDir j +:+ String "/" y →
  i = j ∧ x = y.
Proof.
  unfold copy_dir. rewrite !append_assoc. intros Heq.
  apply (inj (String.append tempDir)) in Heq.
  apply (inj (String.append _)) in Heq.
  apply (inj (String.append "tempDir_")) in Heq.
  apply first_sep_split in Heq as [Hp ->]; [|apply pretty_Z_has_sep..].
  by apply (inj pretty) in Hp.
Qed.

Lemma copy_dir_app tempDir i j x :
  copy_dir tempDir j = copy_dir tempDir i +:+ x → has_sep x = false.
Proof.
  unfold copy_dir. rewrite !append_assoc. intros Heq.
  apply (inj (String.append tempDir)) in Heq.
  apply (inj (String.append _)) in Heq.
  apply (inj (String.append "tempDir_")) in Heq.
  pose proof (pretty_Z_has_sep j) as Hj. rewrite Heq, has_sep_app in Hj.
  by apply orb_false_elim in Hj as [_ ?].
Qed.

Lemma copy_path_dir tempDir i :
  copy_path tempDir i = copy_dir tempDir i +:+ String "/" ".git".
Proof. by rewrite copy_path_spelled. Qed.

Lemma copy_dir_facts tempDir i :
  copy_dir tempDir i ≠ EmptyString ∧
  endswith_sep (copy_dir tempDir i) = false.
Proof.
  unfold copy_dir. split.
  - by apply append_nonempty, append_nonempty.
  - rewrite endswith_sep_app by (by apply append_nonempty).
    rewrite endswith_sep_app by done.
    apply endswith_sep_has_sep. rewrite has_sep_app.
    by rewrite pretty_Z_has_sep.
Qed.

Lemma copy_path_facts tempDir i :
  copy_path tempDir i ≠ EmptyString ∧
  endswith_sep (copy_path tempDir i) = false ∧
  with_sep (copy_path tempDir i) = copy_path tempDir i +:+ "/".
Proof.
  rewrite copy_path_dir.
  assert (copy_dir tempDir i +:+ String "/" ".git" ≠ EmptyString) as Hne
    by (by apply append_nonempty).
  assert (endswith_sep (copy_dir tempDir i +:+ String "/" ".git") = false)
    as Hend by (by rewrite endswith_sep_app).
  split_and!; [done..|].
  unfold with_sep. rewrite Hend.
  by rewrite (proj2 (String.eqb_neq _ _) Hne).
Qed.

Lemma path_split_join head tail :
  head ≠ EmptyString → endswith_sep head = false → has_sep tail = false →
  path_split (head +:+ String "/" tail) = (head, tail).
Proof.
  intros Hne Hend Htail. unfold path_split.
  change (String "/" tail) with ("/" +:+ tail). rewrite <- append_assoc.
  rewrite rsplit_sep_app by done.
  rewrite rsplit_sep_endswith by (by rewrite endswith_sep_app).
  simpl. rewrite rstrip_sep_app_sep by done.
  by rewrite (proj2 (String.eqb_neq _ _) Hne).
Qed.

Lemma copy_path_path_split tempDir i :
  path_split (copy_path tempDir i) = (copy_dir tempDir i, ".git").
Proof.
  destruct (copy_dir_facts tempDir i) as [Hne Hend].
  rewrite copy_path_dir. by apply path_split_join.
Qed.

Lemma copy_dir_path_split tempDir i :
  tempDir ≠ EmptyString → endswith_sep tempDir = false →
  path_split (copy_dir tempDir i) = (tempDir, "tempDir_" +:+ pretty i).
Proof.
  intros Hne Hend. unfold copy_dir.
  rewrite (proj2 (String.eqb_neq _ _) Hne), Hend. simpl.
  apply path_split_join; [done..|].
  rewrite has_sep_app. by rewrite pretty_Z_has_sep.
Qed.

(** [os.mkdir] makes a new entry in a directory that is there. *)
Lemma mkdir_Return p (fs : filesystem) :
  p ≠ EmptyString → endswith_sep p = false → p ∉ dom fs →
  fs !! dirname p = Some Dir →
  mkdir p fs = (<[p := Dir]> fs, Return tt).
Proof.
  intros Hne Hend Hnew Hdir. unfold mkdir, parent_dir, lookup_dir.
  rewrite (proj2 (String.eqb_neq _ _) Hne).
  assert (path_exists p fs = false) as ->.
  { apply not_true_is_false. by intros ?%path_exists_dom. }
  rewrite rstrip_sep_id by done.
  rewrite (proj2 (String.eqb_neq _ _) Hne). simpl.
  rewrite Hdir. by destruct (String.eqb _ _).
Qed.

Lemma makedirs_copy_path tempDir i (fs : filesystem) :
  tempDir ≠ EmptyString → endswith_sep tempDir = false →
  fs !! tempDir = Some Dir →
  fs !! copy_dir tempDir i ≠ Some File →
  copy_path tempDir i ∉ dom fs →
  ∃ fs1, makedirs (copy_path tempDir i) fs = (fs1, Return tt).
Proof.
  intros Hne Hend Htemp Hdir Hnew.
  destruct (copy_dir_facts tempDir i) as [Hdne Hdend].
  destruct (copy_path_facts tempDir i) as (Hpne & Hpend & _).
  assert (dirname (copy_path tempDir i) = copy_dir tempDir i) as Hparent
    by (unfold dirname; by rewrite copy_path_path_split).
  assert (dirname (copy_dir tempDir i) = tempDir) as Hparent'
    by (unfold dirname; by rewrite copy_dir_path_split).
  unfold makedirs.
  destruct (String.length (copy_path tempDir i)) as [|n] eqn:Hlen.
  { destruct (copy_path tempDir i); [done|discriminate]. }
  simpl. rewrite copy_path_split.
  rewrite (proj2 (String.eqb_neq _ _) Hdne). simpl.
  destruct (path_exists (copy_dir tempDir i) fs) eqn:Hex; simpl.
  - apply path_exists_dom, elem_of_dom in Hex as [k Hk].
    destruct k; [done|].
    eexists. apply mkdir_Return; [done..|]. by rewrite Hparent.
  - assert (copy_dir tempDir i ∉ dom fs) as Hdnew.
    { intros Hin%path_exists_dom. congruence. }
    assert (makedirs_from n (copy_dir tempDir i) fs
            = (<[copy_dir tempDir i := Dir]> fs, Return tt)) as ->.
    { assert (makedirs_split (copy_dir tempDir i)
              = (tempDir, "tempDir_" +:+ pretty i)) as Hsplit.
      { unfold makedirs_split. rewrite copy_dir_path_split by done.
        by rewrite append_cons. }
      assert (path_exists tempDir fs = true) as Htex.
      { apply path_exists_dom, elem_of_dom. by exists Dir. }
      destruct n; simpl; rewrite Hsplit, Htex, andb_false_r;
        (apply mkdir_Return; [done..|by rewrite Hparent']). }
    eexists. apply mkdir_Return; [done..| |].
    + rewrite dom_insert. intros [Heq%elem_of_singleton|?]%elem_of_union;
        [|done].
      rewrite copy_path_dir in Heq.
      apply (f_equal String.length) in Heq.
      rewrite length_append in Heq. simpl in Heq. lia.
    + rewrite Hparent. apply lookup_insert_eq.
Qed.

Lemma copytree_copy_path sourceDir tempDir i (fs : filesystem) :
  fs !! sourceDir = Some Dir →
  tempDir ≠ EmptyString → endswith_sep tempDir = false →
  fs !! tempDir = Some Dir →
  fs !! copy_dir tempDir i ≠ Some File →
  copy_path tempDir i ∉ dom fs →
  below sourceDir (copy_path tempDir i) = None →
  ∃ fs1, copytree sourceDir (copy_path tempDir i) fs = (fs1, Return tt).
Proof.
  intros Hsrc Hne Hend Htemp Hdir Hnew Hbelow.
  destruct (makedirs_copy_path tempDir i fs) as [fs1 Hmk]; [done..|].
  unfold copytree, copies_itself. rewrite Hsrc, Hmk, Hbelow. by eexists.
Qed.

Lemma createMultipleRepos_loop_ok sourceDir tempDir indices :
  tempDir ≠ EmptyString → endswith_sep tempDir = false →
  NoDup indices →
  ∀ directories (fs : filesystem),
    fs !! sourceDir = Some Dir →
    fs !! tempDir = Some Dir →
    Forall (λ i, fs !! copy_dir tempDir i ≠ Some File ∧
                 (copy_path tempDir i ∉ dom fs) ∧
                 below sourceDir (copy_path tempDir i) = None) indices →
    ∃ fs',
      createMultipleRepos_loop sourceDir tempDir indices directories fs
      = (fs', Return (directories ++ (copy_path tempDir <$> indices))).
Proof.
  intros Hne Hend. induction 1 as [|i indices Hi Hnd IH];
    intros directories fs Hsrc Htemp Hall; simpl.
  - exists fs. by rewrite app_nil_r.
  - fold (copy_path tempDir i). unfold mbind, M_bind.
    apply Forall_cons in Hall as [(Hdir & Hnew & Hbelow) Hall].
    destruct (copytree_copy_path sourceDir tempDir i fs) as [fs1 Hcopy];
      [done..|].
    rewrite Hcopy.
    pose proof (copytree_cases _ _ _ _ _ Hcopy) as [Hsub _].
    destruct (copy_path_facts tempDir i) as (_ & _ & Hwith).
    destruct (IH (directories ++ [copy_path tempDir i]) fs1)
      as [fs' Hrest].
    + by apply (lookup_weaken fs).
    + by apply (lookup_weaken fs).
    + apply Forall_forall. intros j Hj.
      rewrite Forall_forall in Hall.
      destruct (Hall j Hj) as (Hdirj & Hnewj & Hbelowj).
      assert (i ≠ j) as Hij by (intros ->; done).
      split_and!; [| |done].
      * intros Hfile.
        destruct (copytree_lookup _ _ _ _ _ _ _ Hcopy Hfile)
          as [?|[[? _]|[rel Hrel]]]; [done..|].
        rewrite Hwith, copy_path_dir, !append_assoc in Hrel.
        by apply copy_dir_app in Hrel.
      * intros [k Hk]%elem_of_dom.
        destruct (copytree_lookup _ _ _ _ _ _ _ Hcopy Hk)
          as [Hold|[[_ [suffix Hpre]]|[rel Hrel]]].
        -- apply Hnewj, elem_of_dom. by exists k.
        -- rewrite !copy_path_dir, append_assoc in Hpre.
           rewrite append_cons in Hpre.
           by apply copy_dir_sep_inj in Hpre as [? _].
        -- rewrite Hwith, !copy_path_dir, !append_assoc in Hrel.
           rewrite !append_cons in Hrel.
           apply copy_dir_sep_inj in Hrel as [? _]. done.
    + exists fs'. rewrite Hrest. by rewrite <- app_assoc.
Qed.

(** X6: when the source is a directory, the directory for the copies is
    there (spelled without a separator at its end), and for every copy the
    copy path is free, no regular file stands where its directory is to be,
    and the path does not lie below the source, [createMultipleRepos]
    succeeds: it returns the copy paths of [0 .. numCopies - 1] in order.
    What one copy creates never stands in the way of a later copy. *)
Theorem createMultipleRepos_creates sourceDir tempDir numCopies
    (fs : filesystem) :
  fs !! sourceDir = Some Dir →
  fs !! tempDir = Some Dir →
  tempDir ≠ EmptyString → endswith_sep tempDir = false →
  (∀ i, 0 ≤ i < numCopies →
        fs !! copy_dir tempDir i ≠ Some File ∧
        (copy_path tempDir i ∉ dom fs) ∧
        below sourceDir (copy_path tempDir i) = None) →
  ∃ fs',
    createMultipleRepos sourceDir tempDir numCopies fs
    = (fs', Return (copy_path tempDir <$> range numCopies)) ∧
    fs ⊆ fs' ∧
    Forall (λ d, fs' !! d = Some Dir) (copy_path tempDir <$> range numCopies).
Proof.
  intros Hsrc Htemp Hne Hend Hfree. unfold createMultipleRepos.
  destruct (createMultipleRepos_loop_ok sourceDir tempDir (range numCopies)
              Hne Hend (NoDup_seqZ _ _) [] fs Hsrc Htemp) as [fs' Hrun].
  { apply Forall_forall. intros i [Hi Hn]%elem_of_seqZ. apply Hfree. lia. }
  exists fs'. split; [done|].
  apply createMultipleRepos_loop_inv in Hrun as (_ & Hsub & _ & Hall & _).
  split; [done|]. eapply Forall_impl; [exact Hall|]. by intros d [_ ?].
Qed.

Lemma createMultipleRepos_creates_witness :
  let fs : filesystem :=
    {["repo" := Dir; "repo/HEAD" := File; "tmp" := Dir;
      "tmp/run_v0" := Dir]} in
  ∃ fs',
    createMultipleRepos "repo" "tmp/run_v0" 2 fs
    = (fs', Return (copy_path "tmp/run_v0" <$> range 2)) ∧
    fs ⊆ fs' ∧
    Forall (λ d, fs' !! d = Some Dir) (copy_path "tmp/run_v0" <$> range 2).
Proof.
  intros fs.
  apply (createMultipleRepos_creates "repo" "tmp/run_v0" 2 fs);
    [reflexivity|reflexivity|discriminate|reflexivity|].
  intros i Hi.
  assert (i = 0 ∨ i = 1) as [-> | ->] by lia;
    (split_and!; [by vm_compute| |by vm_compute]);
    rewrite elem_of_dom; by vm_compute; intros [? [=]].
Defined.

(** ** Successive runs of [get_new_temp_dir] *)

Lemma get_new_temp_dir_inv fuel base_dir (fs fs' : filesystem) p :
  get_new_temp_dir fuel base_dir fs = (fs', Return p) →
  ∃ N, p = versioned base_dir N ∧ (p ∉ dom fs) ∧ fs' = <[p := Dir]> fs ∧
       ∀ k, (k < N)%N → versioned base_dir k ∈ dom fs.
Proof.
  pose proof (get_new_temp_dir_loop_spec fs base_dir fuel 0) as Hspec.
  unfold get_new_temp_dir, lift. unfold mbind at 1, M_bind at 1.
  destruct (get_new_temp_dir_loop _ fs base_dir 0) as [N| |]; [|done..].
  destruct Hspec as (_ & Hfree & Hbelow).
  unfold mbind, M_bind. rewrite mkdir_versioned by done.
  destruct (lookup_dir (dirname base_dir) fs) as [[]|e|]; [|done..].
  intros [= <- <-].
  exists N. split_and!; [done..|]. intros k Hk. apply Hbelow. lia.
Qed.

(** X7: two successive runs of [get_new_temp_dir] on the same base never
    return the same directory: the second one returns a later version, and
    both directories exist afterwards. *)
Theorem get_new_temp_dir_successive fuel1 fuel2 base_dir
    (fs fs1 fs2 : filesystem) p1 p2 :
  get_new_temp_dir fuel1 base_dir fs = (fs1, Return p1) →
  get_new_temp_dir fuel2 base_dir fs1 = (fs2, Return p2) →
  p1 ≠ p2 ∧ p1 ∈ dom fs2 ∧ p2 ∈ dom fs2 ∧
  ∃ N1 N2, p1 = versioned base_dir N1 ∧ p2 = versioned base_dir N2 ∧
           (N1 < N2)%N.
Proof.
  intros (N1 & -> & Hfree1 & -> & Hbelow1)%get_new_temp_dir_inv
         (N2 & -> & Hfree2 & -> & Hbelow2)%get_new_temp_dir_inv.
  rewrite dom_insert in Hfree2.
  assert (N1 < N2)%N as Hlt.
  { destruct (N.lt_ge_cases N1 N2) as [|Hge]; [done|]. exfalso.
    apply Hfree2, elem_of_union.
    destruct (decide (N2 = N1)) as [->|Hne].
    - left. by apply elem_of_singleton.
    - right. apply Hbelow1. lia. }
  rewrite !dom_insert. split_and!.
  - intros Heq%(inj (versioned base_dir)). lia.
  - apply elem_of_union. right. apply elem_of_union. left.
    by apply elem_of_singleton.
  - apply elem_of_union. left. by apply elem_of_singleton.
  - by exists N1, N2.
Qed.

Lemma get_new_temp_dir_successive_witness :
  let fs : filesystem := {["tmp" := Dir; "tmp/run_v0" := Dir]} in
  let p1 := "tmp/run_v1" in
  let p2 := "tmp/run_v2" in
  let fs2 : filesystem := <[p2 := Dir]> (<[p1 := Dir]> fs) in
  p1 ≠ p2 ∧ p1 ∈ dom fs2 ∧ p2 ∈ dom fs2 ∧
  ∃ N1 N2, p1 = versioned "tmp/run" N1 ∧ p2 = versioned "tmp/run" N2 ∧
           (N1 < N2)%N.
Proof.
  intros fs p1 p2 fs2.
  apply (get_new_temp_dir_successive 5 5 "tmp/run" fs (<[p1 := Dir]> fs)
           fs2 p1 p2); vm_compute; reflexivity.
Defined.

(** ** A worker that cannot read an interval *)

Lemma codeChurnJob_loop_Raise traverse_commits id repoPath pre dateRange
    post e :
  Forall (λ r, returns (traverse_commits repoPath r.1 r.2) = true) pre →
  traverse_commits repoPath dateRange.1 dateRange.2 = Raise e →
  ∀ finishedJobs,
    codeChurnJob_loop traverse_commits id repoPath
      (pre ++ dateRange :: post) finishedJobs = Raise e.
Proof.
  intros Hpre Hfail.
  induction Hpre as [|r pre Hr _ IH]; intros finishedJobs; simpl.
  - by rewrite (codeChurnInterval_Raise _ _ _ _ e).
  - destruct (traverse_commits repoPath r.1 r.2) as [commits| |] eqn:Hc;
      [|done..].
    destruct (codeChurnInterval_Return traverse_commits id repoPath r commits
                Hc) as (item & -> & _).
    simpl. apply IH.
Qed.

(** X8: a worker stops at the first interval it cannot read: it raises the
    exception of that read, and the results of the intervals it had
    finished before are not returned. *)
Theorem codeChurnJob_first_failure
    (traverse_commits : string → datetime → datetime → outcome (list Commit.t))
    (job : Job.t) pre dateRange post e :
  Job.dateRanges job = pre ++ dateRange :: post →
  Forall (λ r, returns (traverse_commits (Job.directory job) r.1 r.2) = true)
         pre →
  traverse_commits (Job.directory job) dateRange.1 dateRange.2 = Raise e →
  codeChurnJob traverse_commits job = Raise e.
Proof.
  intros Hranges Hpre Hfail. unfold codeChurnJob. rewrite Hranges.
  by rewrite (codeChurnJob_loop_Raise _ _ _ _ _ _ e).
Qed.

Lemma codeChurnJob_first_failure_witness :
  let traverse_commits (repoPath : string) (since to : datetime) :=
    if month since =? 2 then Raise (GitError "bad object")
    else Return [Commit.mk 3 1] in
  codeChurnJob traverse_commits
    (Job.mk 0 [(dt 2020 1 1, dt 2020 2 1); (dt 2020 2 1, dt 2020 3 1);
               (dt 2020 3 1, dt 2020 4 1)] "copy/.git")
  = Raise (GitError "bad object").
Proof.
  intros traverse_commits.
  apply (codeChurnJob_first_failure traverse_commits
           (Job.mk 0 [(dt 2020 1 1, dt 2020 2 1); (dt 2020 2 1, dt 2020 3 1);
                      (dt 2020 3 1, dt 2020 4 1)] "copy/.git")
           [(dt 2020 1 1, dt 2020 2 1)] (dt 2020 2 1, dt 2020 3 1)
           [(dt 2020 3 1, dt 2020 4 1)]).
  - reflexivity.
  - repeat constructor.
  - reflexivity.
Defined.

(** ** What a run of [codeChurnPerDelta] returns *)

Lemma codeChurnInterval_inv traverse_commits id repoPath dateRange item :
  codeChurnInterval traverse_commits id repoPath dateRange = Return item →
  interval_result traverse_commits id repoPath dateRange item.
Proof.
  intros Hitem.
  destruct (traverse_commits repoPath dateRange.1 dateRange.2)
    as [commits| |] eqn:Hc.
  - destruct (codeChurnInterval_Return traverse_commits id repoPath dateRange
                commits Hc) as (item' & Hitem' & Hres).
    congruence.
  - destruct dateRange. unfold codeChurnInterval in Hitem. simpl in Hc.
    by rewrite Hc in Hitem.
  - destruct dateRange. unfold codeChurnInterval in Hitem. simpl in Hc.
    by rewrite Hc in Hitem.
Qed.

Lemma codeChurnJob_loop_inv traverse_commits id repoPath dateRanges :
  ∀ finishedJobs l,
    codeChurnJob_loop traverse_commits id repoPath dateRanges finishedJobs
    = Return l →
    ∃ items, l = finishedJobs ++ items ∧
             Forall2 (interval_result traverse_commits id repoPath)
                     dateRanges items.
Proof.
  induction dateRanges as [|dateRange dateRanges IH]; intros finishedJobs l;
    simpl.
  - intros [= <-]. exists []. by rewrite app_nil_r.
  - destruct (codeChurnInterval traverse_commits id repoPath dateRange)
      as [item| |] eqn:Hitem; [|done..].
    simpl. intros (items & -> & Hall)%IH.
    exists (item :: items). rewrite <- app_assoc. split; [done|].
    constructor; [|done]. by apply codeChurnInterval_inv.
Qed.

Lemma codeChurnJob_inv traverse_commits job r :
  codeChurnJob traverse_commits job = Return r →
  r.1 = (Job.id job, Job.directory job) ∧
  Forall2 (interval_result traverse_commits (Job.id job) (Job.directory job))
          (Job.dateRanges job) r.2.
Proof.
  unfold codeChurnJob.
  destruct (codeChurnJob_loop _ _ _ _ _) as [l| |] eqn:Hl; [|done..].
  simpl. intros [= <-].
  apply codeChurnJob_loop_inv in Hl as (items & -> & Hall). done.
Qed.

Lemma build_jobs_inv intervals directories jobs :
  build_jobs intervals directories = Return jobs →
  directories ≠ [] ∧
  (λ job, (Job.id job, Job.directory job)) <$> jobs
    = zip (seq 0 (length directories)) directories ∧
  concat (Job.dateRanges <$> jobs) = intervals.
Proof.
  intros Hjobs.
  assert (directories ≠ []) as Hne.
  { intros ->. by vm_compute in Hjobs. }
  split; [done|].
  assert (0 < length directories)%nat as Hpos
    by (destruct directories; simpl; [done|lia]).
  pose proof (build_jobs_date_assignment intervals directories) as Hda.
  rewrite array_split_chop in Hda by done.
  rewrite build_jobs_Return in Hjobs by done. injection Hjobs as <-.
  split.
  - apply list_eq. intros i.
    rewrite list_lookup_fmap, lookup_zip_with, lookup_zip_with.
    destruct (seq 0 (length directories) !! i) as [j|] eqn:Hj; simpl; [|done].
    apply lookup_seq in Hj as [-> Hi].
    rewrite (list_lookup_lookup_total_lt directories i) by done. simpl.
    destruct (lookup_lt_is_Some_2
                (chop (section_sizes (length intervals) (length directories))
                      intervals) i) as [c ->]; [|done].
    by rewrite chop_length, section_sizes_length.
  - unfold date_assignment in Hda. rewrite build_jobs_Return in Hda by done.
    simpl in Hda. injection Hda as ->.
    rewrite chop_concat, section_sizes_sum by done. by rewrite take_ge.
Qed.

Lemma createJobsByTimeDelta_inv fuel repoPath timeDelta directories fs fs'
    jobs :
  createJobsByTimeDelta fuel repoPath timeDelta directories fs
  = (fs', Return jobs) →
  fs' = fs ∧ repoPath ∈ dom fs ∧
  ∃ monthList,
    createMonthList fuel GLOBAL_START_DATE GLOBAL_END_DATE timeDelta
    = Return monthList ∧
    build_jobs (monthPairs monthList) directories = Return jobs.
Proof.
  unfold createJobsByTimeDelta, lift, mbind, M_bind, assert.
  destruct (path_exists repoPath fs) eqn:Hex; [|done].
  apply path_exists_dom in Hex.
  destruct (createMonthList _ _ _ _) as [monthList| |]; [|done..].
  intros [= <- Hjobs]. split_and!; [done..|]. by exists monthList.
Qed.

Lemma interval_results_concat traverse_commits (jobs : list Job.t)
    (result : list worker_result) :
  Forall2 (λ job r, codeChurnJob traverse_commits job = Return r)
          jobs result →
  result.*1 = (λ job, (Job.id job, Job.directory job)) <$> jobs ∧
  Forall2 (result_of traverse_commits)
          (concat (Job.dateRanges <$> jobs)) (concat (result.*2)).
Proof.
  induction 1 as [|job r jobs result Hr _ [IH1 IH2]]; csimpl.
  - split; [done|constructor].
  - apply codeChurnJob_inv in Hr as [Hr1 Hr2]. split; [by f_equal|].
    apply Forall2_app; [|done].
    eapply Forall2_impl; [exact Hr2|].
    intros dateRange item Hitem. unfold result_of.
    destruct Hitem as (commits & Hc & ->). simpl. by exists commits.
Qed.

Lemma codeChurnPerDelta_inv
    (traverse_commits : string → datetime → datetime → outcome (list Commit.t))
    fuel cpu_count repoPath timeDelta tempDir numDirectories
    (fs fs' : filesystem) (result : list worker_result) :
  codeChurnPerDelta traverse_commits fuel cpu_count repoPath timeDelta
    tempDir numDirectories fs = (fs', Return result) →
  1 ≤ numDirectories ≤ cpu_count - 1 ∧
  ∃ N monthList,
    let new_temp_dir := versioned tempDir N in
    let dirs := copy_path new_temp_dir <$> range numDirectories in
    (new_temp_dir ∉ dom fs) ∧
    fs' !! new_temp_dir = Some Dir ∧
    Forall (λ d, (d ∉ dom fs) ∧ fs' !! d = Some Dir) dirs ∧
    fs ⊆ fs' ∧
    result.*1 = zip (seq 0 (Z.to_nat numDirectories)) dirs ∧
    createMonthList fuel GLOBAL_START_DATE GLOBAL_END_DATE timeDelta
    = Return monthList ∧
    Forall2 (result_of traverse_commits)
            (monthPairs monthList) (concat (result.*2)).
Proof.
  unfold codeChurnPerDelta, lift, assert. unfold mbind at 1, M_bind at 1.
  destruct (Z.leb_spec numDirectories (cpu_count - 1)) as [Hcap|]; [|done].
  unfold mbind at 1, M_bind at 1.
  destruct (get_new_temp_dir fuel tempDir fs) as [fs1 [p| |]] eqn:Hnew;
    [|done..].
  apply get_new_temp_dir_inv in Hnew as (N & -> & Hfree & -> & _).
  unfold mbind at 1, M_bind at 1.
  destruct (createMultipleRepos _ _ _ _) as [fs2 [dirs| |]] eqn:Hdirs;
    [|done..].
  apply createMultipleRepos_loop_inv in Hdirs as (Hd & Hsub & _ & Hfresh & _).
  simpl in Hd. subst dirs.
  unfold mbind, M_bind.
  destruct (createJobsByTimeDelta _ _ _ _ _) as [fs3 [jobs| |]] eqn:Hjobs;
    [|done..].
  apply createJobsByTimeDelta_inv in Hjobs
    as (-> & _ & monthList & Hml & Hjobs).
  apply build_jobs_inv in Hjobs as (Hne & Hids & Hconcat).
  unfold pool_map.
  destruct (Z.ltb_spec numDirectories 1) as [|Hpos]; [done|].
  intros [= <- Hresult].
  apply map_results_inv, (interval_results_concat traverse_commits)
    in Hresult as [Hfst Hitems].
  assert (fs ⊆ <[versioned tempDir N := Dir]> fs) as Hsub0
    by (apply insert_subseteq; by apply not_elem_of_dom).
  split; [lia|]. exists N, monthList. simpl.
  split_and!; [done| | |by etrans| |done|by rewrite <- Hconcat].
  - apply (lookup_weaken _ _ _ _ (lookup_insert_eq _ _ _) Hsub).
  - eapply Forall_impl; [exact Hfresh|].
    intros d [Hd Hd']. split; [|done].
    by apply (subseteq_dom_not_elem_of _ _ _ Hsub0).
  - rewrite Hfst, Hids, length_fmap. unfold range. by rewrite length_seqZ.
Qed.



(** ** Month keys and time *)

(** X10: for every valid date from the year 1000 on, formatting it as a
    month key gives the four-digit key [YYYY-MM], and parsing the key back,
    as the summary does, succeeds and gives the first day of the month of
    the date.  (Before the year 1000 the year is written with fewer digits
    than the parser asks for.) *)
Theorem month_key_round_trip d :
  valid_datetime d = true → 1000 ≤ year d →
  strftime_Ym d = yyyy_mm d ∧
  strptime_Ym (strftime_Ym d) = Return (first_of_month d) ∧
  valid_datetime (first_of_month d) = true.
Proof.
  intros Hd Hy.
  pose proof (valid_datetime_year _ Hd) as [_ Hmax]. unfold MAXYEAR in Hmax.
  rewrite strftime_Ym_yyyy_mm by lia.
  split; [done|]. split; [by apply strptime_yyyy_mm|].
  unfold valid_datetime, first_of_month in *. simpl.
  repeat (apply andb_prop in Hd as [Hd ?]).
  repeat (apply andb_true_intro; split); try done.
  unfold monthrange. by repeat case_match.
Qed.

Lemma month_key_round_trip_witness :
  strftime_Ym (dt 2024 2 29) = yyyy_mm (dt 2024 2 29) ∧
  strptime_Ym (strftime_Ym (dt 2024 2 29))
  = Return (first_of_month (dt 2024 2 29)) ∧
  valid_datetime (first_of_month (dt 2024 2 29)) = true.
Proof.
  apply (month_key_round_trip (dt 2024 2 29)); [reflexivity|simpl; lia].
Defined.

Lemma ascii_compare_digit a b :
  Ascii.compare (digit a) (digit b) = Z.compare (a mod 10) (b mod 10).
Proof.
  unfold Ascii.compare, digit.
  assert (0 ≤ a mod 10 < 10) by div_lia.
  assert (0 ≤ b mod 10 < 10) by div_lia.
  rewrite !N_ascii_embedding by lia.
  destruct (Z.compare_spec (a mod 10) (b mod 10)) as [Heq|Hlt|Hgt].
  - rewrite Heq. apply N.compare_refl.
  - apply N.compare_lt_iff. lia.
  - apply N.compare_gt_iff. lia.
Qed.

(** The order of Python on the keys [YYYY-MM] is the order of time. *)
Lemma yyyy_mm_ltb d1 d2 :
  valid_datetime d1 = true → valid_datetime d2 = true →
  String.ltb (yyyy_mm d1) (yyyy_mm d2)
  = dt_ltb (first_of_month d1) (first_of_month d2).
Proof.
  intros H1 H2.
  pose proof (valid_datetime_month _ H1) as Hm1.
  pose proof (valid_datetime_year _ H1) as Hy1.
  pose proof (valid_datetime_month _ H2) as Hm2.
  pose proof (valid_datetime_year _ H2) as Hy2.
  unfold valid_month, MINYEAR, MAXYEAR in *.
  destruct d1 as [y1 m1 ?], d2 as [y2 m2 ?]. simpl in *.
  unfold String.ltb, yyyy_mm. cbn [String.compare year month].
  rewrite !ascii_compare_digit.
  replace (Ascii.compare "-" "-") with Eq by done.
  assert (∀ y, 0 ≤ y ≤ 9999 →
            y = 1000 * ((y / 1000) mod 10) + 100 * ((y / 100) mod 10) +
                10 * ((y / 10) mod 10) + y mod 10 ∧
            0 ≤ (y / 1000) mod 10 ≤ 9 ∧ 0 ≤ (y / 100) mod 10 ≤ 9 ∧
            0 ≤ (y / 10) mod 10 ≤ 9 ∧ 0 ≤ y mod 10 ≤ 9) as Hdigits
    by (intros; div_lia).
  assert (∀ m, 1 ≤ m ≤ 12 →
            m = 10 * ((m / 10) mod 10) + m mod 10 ∧
            0 ≤ (m / 10) mod 10 ≤ 9 ∧ 0 ≤ m mod 10 ≤ 9) as Hmdigits
    by (intros; div_lia).
  destruct (Hdigits y1 ltac:(lia)) as (Ey1 & ? & ? & ? & ?).
  destruct (Hdigits y2 ltac:(lia)) as (Ey2 & ? & ? & ? & ?).
  destruct (Hmdigits m1 Hm1) as (Em1 & ? & ?).
  destruct (Hmdigits m2 Hm2) as (Em2 & ? & ?).
  clear Hdigits Hmdigits.
  generalize dependent ((y1 / 1000) mod 10). intros a3.
  generalize dependent ((y1 / 100) mod 10). intros a2.
  generalize dependent ((y1 / 10) mod 10). intros a1.
  generalize dependent (y1 mod 10). intros a0.
  generalize dependent ((y2 / 1000) mod 10). intros b3.
  generalize dependent ((y2 / 100) mod 10). intros b2.
  generalize dependent ((y2 / 10) mod 10). intros b1.
  generalize dependent (y2 mod 10). intros b0.
  generalize dependent ((m1 / 10) mod 10). intros p1.
  generalize dependent (m1 mod 10). intros p0.
  generalize dependent ((m2 / 10) mod 10). intros q1.
  generalize dependent (m2 mod 10). intros q0.
  intros. symmetry.
  assert (∀ b, (b = true ↔ y1 < y2 ∨ (y1 = y2 ∧ m1 < m2)) →
               dt_ltb (dt y1 m1 1) (dt y2 m2 1) = b) as Hgoal.
  { intros b Hb. destruct b.
    - apply dt_ltb_spec. simpl. destruct Hb as [Hb _]. specialize (Hb eq_refl).
      lia.
    - apply not_true_is_false. rewrite dt_ltb_spec. simpl.
      destruct Hb as [_ Hb]. intros Hlt.
      assert (false = true) by (apply Hb; lia). done. }
  unfold first_of_month. simpl. apply Hgoal.
  repeat match goal with
         | |- context [Z.compare ?x ?y] =>
             destruct (Z.compare_spec x y)
         end; split; intros; try done; try lia.
Qed.

(** ** The series in time order *)

(** The keys and the values of the series the aggregation returns. *)
Lemma aggregate_series (results : list (list worker_result)) :
  Forall (λ result, result ≠ []) results →
  ∃ series,
    aggregate results = Return series ∧
    StronglySorted str_lt (series.*1) ∧
    (∀ m, m ∈ series.*1 ↔ samples results m ≠ []) ∧
    (∀ m v, (m, v) ∈ series → v = np_mean (samples results m)).
Proof.
  intros Hresults.
  destruct (collect_all_lookup results Hresults ∅)
    as (combined_data & Hall & Hne & Hlookup); [done|].
  assert (∀ m, default [] (combined_data !! m) ≡ₚ samples results m) as Hperm.
  { intros m. rewrite Hlookup. by rewrite lookup_empty. }
  set (months := months_of combined_data).
  exists (zip months (avg_churn_of combined_data months)).
  assert ((zip months (avg_churn_of combined_data months)).*1 = months)
    as Hfst.
  { apply fst_zip. unfold avg_churn_of. by rewrite length_fmap. }
  rewrite Hfst. split_and!.
  - unfold aggregate. by rewrite Hall.
  - unfold months, months_of. apply sorted_strings_strict.
    apply NoDup_fst_map_to_list.
  - intros m. unfold months. rewrite months_of_elem_of.
    specialize (Hperm m). split.
    + intros [l Hl]. rewrite Hl in Hperm. simpl in Hperm.
      intros Hnil. rewrite Hnil in Hperm.
      apply Permutation_nil_r in Hperm. by apply (Hne m l).
    + intros Hsamples. destruct (combined_data !! m) as [l|]; [done|].
      simpl in Hperm. symmetry in Hperm.
      by apply Permutation_nil_r in Hperm.
  - intros m v [_ ->]%elem_of_zip_fmap.
    rewrite lookup_total_alt. apply np_mean_Permutation, Hperm.
Qed.

Lemma samples_key (results : list (list worker_result)) m :
  samples results m ≠ [] →
  ∃ item, item ∈ all_items results ∧ month_key item = m.
Proof.
  unfold samples. intros Hne.
  destruct (filter _ (all_items results)) as [|item l] eqn:Hf; [done|].
  exists item.
  assert (item ∈ filter (λ item, month_key item = m) (all_items results))
    as Hin by (rewrite Hf; by left).
  by apply list_elem_of_filter in Hin as [Hkey Hin].
Qed.

(** X11: when all results start at valid dates from the year 1000 on, the
    series of the aggregation is in the order of time: every key parses,
    and the dates of the keys, in series order, are strictly increasing. *)
Theorem aggregate_chronological (results : list (list worker_result)) :
  Forall (λ result, result ≠ []) results →
  Forall (λ item, valid_datetime (Item.startDate item) = true ∧
                  1000 ≤ year (Item.startDate item))
         (all_items results) →
  ∃ series,
    aggregate results = Return series ∧
    Forall (λ key, strptime_Ym key = Return (key_date key)) (series.*1) ∧
    StronglySorted (λ d1 d2, dt_ltb d1 d2 = true) (key_date <$> series.*1).
Proof.
  intros Hresults Hvalid.
  destruct (aggregate_series results Hresults)
    as (series & Hagg & Hsorted & Hkeys & _).
  exists series. split; [done|].
  assert (Forall (λ key, ∃ d, valid_datetime d = true ∧ key = yyyy_mm d)
                 (series.*1)) as Hdates.
  { apply Forall_forall. intros key Hkey.
    apply Hkeys, samples_key in Hkey as (item & Hin & <-).
    rewrite Forall_forall in Hvalid.
    destruct (Hvalid item Hin) as [Hd Hy].
    pose proof (valid_datetime_year _ Hd) as [_ Hmax].
    unfold MAXYEAR in Hmax.
    exists (Item.startDate item). split; [done|].
    unfold month_key. by rewrite strftime_Ym_yyyy_mm by lia. }
  assert (∀ d, valid_datetime d = true →
               key_date (yyyy_mm d) = first_of_month d) as Hkd.
  { intros d Hd. unfold key_date. by rewrite strptime_yyyy_mm. }
  split.
  - eapply Forall_impl; [exact Hdates|].
    intros key (d & Hd & ->). rewrite Hkd by done.
    by apply strptime_yyyy_mm.
  - clear Hkeys Hagg. revert Hdates.
    induction Hsorted as [|key keys Hs IH Hall]; intros Hdates; csimpl;
      [constructor|].
    apply Forall_cons in Hdates as [(d & Hd & ->) Hdates].
    constructor; [by apply IH|].
    apply Forall_fmap, Forall_forall. intros key' Hkey'.
    rewrite Forall_forall in Hall, Hdates.
    destruct (Hdates key' Hkey') as (d' & Hd' & ->).
    specialize (Hall _ Hkey'). unfold str_lt in Hall. simpl.
    rewrite !Hkd by done. by rewrite <- yyyy_mm_ltb.
Qed.

Lemma aggregate_chronological_witness :
  let results : list (list worker_result) :=
    [[(0%nat, "a/.git",
       [Item.mk 0 "a/.git" (dt 2020 12 1) (dt 2021 1 1) 1 1 2;
        Item.mk 0 "a/.git" (dt 2021 1 1) (dt 2021 2 1) 0 0 0])];
     [(0%nat, "b/.git",
       [Item.mk 0 "b/.git" (dt 2019 3 1) (dt 2019 4 1) 5 0 5])]] in
  ∃ series,
    aggregate results = Return series ∧
    Forall (λ key, strptime_Ym key = Return (key_date key)) (series.*1) ∧
    StronglySorted (λ d1 d2, dt_ltb d1 d2 = true) (key_date <$> series.*1).
Proof.
  intros results. apply (aggregate_chronological results).
  - repeat (apply Forall_cons_2; [discriminate|]). apply Forall_nil_2.
  - repeat (apply Forall_cons_2; [split; [reflexivity|simpl; lia]|]).
    apply Forall_nil_2.
Defined.

(** ** Unpacking the result of a run *)

Lemma codeChurnPerDelta_nonempty traverse_commits fuel cpu_count repoPath
    timeDelta tempDir numDirectories (fs fs' : filesystem)
    (result : list worker_result) :
  codeChurnPerDelta traverse_commits fuel cpu_count repoPath timeDelta
    tempDir numDirectories fs = (fs', Return result) →
  length result = Z.to_nat numDirectories ∧ result ≠ [].
Proof.
  intros (Hn & N & monthList & _ & _ & _ & _ & Hfst & _)%codeChurnPerDelta_inv.
  assert (length result = Z.to_nat numDirectories) as Hlen.
  { apply (f_equal length) in Hfst.
    rewrite length_fmap, length_zip, length_seq, length_fmap in Hfst.
    unfold range in Hfst. rewrite length_seqZ in Hfst.
    by rewrite Nat.min_id in Hfst. }
  split; [done|]. intros ->. simpl in Hlen. lia.
Qed.

(** X12: the unpacking of a result into ids, paths and data in [__main__]
    cannot fail: whatever [codeChurnPerDelta] returns has one entry per
    worker, at least one, so the loop body that files the results under
    their months returns for every dictionary. *)
Theorem collect_after_run
    (traverse_commits : string → datetime → datetime → outcome (list Commit.t))
    fuel cpu_count repoPath timeDelta tempDir numDirectories
    (fs fs' : filesystem) (result : list worker_result)
    (combined_data : gmap string (list Z)) :
  codeChurnPerDelta traverse_commits fuel cpu_count repoPath timeDelta
    tempDir numDirectories fs = (fs', Return result) →
  length result = Z.to_nat numDirectories ∧
  (0 < length result)%nat ∧
  returns (collect combined_data result) = true.
Proof.
  intros [Hlen Hne]%codeChurnPerDelta_nonempty.
  split_and!; [done| |].
  - destruct result; simpl; [done|lia].
  - by rewrite collect_Return.
Qed.

Lemma collect_after_run_witness :
  let traverse_commits (repoPath : string) (since to : datetime) :=
    Return [Commit.mk (month since) 1] in
  let fs : filesystem :=
    {["repos/all/a" := Dir; "repos/temp" := Dir]} in
  let run := codeChurnPerDelta traverse_commits 64 8 "repos/all/a"
               (new_relativedelta 0 1) "repos/temp/tempDir" 2 fs in
  length (delivered run.2) = Z.to_nat 2 ∧
  (0 < length (delivered run.2))%nat ∧
  returns (collect ∅ (delivered run.2)) = true.
Proof.
  intros traverse_commits fs run.
  apply (collect_after_run traverse_commits 64 8 "repos/all/a"
           (new_relativedelta 0 1) "repos/temp/tempDir" 2 fs
           run.1 (delivered run.2) ∅).
  vm_compute. reflexivity.
Defined.

(** ** Keys that are not months *)

Lemma strptime_Ym_outcome s :
  returns (strptime_Ym s) = false → strptime_Ym s = Raise ValueError.
Proof. unfold strptime_Ym. by repeat case_match. Qed.

Lemma split_by_threshold_malformed threshold series :
  Exists (λ p, returns (strptime_Ym p.1) = false) series →
  ∀ before after,
    split_by_threshold threshold series before after = Raise ValueError.
Proof.
  induction series as [|[key v] series IH]; intros Hex before after.
  - by apply Exists_nil in Hex.
  - simpl. destruct (strptime_Ym key) as [d| |] eqn:Hkey.
    + apply Exists_cons in Hex as [Hbad|Hex].
      { simpl in Hbad. by rewrite Hkey in Hbad. }
      simpl. destruct (dt_ltb d threshold); by apply IH.
    + pose proof (strptime_Ym_outcome key) as Hv. rewrite Hkey in Hv.
      by rewrite Hv.
    + pose proof (strptime_Ym_outcome key) as Hv. rewrite Hkey in Hv.
      by specialize (Hv eq_refl).
Qed.

(** An ASCII character is read as itself, and counts as a decimal digit
    when it is one of [0] to [9]. *)
Lemma decimal_digits_ascii k acc c s :
  (N_of_ascii c <? 128)%N = true →
  decimal_digits (S k) acc (String c s)
  = match digit_val c with
    | Some v => decimal_digits k (10 * acc + v) s
    | None => None
    end.
Proof.
  intros Hc. cbn [decimal_digits utf8_decode]. rewrite Hc.
  cbn [mbind option_bind].
  assert (decimal_value (N_of_ascii c) = digit_val c) as ->; [|done].
  revert Hc.
  destruct c as [[] [] [] [] [] [] [] []]; vm_compute; congruence.
Qed.

Lemma digit_val_is_ascii_digit c :
  is_ascii_digit c = bool_decide (is_Some (digit_val c)).
Proof.
  destruct c as [[] [] [] [] [] [] [] []]; vm_compute; reflexivity.
Qed.

Lemma digit_val_bounds c v :
  digit_val c = Some v → 0 ≤ v ≤ 9 ∧ (v = 0 ↔ c = "0"%char).
Proof.
  destruct c as [[] [] [] [] [] [] [] []]; vm_compute; intros [= <-];
    (split; [split; discriminate|split; discriminate || reflexivity]).
Qed.

Lemma parse_month_texts m :
  is_Some (parse_month m) ↔ m ∈ month_texts.
Proof.
  split.
  - intros Hm. apply (bool_decide_unpack _).
    destruct m as [|x [|y [|z m]]]; [by destruct Hm| | |by destruct Hm].
    + destruct x as [[] [] [] [] [] [] [] []];
        first [exact I|by (vm_compute in Hm; destruct Hm)].
    + destruct x as [[] [] [] [] [] [] [] []];
        try (by (cbn in Hm; destruct Hm; discriminate));
        destruct y as [[] [] [] [] [] [] [] []];
        first [exact I|by (vm_compute in Hm; destruct Hm)].
  - unfold month_texts. intros Hm.
    repeat (apply elem_of_cons in Hm as [->|Hm]; [by eexists|]).
    by apply elem_of_nil in Hm.
Qed.

(** On ASCII texts, the parser accepts the month keys of the format and no
    other text. *)
Lemma strptime_Ym_format s :
  is_ascii s = true → returns (strptime_Ym s) = month_key_format s.
Proof.
  intros Hs. unfold strptime_Ym.
  destruct s as [|a [|b [|c [|d [|sep m]]]]]; simpl in Hs;
    repeat (apply andb_prop in Hs as [? Hs]).
  1-5: by repeat (first [rewrite decimal_digits_ascii by done
                        |match goal with
                         | |- context [digit_val ?x] => destruct (digit_val x)
                         end]).
  unfold month_key_format. cbn [forallb].
  rewrite !digit_val_is_ascii_digit.
  rewrite decimal_digits_ascii by done.
  destruct (digit_val a) as [va|] eqn:Ha; [|done].
  rewrite decimal_digits_ascii by done.
  destruct (digit_val b) as [vb|] eqn:Hb; [|done].
  rewrite decimal_digits_ascii by done.
  destruct (digit_val c) as [vc|] eqn:Hc; [|done].
  rewrite decimal_digits_ascii by done.
  destruct (digit_val d) as [vd|] eqn:Hd; [|by rewrite !andb_false_r].
  rewrite !bool_decide_eq_true_2 by done. cbn [decimal_digits andb].
  destruct (digit_val_bounds _ _ Ha) as [? Hza].
  destruct (digit_val_bounds _ _ Hb) as [? Hzb].
  destruct (digit_val_bounds _ _ Hc) as [? Hzc].
  destruct (digit_val_bounds _ _ Hd) as [? Hzd].
  assert ((MINYEAR <=? 10 * (10 * (10 * (10 * 0 + va) + vb) + vc) + vd)
          = negb (String.eqb
                    (String a (String b (String c (String d EmptyString))))
                    "0000")) as Hyear.
  { unfold MINYEAR.
    destruct (String.eqb_spec
                (String a (String b (String c (String d EmptyString))))
                "0000") as [Heq|Hne]; simpl.
    - injection Heq as -> -> -> ->.
      assert (va = 0 ∧ vb = 0 ∧ vc = 0 ∧ vd = 0) as (-> & -> & -> & ->)
        by (split_and!; [by apply Hza|by apply Hzb|by apply Hzc
                         |by apply Hzd]).
      done.
    - apply Z.leb_le.
      destruct (decide (va = 0 ∧ vb = 0 ∧ vc = 0 ∧ vd = 0))
        as [(Ea & Eb & Ec & Ed)|Hnz]; [|lia].
      exfalso. apply Hne.
      apply Hza in Ea. apply Hzb in Eb. apply Hzc in Ec. apply Hzd in Ed.
      by subst. }
  destruct (parse_month m) as [vm|] eqn:Hm.
  - rewrite (bool_decide_eq_true_2 (m ∈ month_texts))
      by (apply parse_month_texts; by eexists).
    rewrite andb_true_r, Hyear.
    destruct (Ascii.eqb sep "-"), (negb _); done.
  - rewrite (bool_decide_eq_false_2 (m ∈ month_texts)).
    + by rewrite andb_false_r.
    + intros [vm Hvm]%parse_month_texts. congruence.
Qed.

(** X13: if some key of the series is an ASCII text that is not a month key
    in the format the summary parses (the four digits of a year other than
    0000, a dash, and a month from 1 to 12 in one or two digits), the
    summary raises [ValueError] and reports no averages, wherever the key
    stands in the series and whatever the other keys are. *)
Theorem summary_malformed_key threshold (series : list (string * Q)) :
  Exists (λ p, is_ascii p.1 = true ∧ month_key_format p.1 = false) series →
  summary threshold series = Raise ValueError.
Proof.
  intros Hex. unfold summary.
  rewrite split_by_threshold_malformed; [done|].
  eapply Exists_impl; [exact Hex|].
  intros [key v] [Hascii Hformat]. simpl in *.
  by rewrite strptime_Ym_format.
Qed.

Lemma summary_malformed_key_witness :
  summary threshold_date
    [("2022-09", 4 # 1); ("2022-13", 2 # 1); ("2022-11", 6 # 1)]%Q
  = Raise ValueError.
Proof.
  apply (summary_malformed_key threshold_date).
  apply Exists_cons_tl, Exists_cons_hd. split; reflexivity.
Defined.

(** ** The run of [__main__] *)

Example window_months_ends :
  length window_months = 64%nat ∧
  head window_months = Some "2019-10" ∧ last window_months = Some "2025-01".
Proof. vm_compute. done. Qed.

Lemma createMonthList_global fuel monthList :
  createMonthList fuel GLOBAL_START_DATE GLOBAL_END_DATE
    (new_relativedelta 0 1) = Return monthList →
  monthList = window_boundaries.
Proof.
  intros Hml.
  assert (createMonthList 64 GLOBAL_START_DATE GLOBAL_END_DATE
            (new_relativedelta 0 1) = Return window_boundaries) as H64
    by (vm_compute; reflexivity).
  destruct (Nat.le_gt_cases fuel 64) as [Hle|Hgt].
  - apply (createMonthList_loop_fuel _ _ fuel 64) in Hml; [|done].
    unfold createMonthList in H64. congruence.
  - apply (createMonthList_loop_fuel _ _ 64 fuel) in H64; [|lia].
    unfold createMonthList in Hml. congruence.
Qed.

#[global] Instance str_lt_dec : RelDecision str_lt.
Proof. intros s1 s2. unfold str_lt. apply _. Defined.

Lemma str_lt_irrefl s : ¬ str_lt s s.
Proof.
  unfold str_lt, String.ltb.
  assert (String.compare s s = Eq) as ->; [|done].
  induction s as [|a s IH]; simpl; [done|].
  unfold Ascii.compare. by rewrite N.compare_refl.
Qed.

Lemma str_lt_asym s1 s2 : str_lt s1 s2 → str_lt s2 s1 → False.
Proof.
  unfold str_lt, String.ltb. rewrite (String.compare_antisym s1 s2).
  by destruct (String.compare s2 s1).
Qed.

#[global] Instance str_lt_antisymm : AntiSymm (=) str_lt.
Proof. intros s1 s2 H12 H21. by destruct (str_lt_asym s1 s2). Qed.

Lemma StronglySorted_str_lt_NoDup l : StronglySorted str_lt l → NoDup l.
Proof.
  induction 1 as [|s l _ IH Hall]; constructor; [|done].
  intros Hin. rewrite Forall_forall in Hall.
  by apply (str_lt_irrefl s), Hall.
Qed.

Lemma window_months_sorted : StronglySorted str_lt window_months.
Proof. apply (bool_decide_unpack _). vm_compute. exact I. Qed.

Lemma result_of_keys traverse_commits intervals items :
  Forall2 (result_of traverse_commits) intervals items →
  month_key <$> items = (λ p, strftime_Ym p.1) <$> intervals.
Proof.
  induction 1 as [|dateRange item intervals items Hitem _ IH]; csimpl;
    [done|].
  rewrite IH. f_equal. destruct Hitem as (commits & _ & Hitem).
  unfold month_key. by rewrite Hitem.
Qed.

(** What each run of the loop of [__main__] hands to the aggregation. *)
Lemma main_loop_inv traverse_commits fuel cpu_count all_repos :
  ∀ combined_data fs fs' combined_data',
    main_loop traverse_commits fuel cpu_count all_repos combined_data fs
    = (fs', Return combined_data') →
    ∃ results,
      length results = length all_repos ∧
      Forall (λ result : list worker_result,
                length result = 7%nat ∧
                month_key <$> concat (result.*2) = window_months) results ∧
      (all_repos ≠ [] → 8 ≤ cpu_count) ∧
      collect_all combined_data results = Return combined_data'.
Proof.
  induction all_repos as [|repoPath all_repos IH];
    intros combined_data fs fs' combined_data'; simpl.
  - intros [= <- <-]. exists []. split_and!; [done|constructor|done|done].
  - unfold mbind at 1, M_bind at 1.
    destruct (codeChurnPerDelta _ _ _ _ _ _ _ _) as [fs1 [result|e|]] eqn:Hrun;
      [|done..].
    unfold mbind at 1, M_bind at 1, lift.
    destruct (collect combined_data result) as [combined_data1| |] eqn:Hc;
      [|done..].
    intros (results & Hlen & Hall & _ & Hcollect)%IH.
    pose proof (codeChurnPerDelta_nonempty _ _ _ _ _ _ _ _ _ _ Hrun)
      as [Hlen7 _].
    apply codeChurnPerDelta_inv in Hrun
      as (Hcap & N & monthList & _ & _ & _ & _ & _ & Hml & Hitems).
    apply createMonthList_global in Hml as ->.
    exists (result :: results). simpl. rewrite Hc.
    split_and!; [by f_equal| |lia|done].
    constructor; [|done]. split; [done|].
    by rewrite (result_of_keys _ _ _ Hitems).
Qed.

Lemma filter_key_length (keys : list string) m :
  NoDup keys →
  length (filter (λ k, k = m) keys)
  = if bool_decide (m ∈ keys) then 1%nat else 0%nat.
Proof.
  induction 1 as [|k keys Hk _ IH].
  - by rewrite bool_decide_eq_false_2 by apply not_elem_of_nil.
  - destruct (decide (k = m)) as [->|Hne].
    + rewrite filter_cons_True by done. simpl. rewrite IH.
      rewrite bool_decide_eq_false_2 by done.
      by rewrite bool_decide_eq_true_2 by left.
    + rewrite filter_cons_False by done. rewrite IH.
      destruct (decide (m ∈ keys)).
      * rewrite !bool_decide_eq_true_2; [done|by right|done].
      * rewrite !bool_decide_eq_false_2; [done| |done].
        intros [?|?]%elem_of_cons; congruence.
Qed.

Lemma samples_per_repository (results : list (list worker_result)) m :
  Forall (λ result : list worker_result,
            length result = 7%nat ∧
            month_key <$> concat (result.*2) = window_months) results →
  length (samples results m)
  = if bool_decide (m ∈ window_months) then length results else 0%nat.
Proof.
  unfold samples, all_items.
  induction 1 as [|result results [_ Hkeys] _ IH].
  - by destruct (bool_decide _).
  - rewrite fmap_cons. cbn [concat length].
    rewrite filter_app, fmap_app, length_app, IH.
    rewrite length_fmap.
    assert (length (filter (λ item, month_key item = m) (concat (result.*2)))
            = length (filter (λ k, k = m) window_months)) as ->.
    { rewrite <- Hkeys. generalize (concat (result.*2)). intros items.
      induction items as [|item items IHi]; [done|].
      rewrite fmap_cons.
      destruct (decide (month_key item = m)).
      - rewrite !filter_cons_True by done. cbn [length]. by rewrite IHi.
      - by rewrite !filter_cons_False by done. }
    rewrite filter_key_length
      by apply StronglySorted_str_lt_NoDup, window_months_sorted.
    by destruct (bool_decide _).
Qed.

(** X14: when [__main__] returns for at least one repository, the machine
    has at least 8 processors; the month keys of the series are the 64
    months of the global window, 2019-10 to 2025-01, whatever the
    repositories contain; every month is the mean of exactly one sample per
    repository; and the two averages are the summary of that series at the
    threshold of November 2022. *)
Theorem main_series
    (traverse_commits : string → datetime → datetime → outcome (list Commit.t))
    fuel cpu_count (all_repos : list string) (fs fs' : filesystem)
    (series : list (string * Q)) (averages : Q * Q) :
  main traverse_commits fuel cpu_count all_repos fs
  = (fs', Return (series, averages)) →
  all_repos ≠ [] →
  8 ≤ cpu_count ∧
  series.*1 = window_months ∧
  summary threshold_date series = Return averages ∧
  ∃ results,
    length results = length all_repos ∧
    aggregate results = Return series ∧
    ∀ m v, (m, v) ∈ series →
           length (samples results m) = length all_repos ∧
           v = np_mean (samples results m).
Proof.
  intros Hmain Hrepos. unfold main in Hmain.
  unfold mbind at 1, M_bind at 1 in Hmain.
  destruct (main_loop _ _ _ _ _ _) as [fs1 [combined_data|e|]] eqn:Hloop;
    [|done..].
  unfold mbind, M_bind, lift in Hmain.
  destruct (summary _ _) as [avgs| |] eqn:Hsummary; [|done..].
  injection Hmain as <- <- <-.
  apply main_loop_inv in Hloop as (results & Hlen & Hall & Hcpu & Hcollect).
  assert (Forall (λ result : list worker_result, result ≠ []) results)
    as Hne.
  { eapply Forall_impl; [exact Hall|]. by intros [|??] [? _]. }
  destruct (aggregate_series results Hne)
    as (series & Hagg & Hsorted & Hkeys & Hvalues).
  assert (series = zip (months_of combined_data)
                       (avg_churn_of combined_data (months_of combined_data)))
    as Hser.
  { unfold aggregate in Hagg. rewrite Hcollect in Hagg. simpl in Hagg.
    by injection Hagg. }
  rewrite <- Hser in Hsummary |- *. clear Hser.
  assert (0 < length results)%nat as Hpos
    by (rewrite Hlen; destruct all_repos; simpl; [done|lia]).
  assert (∀ m, m ∈ series.*1 ↔ m ∈ window_months) as Hsame.
  { intros m. rewrite Hkeys.
    pose proof (samples_per_repository results m Hall) as Hcount.
    case_bool_decide as Hm.
    - split; [done|]. intros _ Hnil. rewrite Hnil in Hcount.
      simpl in Hcount. lia.
    - split; [|done]. intros Hsamples.
      by destruct (samples results m). }
  split_and!; [by apply Hcpu| |done|].
  - apply (StronglySorted_unique str_lt);
      [done|apply window_months_sorted|].
    apply NoDup_Permutation; [| |done].
    + by apply StronglySorted_str_lt_NoDup.
    + apply StronglySorted_str_lt_NoDup, window_months_sorted.
  - exists results. split_and!; [done..|].
    intros m v Hmv. split; [|by apply Hvalues].
    rewrite (samples_per_repository results m Hall), <- Hlen.
    rewrite bool_decide_eq_true_2; [done|].
    apply Hsame, list_elem_of_fmap. by exists (m, v).
Qed.

Lemma main_series_witness :
  let traverse_commits (repoPath : string) (since to : datetime) :=
    if month since =? 1
    then Return [Commit.mk 10 2; Commit.mk 5 1; Commit.mk 0 0]
    else Return [] in
  let run := main traverse_commits 64 8 ["repos/all/a"]
               {["repos/all/a" := Dir; "repos/temp" := Dir]} in
  let series := match run.2 with Return r => r.1 | _ => [] end in
  let averages := match run.2 with Return r => r.2 | _ => (0, 0)%Q end in
  8 ≤ 8 ∧
  series.*1 = window_months ∧
  summary threshold_date series = Return averages ∧
  ∃ results,
    length results = length ["repos/all/a"] ∧
    aggregate results = Return series ∧
    ∀ m v, (m, v) ∈ series →
           length (samples results m) = length ["repos/all/a"] ∧
           v = np_mean (samples results m).
Proof.
  intros traverse_commits run series averages.
  apply (main_series traverse_commits 64 8 ["repos/all/a"]
           {["repos/all/a" := Dir; "repos/temp" := Dir]} run.1 series
           averages).
  - vm_compute. reflexivity.
  - discriminate.
Defined.

